(** * Afinar-voz: the pitch pipeline of [app.js]

    A shallow embedding of the numeric core of [app.js] (a browser tuner):
    the autocorrelation pitch estimator [detectPitchAutoCorr], the
    exponential smoothing done by [loop], and the note arithmetic
    ([freqToMidi], [midiToFreq], [midiToNoteName], [centsOff]).

    A JavaScript number is a binary64 float, and the embedding uses
    Rocq's primitive floats ([PrimFloat]) wherever the code's arithmetic
    is fixed bit for bit:

    - the estimator, the smoother and the needle use only [+ - * /],
      [Math.sqrt], [Math.min], [Math.max] and comparisons; their
      embedding is exact, with the [Float32Array] stores rounded to
      binary32;
    - the note arithmetic goes through [Math.log2] and [Math.pow], which
      ECMAScript fixes at the special arguments only and otherwise
      leaves implementation-approximated. Module [NoteMathDouble] embeds
      it over the doubles as far as the standard goes; module
      [NoteEngine] embeds it over the doubles for any engine, the
      engine's two functions being a parameter of the code, and what is
      proved of it asks of the engine an accuracy at the arguments the
      code passes.

    What the doubles of a computation are worth as real numbers is
    derived from the standard library's specification of the primitive
    operations ([SpecFloat]): modules [RealValue] and those named after
    the operations.

    The page around the numbers is embedded as the code has it: the
    piano and the list of microphones as lists of elements, the history
    graph as the list of drawing commands, and the script's variables
    with the calls it makes on the Web Audio API as a state that each
    handler takes to the next (module [Controls]).

    The definitions come first, one module per part of [app.js]; the
    facts follow, in modules named after them. *)

From Stdlib Require Import String Ascii.
From Stdlib Require Import ZArith List Bool Lia DecimalString.
From Stdlib Require Import Reals Lra.
From Stdlib Require Import Floats.
From Stdlib Require Uint63 DecimalZ DecimalPos.
Import ListNotations.

Set Warnings "-inexact-float".

(** ** JavaScript numbers as binary64 floats *)

Module JSFloat.

Open Scope float_scope.

(** [ToBoolean] of a number: [+0], [-0] and [NaN] are falsy. *)
Definition falsy (x : float) : bool := PrimFloat.is_zero x || PrimFloat.is_nan x.

Definition truthy (x : float) : bool := negb (falsy x).

(** The value a [Float32Array] keeps when [x] is stored into it: [x]
    rounded to the nearest binary32 (ties to even), overflowing to an
    infinity. *)
Definition fround (x : float) : float :=
  match Prim2SF x with
  | S754_finite s m e => SF2Prim (binary_round 24 128 s m e)
  | _ => x
  end.

(** An array length or index as a number. *)
Definition of_Z (z : Z) : float :=
  if (z <? 0)%Z then - of_uint63 (Uint63.of_Z (- z)) else of_uint63 (Uint63.of_Z z).

(** Reading [a[i]]: [None] stands for [undefined] (index out of range). *)
Definition get (a : list float) (i : Z) : option float :=
  if (i <? 0)%Z then None else nth_error a (Z.to_nat i).

(** [ToNumber]: [undefined] becomes [NaN] in arithmetic and comparisons. *)
Definition num (v : option float) : float :=
  match v with Some x => x | None => nan end.

(** [v || dflt] for a number-or-undefined [v]. *)
Definition or_else (v : option float) (dflt : float) : float :=
  match v with
  | Some x => if truthy x then x else dflt
  | None => dflt
  end.

(** Classes of [spec_float] values, as booleans. *)
Definition sf_pos (x : spec_float) : bool :=
  match x with
  | S754_finite false _ _ | S754_infinity false => true
  | _ => false
  end.

Definition sf_nonneg (x : spec_float) : bool :=
  match x with
  | S754_finite false _ _ | S754_infinity false | S754_zero false => true
  | _ => false
  end.

Definition sf_zero (x : spec_float) : bool :=
  match x with S754_zero _ => true | _ => false end.

Definition sf_nan_or_inf (x : spec_float) : bool :=
  match x with S754_nan | S754_infinity _ => true | _ => false end.

Definition sf_nan_or_zero (x : spec_float) : bool :=
  match x with S754_nan | S754_zero _ => true | _ => false end.

Definition sf_nonpos (x : spec_float) : bool :=
  match x with
  | S754_zero _ | S754_finite true _ _ | S754_infinity true => true
  | _ => false
  end.

Definition sf_nonpos_or_nan (x : spec_float) : bool :=
  match x with S754_nan => true | _ => sf_nonpos x end.

(** A number of sign [s] that is not zero, any finite exponent being at
    least [emin]; and a number of sign [s], zero or not. *)
Definition signed_nonzero (emin : Z) (s : bool) (x : spec_float) : Prop :=
  match x with
  | S754_finite s' _ e => s' = s /\ (emin <= e)%Z
  | S754_infinity s' => s' = s
  | _ => False
  end.

Definition signed (s : bool) (x : spec_float) : Prop :=
  match x with
  | S754_finite s' _ _ | S754_infinity s' | S754_zero s' => s' = s
  | S754_nan => False
  end.

End JSFloat.

(** ** The pitch estimator, [detectPitchAutoCorr] *)

Module Estimator.

Import JSFloat.
Open Scope float_scope.

Definition MIN_RMS : float := 0.01.
Definition MIN_FREQUENCY : float := 80.
Definition MAX_FREQUENCY : float := 1500.

(** [for (i ...) rms += buf[i] * buf[i]] *)
Definition sum_squares (buf : list float) : float :=
  fold_left (fun acc x => acc + x * x) buf 0.

(** [rms = Math.sqrt(rms / buf.length)] *)
Definition rms (buf : list float) : float :=
  PrimFloat.sqrt (sum_squares buf / of_Z (Z.of_nat (length buf))).

(** The inner loop at one lag: [sum += buf[i] * buf[i + lag]] for
    [i < size - lag]; [c[lag] = sum] stores into a [Float32Array]. *)
Definition lag_sum (buf : list float) (lag : nat) : float :=
  fold_left (fun acc p => acc + fst p * snd p) (combine buf (skipn lag buf)) 0.

Definition autocorr (buf : list float) : list float :=
  map (fun lag => fround (lag_sum buf lag)) (seq 0 (length buf)).

(** [while (d < size - 1 && c[d] > c[d + 1]) d++], entered with [d]
    pointing at the head of [c]. *)
Fixpoint skip_descent (c : list float) (d : Z) : Z :=
  match c with
  | x :: (y :: _) as rest => if y <? x then skip_descent rest (d + 1)%Z else d
  | _ => d
  end.

(** One pass of [if (c[i] > max) { max = c[i]; maxPos = i; }]. *)
Definition max_step (c : list float) (st : float * Z) (i : Z) : float * Z :=
  let ci := num (get c i) in
  if fst st <? ci then (ci, i) else st.

(** [for (let i = d; i < size; i++) ...] from [max = -1, maxPos = -1]. *)
Definition find_max (c : list float) (d : Z) : float * Z :=
  fold_left (max_step c)
    (map Z.of_nat (seq (Z.to_nat d) (length c - Z.to_nat d)))
    (-1, (-1)%Z).

(** [if (freq < MIN_FREQUENCY || freq > MAX_FREQUENCY) return null;
    return freq;] *)
Definition range_test (freq : float) : option float :=
  if (freq <? MIN_FREQUENCY) || (MAX_FREQUENCY <? freq) then None
  else Some freq.

(** The parabolic refinement: [2 * y2 - y1 - y3] is the denominator of
    the shift, up to the factor 2. *)
Definition denominator (y1 y2 y3 : float) : float := 2 * y2 - y1 - y3.

Definition interpolate (c : list float) (maxPos : Z) (sampleRate : float)
  : option float :=
  let y1 := num (get c (maxPos - 1)) in
  let y2 := num (get c maxPos) in
  let y3 := or_else (get c (maxPos + 1)) y2 in
  let shift := (y3 - y1) / (2 * denominator y1 y2 y3) in
  let peak := of_Z maxPos + shift in
  let freq := sampleRate / peak in
  range_test freq.

(** [null] is [None]. *)
Definition detectPitchAutoCorr (buf : list float) (sampleRate : float)
  : option float :=
  if rms buf <? MIN_RMS then None
  else
    let c := autocorr buf in
    let d := skip_descent c 0 in
    let maxPos := snd (find_max c d) in
    if (maxPos <=? 0)%Z then None
    else interpolate c maxPos sampleRate.

(** Frames to run the estimator on. In the first two the samples are
    2^64 and the lag sums overflow binary32. *)
Definition loud_frame : list float :=
  [18446744073709551616; 0; 18446744073709551616].


(** A frame with a period of four samples, and the same at amplitude
    0.005. *)
Definition square_frame : list float :=
  [1; 0; -1; 0; 1; 0; -1; 0; 1; 0; -1; 0; 1; 0; -1; 0].

Definition faint_frame : list float := map (fun x => 0.005 * x) square_frame.

End Estimator.

(** ** The smoothing done by [loop] *)

Module Smoother.

Import JSFloat Estimator.
Open Scope float_scope.

Definition smoothAlpha : float := 0.2.

(** The value [smoothedFreq] holds before the first estimate. *)
Definition initial : float := 0.

(** One tick's effect on [smoothedFreq], given the estimator's answer:
    [if (!freq) { ...; return; }] leaves it alone, otherwise
    [smoothedFreq = smoothedFreq
       ? (smoothAlpha * freq + (1 - smoothAlpha) * smoothedFreq) : freq]. *)
Definition smooth (smoothedFreq : float) (freq : option float) : float :=
  match freq with
  | None => smoothedFreq
  | Some f =>
      if falsy f then smoothedFreq
      else if truthy smoothedFreq
           then smoothAlpha * f + (1 - smoothAlpha) * smoothedFreq
           else f
  end.

(** One tick of [loop] on the frame the analyser delivered. *)
Definition loop (smoothedFreq : float) (sampleBuffer : list float)
  (sampleRate : float) : float :=
  smooth smoothedFreq (detectPitchAutoCorr sampleBuffer sampleRate).

(** [smoothedFreq] after a run of ticks. *)
Definition run (estimates : list (option float)) : float :=
  fold_left smooth estimates initial.

(** The smoother as the specification words it: the state is undefined
    until the first estimate, which it takes as is; later estimates are
    blended in with weight 0.2; [None] changes nothing. *)
Definition spec_step (state : option float) (estimate : option float)
  : option float :=
  match estimate, state with
  | None, _ => state
  | Some f, None => Some f
  | Some f, Some s => Some (0.2 * f + 0.8 * s)
  end.

Definition spec_run (estimates : list (option float)) : option float :=
  fold_left spec_step estimates None.

(** What the orchestrator reads off the specified state: 0 while it is
    undefined. *)
Definition exposed (state : option float) : float :=
  match state with Some s => s | None => 0 end.

(** An estimate the estimator may hand over: no pitch, or a frequency
    within the search range. *)
Definition in_range (estimate : option float) : bool :=
  match estimate with
  | None => true
  | Some f => (MIN_FREQUENCY <=? f) && (f <=? MAX_FREQUENCY)
  end.

(** [smoothedFreq] after [loop] ran on each of [frames] in turn. *)
Definition ticks (frames : list (list float)) (sampleRate : float) : float :=
  fold_left (fun s buf => loop s buf sampleRate) frames initial.

(** An estimate as a [PitchEstimate]: [NaN] is no frequency. *)
Definition clean (estimate : option float) : option float :=
  match estimate with
  | Some f => if PrimFloat.is_nan f then None else Some f
  | None => None
  end.

(** Whether some tick of the run so far delivered an estimate. *)
Definition heard (estimates : list (option float)) : bool :=
  existsb (fun e => match e with Some _ => true | None => false end) estimates.

End Smoother.

(** ** What [loop] hands to the display *)

Module Presentation.

Import JSFloat.
Open Scope float_scope.

(** [Math.min] and [Math.max] of two numbers: [NaN] if either is, and
    [-0] below [+0]. *)
Definition Math_min (a b : float) : float :=
  if PrimFloat.is_nan a || PrimFloat.is_nan b then nan
  else if a <? b then a
  else if b <? a then b
  else if get_sign a then a else b.

Definition Math_max (a b : float) : float :=
  if PrimFloat.is_nan a || PrimFloat.is_nan b then nan
  else if a <? b then b
  else if b <? a then a
  else if get_sign a then b else a.

(** [moveNeedle]: [clamped = Math.max(-50, Math.min(50, cents || 0))]
    and [deg = (clamped / 50) * 25]. *)
Definition clamped (cents : float) : float :=
  Math_max (-50) (Math_min 50 (or_else (Some cents) 0)).

Definition needle_degrees (cents : float) : float := clamped cents / 50 * 25.

Definition HISTORY_MAX : nat := 800.

(** [pushHistory]: [history.push(freq); if (history.length >
    HISTORY_MAX) history.shift();], the array passed along. *)
Definition pushHistory {A : Type} (history : list A) (freq : A) : list A :=
  let pushed := history ++ [freq] in
  if (HISTORY_MAX <? length pushed)%nat then tl pushed else pushed.

End Presentation.

(** ** The names of the notes *)

Module NoteMath.

Definition NOTE_NAMES : list string :=
  ["Do"; "Do♯/Re♭"; "Re"; "Re♯/Mi♭"; "Mi"; "Fa"; "Fa♯/Sol♭"; "Sol";
   "Sol♯/La♭"; "La"; "La♯/Si♭"; "Si"]%string.

(** [a[i]] for an integer [i]: [None] stands for [undefined], which is
    what a negative index or one past the end reads. *)
Definition element (a : list string) (i : Z) : option string :=
  if (i <? 0)%Z then None else nth_error a (Z.to_nat i).

(** A value inside a template literal. *)
Definition to_string (v : option string) : string :=
  match v with Some s => s | None => "undefined"%string end.

Definition string_of_Z (z : Z) : string := NilZero.string_of_int (Z.to_int z).

End NoteMath.

(** ** The note arithmetic on doubles

    [Math.log2] and [Math.pow] as ECMAScript fixes them: the result at
    the special arguments, and [None] wherever the standard leaves the
    value to the implementation. What is proved of a [Some] holds in
    every engine. *)

Module NoteMathDouble.

Import JSFloat.
Open Scope float_scope.

Definition Math_log2 (x : float) : option float :=
  if PrimFloat.is_nan x then Some nan
  else if x <? 0 then Some nan
  else if PrimFloat.is_zero x then Some neg_infinity
  else if x =? infinity then Some infinity
  else if x =? 1 then Some 0
  else None.

(** [Math.pow(2, y)]. *)
Definition Math_pow2 (y : float) : option float :=
  if PrimFloat.is_nan y then Some nan
  else if PrimFloat.is_zero y then Some 1
  else if y =? infinity then Some infinity
  else if y =? neg_infinity then Some 0
  else None.

(** [Math.round], which is exact: the integer nearest to [x], a tie
    going up; the zero it gives for [-0.5 <= x < 0] is [-0]. *)
Definition Math_round (x : float) : float :=
  match Prim2SF x with
  | S754_finite s m e =>
      if (0 <=? e)%Z then x
      else
        let k := (- e)%Z in
        let n := if s then Z.neg m else Z.pos m in
        let z := Z.shiftr (n + 2 ^ (k - 1)) k in
        if (z =? 0)%Z then (if s then neg_zero else 0) else of_Z z
  | _ => x
  end.

Definition A4 : float := 440.

Definition freqToMidi (freq : float) : option float :=
  option_map (fun l => Math_round (12 * l + 69)) (Math_log2 (freq / A4)).

Definition midiToFreq (midi : float) : option float :=
  option_map (fun p => A4 * p) (Math_pow2 ((midi - 69) / 12)).

Definition centsOff (freq target : float) : option float :=
  option_map (fun l => Math_round (1200 * l)) (Math_log2 (freq / target)).

(** The [cents] one tick of [loop] derives from [smoothedFreq]. *)
Definition display_cents (smoothedFreq : float) : option float :=
  match freqToMidi smoothedFreq with
  | Some midi =>
      match midiToFreq midi with
      | Some targetFreq => centsOff smoothedFreq targetFreq
      | None => None
      end
  | None => None
  end.

End NoteMathDouble.

(** ** The real numbers binary64 holds *)

Module RealValue.

Local Open Scope R_scope.

(** Two to the power [e]. *)
Definition p2 (e : Z) : R := powerRZ 2 e.

(** [N] is the integer nearest to [x], the even one on a tie. *)
Definition nearest_even (x : R) (N : Z) : Prop :=
  Rabs (IZR N - x) < / 2 \/ (Rabs (IZR N - x) = / 2 /\ Z.even N = true).

(** [X] lies in the binade below [2^k]. *)
Definition binade (X : R) (k : Z) : Prop := p2 (k - 1) <= Rabs X < p2 k.

(** The exponent of the grid a format of precision [prec] and least
    exponent [emin] lays over the binade below [2^k]. *)
Definition grid (prec emin k : Z) : Z := Z.max (k - prec) emin.

(** [Y] is [X] rounded to the nearest of the format, ties to even, the
    exponent unbounded above. *)
Definition rounds_to (prec emin : Z) (X Y : R) : Prop :=
  (X = 0 /\ Y = 0) \/
  exists k N,
    binade X k /\
    nearest_even (X / p2 (grid prec emin k)) N /\
    Y = IZR N * p2 (grid prec emin k).

(** A number the format holds, the exponent unbounded above. *)
Definition representable (prec emin : Z) (X : R) : Prop :=
  exists M E, X = IZR M * p2 E /\ (Z.abs M < 2 ^ prec)%Z /\ (emin <= E)%Z.

(** The real a [spec_float] stands for, 0 for an infinity or [NaN]. *)
Definition SF2R (x : spec_float) : R :=
  match x with
  | S754_finite s m e => IZR (cond_Zopp s (Z.pos m)) * p2 e
  | _ => 0
  end.

Definition value (x : float) : R := SF2R (Prim2SF x).

(** A zero or a finite number. *)
Definition sf_finite (x : spec_float) : bool :=
  match x with
  | S754_zero _ | S754_finite _ _ _ => true
  | _ => false
  end.

Definition finite (x : float) : bool := sf_finite (Prim2SF x).

(** Where a real [x] lies against the record of a shifted mantissa:
    at [m], below, at or above [m + 1/2]. *)
Definition lies (x : R) (mrs : shr_record) : Prop :=
  match shr_r mrs, shr_s mrs with
  | false, false => x = IZR (shr_m mrs)
  | false, true => IZR (shr_m mrs) < x < IZR (shr_m mrs) + / 2
  | true, false => x = IZR (shr_m mrs) + / 2
  | true, true => IZR (shr_m mrs) + / 2 < x < IZR (shr_m mrs) + 1
  end.

(** A number of sign [s] and magnitude [Y], a zero included. *)
Definition magnitude (s : bool) (Y : R) (z : spec_float) : Prop :=
  match z with
  | S754_zero s' => s' = s /\ Y = 0
  | S754_finite s' m e => s' = s /\ Y = IZR (Z.pos m) * p2 e
  | _ => False
  end.

(** A mantissa and an exponent within the format. *)
Definition within (prec emax : Z) (z : spec_float) : Prop :=
  match z with
  | S754_finite _ m e =>
      (Z.pos m < 2 ^ prec)%Z /\
      (SpecFloat.emin prec emax <= e <= emax - prec)%Z
  | _ => True
  end.

Definition signR (s : bool) (Y : R) : R := if s then - Y else Y.

(** [z] is what the exact result [X] becomes in the format: [X] rounded
    to nearest, or an infinity when the rounded magnitude reaches
    [2^emax]. *)
Definition rounded (prec emax : Z) (X : R) (z : spec_float) : Prop :=
  exists Y, rounds_to prec (SpecFloat.emin prec emax) X Y /\
    ((Rabs Y < p2 emax /\ sf_finite z = true /\ SF2R z = Y) \/
     (p2 emax <= Y /\ z = S754_infinity false) \/
     (Y <= - p2 emax /\ z = S754_infinity true)).

End RealValue.

(** ** The note arithmetic in a JavaScript engine

    ECMAScript fixes [Math.log2] and [Math.pow] at the special arguments
    and leaves their results elsewhere to the implementation. An engine
    is the pair of its two functions; what the code computes with them
    is a function of the engine. *)

Module NoteEngine.

Import JSFloat RealValue.
Open Scope float_scope.

Record engine : Type := {
  Math_log2 : float -> float;
  Math_pow : float -> float -> float
}.

Definition A4 : float := 440.

Definition freqToMidi (E : engine) (freq : float) : float :=
  NoteMathDouble.Math_round (12 * Math_log2 E (freq / A4) + 69).

Definition midiToFreq (E : engine) (midi : float) : float :=
  A4 * Math_pow E 2 ((midi - 69) / 12).

Definition centsOff (E : engine) (freq target : float) : float :=
  NoteMathDouble.Math_round (1200 * Math_log2 E (freq / target)).

(** The [cents] one tick of [loop] derives from [smoothedFreq]. *)
Definition display_cents (E : engine) (smoothedFreq : float) : float :=
  let midi := freqToMidi E smoothedFreq in
  let targetFreq := midiToFreq E midi in
  centsOff E smoothedFreq targetFreq.

(** The engine answers as ECMAScript requires wherever it requires
    something. *)
Definition conforms (E : engine) : Prop :=
  (forall x v, NoteMathDouble.Math_log2 x = Some v -> Math_log2 E x = v) /\
  (forall y v, NoteMathDouble.Math_pow2 y = Some v -> Math_pow E 2 y = v).

(** The engine's [Math.log2] at [x] is a number within [2^-20] of the
    logarithm, and its [Math.pow(2, y)] a number within [2^-20] of the
    power, relatively. Engines in use are accurate to [2^-52] or so. *)
Definition log2_accurate (E : engine) (x : float) : Prop :=
  finite (Math_log2 E x) = true /\
  (Rabs (value (Math_log2 E x) - ln (value x) / ln 2) <= p2 (-20))%R.

Definition pow_accurate (E : engine) (y : float) : Prop :=
  finite (Math_pow E 2 y) = true /\
  (Rabs (value (Math_pow E 2 y) - Rpower 2 (value y))
   <= p2 (-20) * Rpower 2 (value y))%R.

(** An engine that answers at the arguments ECMAScript fixes, and [NaN]
    everywhere else. *)
Definition pinned : engine := {|
  Math_log2 := fun x =>
    match NoteMathDouble.Math_log2 x with Some v => v | None => nan end;
  Math_pow := fun b y =>
    if b =? 2 then
      match NoteMathDouble.Math_pow2 y with Some v => v | None => nan end
    else nan
|}.

End NoteEngine.

(** ** The name of a note, [midiToNoteName]

    [midi] is a number: [%], the property lookup, [Math.floor], the
    division and the template literal are the ones of JavaScript
    numbers. *)

Module NoteName.

Import JSFloat.
Open Scope float_scope.

(** The integer a number is, when it is one; [-0] is 0. *)
Definition to_integer (x : float) : option Z :=
  match Prim2SF x with
  | S754_zero _ => Some 0%Z
  | S754_finite s m e =>
      if (0 <=? e)%Z then Some (cond_Zopp s (Z.pos m * 2 ^ e))
      else if (Z.pos m mod 2 ^ (- e) =? 0)%Z
           then Some (cond_Zopp s (Z.pos m / 2 ^ (- e)))
           else None
  | _ => None
  end.

(** [n % d]: the exact remainder of the truncated division, with the
    sign of [n]. *)
Definition Number_remainder (n d : float) : float :=
  match Prim2SF n, Prim2SF d with
  | S754_nan, _ | _, S754_nan => nan
  | S754_infinity _, _ => nan
  | _, S754_zero _ => nan
  | _, S754_infinity _ => n
  | S754_zero _, _ => n
  | S754_finite sn mn en, S754_finite _ md ed =>
      let e := Z.min en ed in
      let N := (Z.pos mn * 2 ^ (en - e))%Z in
      let D := (Z.pos md * 2 ^ (ed - e))%Z in
      match (N mod D)%Z with
      | Z.pos r => SF2Prim (S754_finite sn r e)
      | _ => if sn then neg_zero else 0
      end
  end.

(** [a[v]] for a number [v]: the key is an array index when [v] is an
    integer from 0 on, and names no property of the array otherwise. *)
Definition element_at (a : list string) (v : float) : option string :=
  match to_integer v with
  | Some i => NoteMath.element a i
  | None => None
  end.

Definition Math_floor (x : float) : float :=
  match Prim2SF x with
  | S754_finite s m e =>
      if (0 <=? e)%Z then x
      else
        let z := Z.shiftr (cond_Zopp s (Z.pos m)) (- e) in
        if (z =? 0)%Z then 0 else of_Z z
  | _ => x
  end.

(** A number inside a template literal, where its digits are those of
    an integer of magnitude up to [2^53]; [None] stands for the strings
    of the general algorithm, which is not modelled. *)
Definition Number_toString (x : float) : option string :=
  match Prim2SF x with
  | S754_nan => Some "NaN"%string
  | S754_infinity false => Some "Infinity"%string
  | S754_infinity true => Some "-Infinity"%string
  | _ =>
      match to_integer x with
      | Some z =>
          if (Z.abs z <=? 2 ^ 53)%Z then Some (NoteMath.string_of_Z z)
          else None
      | None => None
      end
  end.

Definition midiToNoteName (midi : float) : option string :=
  let name := element_at NoteMath.NOTE_NAMES (Number_remainder midi 12) in
  let octave := Math_floor (midi / 12) - 1 in
  option_map (fun o => (NoteMath.to_string name ++ o)%string)
    (Number_toString octave).

End NoteName.

(** ** The refinement of the peak, step by step *)

Module Refinement.

Import JSFloat Estimator RealValue.
Open Scope float_scope.

(** [y1], [y2] and [y3] as [detectPitchAutoCorr] reads them at
    [maxPos]. *)
Definition y1_at (c : list float) (maxPos : Z) : float :=
  num (get c (maxPos - 1)).

Definition y2_at (c : list float) (maxPos : Z) : float :=
  num (get c maxPos).

Definition y3_at (c : list float) (maxPos : Z) : float :=
  or_else (get c (maxPos + 1)) (y2_at c maxPos).

Definition shift_of (y1 y2 y3 : float) : float :=
  (y3 - y1) / (2 * denominator y1 y2 y3).

(** The lag the search selects on the frame [buf]. *)
Definition selected (buf : list float) : Z :=
  snd (find_max (autocorr buf) (skip_descent (autocorr buf) 0)).

(** A number that is [NaN] or infinite, or else is at least [b]. *)
Definition at_least (b : R) (x : float) : Prop :=
  finite x = false \/ (b <= value x)%R.

End Refinement.

(** ** The RMS amplitude of a frame, exactly *)

Module ExactRMS.

Import JSFloat Estimator RealValue.

(** The sum of the squares of the samples and the root of their mean,
    over the reals. *)
Definition exact_sum_squares (buf : list float) : R :=
  fold_right (fun x acc => value x * value x + acc)%R 0%R buf.

Definition exact_rms (buf : list float) : R :=
  R_sqrt.sqrt (exact_sum_squares buf / INR (length buf)).

(** A frame of binary32 samples with a period of four, at the edge of
    the gate. *)
Definition boundary_frame : list float :=
  let a := 0x1.cf68b6p-7%float in
  let b := 0x1.df6d08p-16%float in
  let c := 0x1.30eda8p-27%float in
  [a; b; - a; c; a; b; - a; c; a; b; - a; c; a; b; - a; c]%float.

End ExactRMS.

(** ** The estimates [loop] is handed *)

Module SmootherInput.
Import JSFloat Estimator Smoother.
Open Scope float_scope.

(** Whether an estimate is a number: neither [null] nor [NaN]. *)
Definition is_number (estimate : option float) : bool :=
  match clean estimate with Some _ => true | None => false end.

(** The estimates [loop] gets on [frames], in turn. *)
Definition estimates_of (frames : list (list float)) (sampleRate : float)
  : list (option float) :=
  map (fun buf => detectPitchAutoCorr buf sampleRate) frames.

End SmootherInput.

(** ** One tick of [loop], history included *)

Module Tick.

Import JSFloat Estimator Smoother Presentation.
Open Scope float_scope.

(** What a tick pushes to the history: [null] when [!freq], and
    otherwise [smoothedFreq] as the tick has just set it. *)
Definition sample (smoothedFreq : float) (freq : option float)
  : option float :=
  match freq with
  | None => None
  | Some f => if falsy f then None else Some (smooth smoothedFreq freq)
  end.

(** [loop] on one frame, as it changes [smoothedFreq] and [history]. *)
Definition tick (sampleRate : float) (st : float * list (option float))
  (sampleBuffer : list float) : float * list (option float) :=
  let freq := detectPitchAutoCorr sampleBuffer sampleRate in
  (smooth (fst st) freq, pushHistory (snd st) (sample (fst st) freq)).

(** The two after [loop] ran on each of [frames], from the values the
    script starts with. *)
Definition session (frames : list (list float)) (sampleRate : float)
  : float * list (option float) :=
  fold_left (tick sampleRate) frames (initial, []).

(** A history sample that can be drawn: [null] or a number above 0. *)
Definition drawable (s : option float) : Prop :=
  match s with Some x => (0 <? x) = true | None => True end.

(** [smoothedFreq] is as the script set it, or above 0. *)
Definition settled (s : float) : Prop :=
  s = initial \/ sf_pos (Prim2SF s) = true.

End Tick.

(** ** The history graph *)

Module Canvas.

Import JSFloat Estimator Presentation.
Open Scope float_scope.

(** [mapFreq], which is handed a history sample: [null] is [None]. *)
Definition mapFreq (f : option float) : float :=
  match f with
  | None => 0
  | Some x =>
      if falsy x || (x <? MIN_FREQUENCY) then 0
      else
        let clamped := Math_min MAX_FREQUENCY (Math_max MIN_FREQUENCY x) in
        (clamped - MIN_FREQUENCY) / (MAX_FREQUENCY - MIN_FREQUENCY)
  end.

(** What [drawHistory] asks of the canvas context. *)
Inductive command : Type :=
  | ClearRect (width height : float)
  | StrokeStyle (colour : string)
  | LineWidth (width : float)
  | BeginPath
  | MoveTo (x y : float)
  | LineTo (x y : float)
  | Stroke.

(** The loop over [history], from index [i] on, [first] as it stands. *)
Fixpoint curve_from (i : Z) (first : bool) (history : list (option float))
  (width height : float) : list command :=
  match history with
  | [] => []
  | f :: rest =>
      let x := of_Z i / of_Z (Z.of_nat HISTORY_MAX) * width in
      let y := (1 - mapFreq f) * height in
      match f with
      | None => curve_from (i + 1) first rest width height
      | Some _ =>
          (if first then MoveTo x y else LineTo x y)
          :: curve_from (i + 1) false rest width height
      end
  end.

Definition curve (history : list (option float)) (width height : float)
  : list command :=
  curve_from 0 true history width height.

Definition drawHistory (history : list (option float))
  (width height : float) : list command :=
  [ClearRect width height; StrokeStyle "#6cf3ff"; LineWidth 2; BeginPath]
  ++ curve history width height
  ++ [Stroke; StrokeStyle "#2a2f4a"; BeginPath; MoveTo 0 (height / 2);
      LineTo width (height / 2); Stroke].

Definition is_move (c : command) : bool :=
  match c with MoveTo _ _ => true | _ => false end.

Definition is_line (c : command) : bool :=
  match c with LineTo _ _ => true | _ => false end.

Definition is_sample (s : option float) : bool :=
  match s with Some _ => true | None => false end.

End Canvas.

(** ** The piano *)

Module Piano.

Import NoteMath.
Open Scope string_scope.

(** [s.includes(sub)]. *)
Fixpoint includes (s sub : string) : bool :=
  prefix sub s
  || match s with
     | EmptyString => false
     | String _ rest => includes rest sub
     end.

(** An element under [pianoEl]: its class list and its [data-midi]
    attribute, [None] when it has none. [pianoEl] is the list of the
    elements under it, in document order. *)
Record dom_element : Type := {
  classList : list string;
  data_midi : option string
}.

Definition has_class (c : string) (k : dom_element) : bool :=
  existsb (String.eqb c) (classList k).

(** [k.classList.remove(c)] and [k.classList.add(c)]. *)
Definition remove_class (c : string) (k : dom_element) : dom_element :=
  {| classList := filter (fun x => negb (String.eqb c x)) (classList k);
     data_midi := data_midi k |}.

Definition add_class (c : string) (k : dom_element) : dom_element :=
  if has_class c k then k
  else {| classList := classList k ++ [c]; data_midi := data_midi k |}.

Definition startMidi : Z := 48.
Definition endMidi : Z := 84.

(** One turn of the loop of [buildPiano]: [None] when [name] is
    [undefined], on which [name.includes] throws. *)
Definition make_key (m : Z) : option dom_element :=
  match element NOTE_NAMES (Z.rem m 12) with
  | None => None
  | Some name =>
      let isBlack := includes name "♯" in
      Some {| classList := ["key"; if isBlack then "black" else "white"];
              data_midi := Some (string_of_Z m) |}
  end.

(** [for (let m = ...; m <= endMidi; m++)], [steps] turns of it. *)
Fixpoint build_from (m : Z) (steps : nat) (pianoEl : list dom_element)
  : option (list dom_element) :=
  match steps with
  | O => Some pianoEl
  | S steps' =>
      match make_key m with
      | None => None
      | Some key => build_from (m + 1) steps' (pianoEl ++ [key])
      end
  end.

Definition buildPiano (pianoEl : list dom_element)
  : option (list dom_element) :=
  build_from startMidi (Z.to_nat (endMidi - startMidi + 1)) pianoEl.

(** The selector [.key[data-midi="midi"]]. *)
Definition matches_midi (midi : string) (k : dom_element) : bool :=
  has_class "key" k
  && match data_midi k with
     | Some v => String.eqb v midi
     | None => false
     end.

(** [querySelector(sel)] followed by [classList.add(c)] on what it
    finds, the first match in document order. *)
Fixpoint add_to_first (sel : dom_element -> bool) (c : string)
  (els : list dom_element) : list dom_element :=
  match els with
  | [] => []
  | k :: rest =>
      if sel k then add_class c k :: rest
      else k :: add_to_first sel c rest
  end.

(** [highlightPiano]: [midi] is [null] ([None]) or an integer. *)
Definition highlightPiano (midi : option Z) (pianoEl : list dom_element)
  : list dom_element :=
  let cleared :=
    map (fun k => if has_class "key" k then remove_class "active" k else k)
      pianoEl in
  match midi with
  | None => cleared
  | Some m => add_to_first (matches_midi (string_of_Z m)) "active" cleared
  end.

(** The notes of the keys that are lit. *)
Definition lit (pianoEl : list dom_element) : list (option string) :=
  map data_midi (filter (has_class "active") pianoEl).

(** A key that is not lit. *)
Definition plain (k : dom_element) : bool :=
  has_class "key" k && negb (has_class "active" k).

(** The integers [a], [a + 1], ..., [n] of them. *)
Fixpoint range (a : Z) (n : nat) : list Z :=
  match n with
  | O => []
  | S n' => a :: range (a + 1) n'
  end.

End Piano.

(** ** The controls: devices, the audio graph, start and stop, and the
    reference tone

    The script's variables and the parts of the page it writes make up
    a [page]. Objects of the Web Audio API are told apart by a number
    given at their creation, and what the script asks of them is kept,
    in order, in [calls]. A call of the API is taken to return; the one
    that can fail is [getUserMedia], whose answer comes as an [action]
    of its own, since [start] waits for it. *)

Module Controls.

Import JSFloat Estimator Smoother Presentation NoteMath Tick.
Open Scope string_scope.

Record device : Type := {
  kind : string;
  deviceId : string;
  label : string
}.

Record option_element : Type := {
  value : string;
  textContent : string
}.

(** [errorBox]: its text, and whether it has the class [hidden]. *)
Record error_box : Type := {
  error_text : string;
  error_hidden : bool
}.

Inductive call : Type :=
  | NewAudioContext
  | Create (what : string) (node : nat)
  | SetNumber (node : nat) (property : string) (x : float)
  | SetType (node : nat) (type : string)
  | Connect (node to : nat)
  | ConnectDestination (node : nat)
  | Disconnect (node : nat)
  | OscillatorStart (node : nat)
  | OscillatorStop (node : nat)
  | GetUserMedia (exact : option string)
  | TracksStop (stream : nat)
  | RequestAnimationFrame (id : nat)
  | CancelAnimationFrame (id : nat).

(** [audioContext] is [true] once the context is made; a variable that
    holds an object or [null] is an [option]. [created] counts the
    objects made so far. *)
Record page : Type := {
  audioContext : bool;
  analyser : option nat;
  sourceNode : option nat;
  hpFilter : option nat;
  lpFilter : option nat;
  compressor : option nat;
  refOsc : option nat;
  mediaStream : option nat;
  devices : list device;
  running : bool;
  animationId : option nat;
  smoothedFreq : float;
  history : list (option float);
  micSelect : list option_element;
  errorBox : error_box;
  audioActive : bool;
  created : nat;
  calls : list call
}.

(** The page as the script finds it and sets its variables. *)
Definition loaded (micSelect : list option_element) (errorBox : error_box)
  (audioActive : bool) : page :=
  {| audioContext := false; analyser := None; sourceNode := None;
     hpFilter := None; lpFilter := None; compressor := None;
     refOsc := None; mediaStream := None; devices := []; running := false;
     animationId := None; smoothedFreq := initial; history := [];
     micSelect := micSelect; errorBox := errorBox;
     audioActive := audioActive; created := 0; calls := [] |}.

(** Assignments. *)
Definition set_audioContext (v : bool) (p : page) : page :=
  {| audioContext := v; analyser := analyser p; sourceNode := sourceNode p;
     hpFilter := hpFilter p; lpFilter := lpFilter p;
     compressor := compressor p; refOsc := refOsc p;
     mediaStream := mediaStream p; devices := devices p;
     running := running p; animationId := animationId p;
     smoothedFreq := smoothedFreq p; history := history p;
     micSelect := micSelect p; errorBox := errorBox p;
     audioActive := audioActive p; created := created p; calls := calls p |}.

Definition set_analyser (v : option nat) (p : page) : page :=
  {| audioContext := audioContext p; analyser := v;
     sourceNode := sourceNode p;
     hpFilter := hpFilter p; lpFilter := lpFilter p;
     compressor := compressor p; refOsc := refOsc p;
     mediaStream := mediaStream p; devices := devices p;
     running := running p; animationId := animationId p;
     smoothedFreq := smoothedFreq p; history := history p;
     micSelect := micSelect p; errorBox := errorBox p;
     audioActive := audioActive p; created := created p; calls := calls p |}.

Definition set_sourceNode (v : option nat) (p : page) : page :=
  {| audioContext := audioContext p; analyser := analyser p;
     sourceNode := v;
     hpFilter := hpFilter p; lpFilter := lpFilter p;
     compressor := compressor p; refOsc := refOsc p;
     mediaStream := mediaStream p; devices := devices p;
     running := running p; animationId := animationId p;
     smoothedFreq := smoothedFreq p; history := history p;
     micSelect := micSelect p; errorBox := errorBox p;
     audioActive := audioActive p; created := created p; calls := calls p |}.

Definition set_hpFilter (v : option nat) (p : page) : page :=
  {| audioContext := audioContext p; analyser := analyser p;
     sourceNode := sourceNode p;
     hpFilter := v; lpFilter := lpFilter p;
     compressor := compressor p; refOsc := refOsc p;
     mediaStream := mediaStream p; devices := devices p;
     running := running p; animationId := animationId p;
     smoothedFreq := smoothedFreq p; history := history p;
     micSelect := micSelect p; errorBox := errorBox p;
     audioActive := audioActive p; created := created p; calls := calls p |}.

Definition set_lpFilter (v : option nat) (p : page) : page :=
  {| audioContext := audioContext p; analyser := analyser p;
     sourceNode := sourceNode p;
     hpFilter := hpFilter p; lpFilter := v;
     compressor := compressor p; refOsc := refOsc p;
     mediaStream := mediaStream p; devices := devices p;
     running := running p; animationId := animationId p;
     smoothedFreq := smoothedFreq p; history := history p;
     micSelect := micSelect p; errorBox := errorBox p;
     audioActive := audioActive p; created := created p; calls := calls p |}.

Definition set_compressor (v : option nat) (p : page) : page :=
  {| audioContext := audioContext p; analyser := analyser p;
     sourceNode := sourceNode p;
     hpFilter := hpFilter p; lpFilter := lpFilter p;
     compressor := v; refOsc := refOsc p;
     mediaStream := mediaStream p; devices := devices p;
     running := running p; animationId := animationId p;
     smoothedFreq := smoothedFreq p; history := history p;
     micSelect := micSelect p; errorBox := errorBox p;
     audioActive := audioActive p; created := created p; calls := calls p |}.

Definition set_refOsc (v : option nat) (p : page) : page :=
  {| audioContext := audioContext p; analyser := analyser p;
     sourceNode := sourceNode p;
     hpFilter := hpFilter p; lpFilter := lpFilter p;
     compressor := compressor p; refOsc := v;
     mediaStream := mediaStream p; devices := devices p;
     running := running p; animationId := animationId p;
     smoothedFreq := smoothedFreq p; history := history p;
     micSelect := micSelect p; errorBox := errorBox p;
     audioActive := audioActive p; created := created p; calls := calls p |}.

Definition set_mediaStream (v : option nat) (p : page) : page :=
  {| audioContext := audioContext p; analyser := analyser p;
     sourceNode := sourceNode p;
     hpFilter := hpFilter p; lpFilter := lpFilter p;
     compressor := compressor p; refOsc := refOsc p;
     mediaStream := v; devices := devices p;
     running := running p; animationId := animationId p;
     smoothedFreq := smoothedFreq p; history := history p;
     micSelect := micSelect p; errorBox := errorBox p;
     audioActive := audioActive p; created := created p; calls := calls p |}.

Definition set_devices (v : list device) (p : page) : page :=
  {| audioContext := audioContext p; analyser := analyser p;
     sourceNode := sourceNode p;
     hpFilter := hpFilter p; lpFilter := lpFilter p;
     compressor := compressor p; refOsc := refOsc p;
     mediaStream := mediaStream p; devices := v;
     running := running p; animationId := animationId p;
     smoothedFreq := smoothedFreq p; history := history p;
     micSelect := micSelect p; errorBox := errorBox p;
     audioActive := audioActive p; created := created p; calls := calls p |}.

Definition set_running (v : bool) (p : page) : page :=
  {| audioContext := audioContext p; analyser := analyser p;
     sourceNode := sourceNode p;
     hpFilter := hpFilter p; lpFilter := lpFilter p;
     compressor := compressor p; refOsc := refOsc p;
     mediaStream := mediaStream p; devices := devices p;
     running := v; animationId := animationId p;
     smoothedFreq := smoothedFreq p; history := history p;
     micSelect := micSelect p; errorBox := errorBox p;
     audioActive := audioActive p; created := created p; calls := calls p |}.

Definition set_animationId (v : option nat) (p : page) : page :=
  {| audioContext := audioContext p; analyser := analyser p;
     sourceNode := sourceNode p;
     hpFilter := hpFilter p; lpFilter := lpFilter p;
     compressor := compressor p; refOsc := refOsc p;
     mediaStream := mediaStream p; devices := devices p;
     running := running p; animationId := v;
     smoothedFreq := smoothedFreq p; history := history p;
     micSelect := micSelect p; errorBox := errorBox p;
     audioActive := audioActive p; created := created p; calls := calls p |}.

Definition set_pitch (v : float * list (option float)) (p : page) : page :=
  {| audioContext := audioContext p; analyser := analyser p;
     sourceNode := sourceNode p;
     hpFilter := hpFilter p; lpFilter := lpFilter p;
     compressor := compressor p; refOsc := refOsc p;
     mediaStream := mediaStream p; devices := devices p;
     running := running p; animationId := animationId p;
     smoothedFreq := fst v; history := snd v;
     micSelect := micSelect p; errorBox := errorBox p;
     audioActive := audioActive p; created := created p; calls := calls p |}.

Definition set_micSelect (v : list option_element) (p : page) : page :=
  {| audioContext := audioContext p; analyser := analyser p;
     sourceNode := sourceNode p;
     hpFilter := hpFilter p; lpFilter := lpFilter p;
     compressor := compressor p; refOsc := refOsc p;
     mediaStream := mediaStream p; devices := devices p;
     running := running p; animationId := animationId p;
     smoothedFreq := smoothedFreq p; history := history p;
     micSelect := v; errorBox := errorBox p;
     audioActive := audioActive p; created := created p; calls := calls p |}.

Definition set_errorBox (v : error_box) (p : page) : page :=
  {| audioContext := audioContext p; analyser := analyser p;
     sourceNode := sourceNode p;
     hpFilter := hpFilter p; lpFilter := lpFilter p;
     compressor := compressor p; refOsc := refOsc p;
     mediaStream := mediaStream p; devices := devices p;
     running := running p; animationId := animationId p;
     smoothedFreq := smoothedFreq p; history := history p;
     micSelect := micSelect p; errorBox := v;
     audioActive := audioActive p; created := created p; calls := calls p |}.

Definition set_created (v : nat) (p : page) : page :=
  {| audioContext := audioContext p; analyser := analyser p;
     sourceNode := sourceNode p;
     hpFilter := hpFilter p; lpFilter := lpFilter p;
     compressor := compressor p; refOsc := refOsc p;
     mediaStream := mediaStream p; devices := devices p;
     running := running p; animationId := animationId p;
     smoothedFreq := smoothedFreq p; history := history p;
     micSelect := micSelect p; errorBox := errorBox p;
     audioActive := audioActive p; created := v; calls := calls p |}.

Definition set_calls (v : list call) (p : page) : page :=
  {| audioContext := audioContext p; analyser := analyser p;
     sourceNode := sourceNode p;
     hpFilter := hpFilter p; lpFilter := lpFilter p;
     compressor := compressor p; refOsc := refOsc p;
     mediaStream := mediaStream p; devices := devices p;
     running := running p; animationId := animationId p;
     smoothedFreq := smoothedFreq p; history := history p;
     micSelect := micSelect p; errorBox := errorBox p;
     audioActive := audioActive p; created := created p; calls := v |}.

(** One call of the API, and the making of an object, which is given
    the next number. *)
Definition ask (c : call) (p : page) : page := set_calls (calls p ++ [c]) p.

Definition make (what : string) (p : page) : nat * page :=
  (created p, ask (Create what (created p)) (set_created (S (created p)) p)).

(** [setError]: [msg] is a string, for which [msg || ''] is [msg] and
    [!msg] holds of the empty one. *)
Definition setError (msg : string) (p : page) : page :=
  set_errorBox {| error_text := msg; error_hidden := String.eqb msg "" |} p.

(** [setAudioActive(active)] is [set_audioActive active]. *)
Definition setAudioActive (active : bool) (p : page) : page :=
  {| audioContext := audioContext p; analyser := analyser p;
     sourceNode := sourceNode p;
     hpFilter := hpFilter p; lpFilter := lpFilter p;
     compressor := compressor p; refOsc := refOsc p;
     mediaStream := mediaStream p; devices := devices p;
     running := running p; animationId := animationId p;
     smoothedFreq := smoothedFreq p; history := history p;
     micSelect := micSelect p; errorBox := errorBox p;
     audioActive := active; created := created p; calls := calls p |}.

(** [getDevices], from the answer of [enumerateDevices] on. *)
Definition is_audioinput (d : device) : bool :=
  String.eqb (kind d) "audioinput".

(** [d.label || `Microphone ${i + 1}`]. *)
Definition option_text (d : device) (i : Z) : string :=
  if String.eqb (label d) "" then "Microphone " ++ string_of_Z (i + 1)
  else label d.

(** [devices.forEach((d, i) => ...)], from index [i] on. *)
Fixpoint options_from (i : Z) (ds : list device) : list option_element :=
  match ds with
  | [] => []
  | d :: rest =>
      {| value := deviceId d; textContent := option_text d i |}
      :: options_from (i + 1) rest
  end.

Definition getDevices (list : list device) (p : page) : page :=
  let p := set_devices (filter is_audioinput list) p in
  let p := set_micSelect [] p in
  let p := set_micSelect (micSelect p ++ options_from 0 (devices p)) p in
  if (length (devices p) =? 0)%nat
  then setError "No audio input devices found." p
  else p.

(** A function that may throw: the page as it returned or threw. *)
Inductive outcome : Type :=
  | Returned (p : page)
  | Threw (p : page).

Definition page_of (o : outcome) : page :=
  match o with
  | Returned p | Threw p => p
  end.

(** [buildGraph]: with no [sourceNode], the call on it throws. *)
Definition buildGraph (p : page) : outcome :=
  let '(a, p) := make "Analyser" p in
  let p := set_analyser (Some a) p in
  let p := ask (SetNumber a "fftSize" 4096) p in
  let p := ask (SetNumber a "smoothingTimeConstant" 0) p in
  let '(hp, p) := make "BiquadFilter" p in
  let p := set_hpFilter (Some hp) p in
  let p := ask (SetType hp "highpass") p in
  let p := ask (SetNumber hp "frequency" (MIN_FREQUENCY - 10)%float) p in
  let '(lp, p) := make "BiquadFilter" p in
  let p := set_lpFilter (Some lp) p in
  let p := ask (SetType lp "lowpass") p in
  let p := ask (SetNumber lp "frequency" (MAX_FREQUENCY + 200)%float) p in
  let '(c, p) := make "DynamicsCompressor" p in
  let p := set_compressor (Some c) p in
  let p := ask (SetNumber c "threshold" (-30)%float) p in
  let p := ask (SetNumber c "knee" 20%float) p in
  let p := ask (SetNumber c "ratio" 3%float) p in
  let p := ask (SetNumber c "attack" 0.003%float) p in
  let p := ask (SetNumber c "release" 0.25%float) p in
  match sourceNode p with
  | None => Threw p
  | Some s =>
      let p := ask (Connect s hp) p in
      let p := ask (Connect hp lp) p in
      let p := ask (Connect lp c) p in
      Returned (ask (Connect c a) p)
  end.

(** [if (x) x.call()] for a variable [x] that holds an object. *)
Definition when (x : option nat) (c : nat -> call) (p : page) : page :=
  match x with
  | Some v => ask (c v) p
  | None => p
  end.

(** [animationId] holds a number, which counts as false when it is 0. *)
Definition pending (animationId : option nat) : option nat :=
  match animationId with
  | Some id => if (id =? 0)%nat then None else Some id
  | None => None
  end.

Definition destroyStream (p : page) : page :=
  let p := when (pending (animationId p)) CancelAnimationFrame p in
  let p := set_animationId None p in
  let p := match mediaStream p with
           | Some m => set_mediaStream None (ask (TracksStop m) p)
           | None => p
           end in
  let p := when (sourceNode p) Disconnect p in
  let p := when (hpFilter p) Disconnect p in
  let p := when (lpFilter p) Disconnect p in
  let p := when (compressor p) Disconnect p in
  let p := set_analyser None p in
  let p := set_compressor None p in
  let p := set_lpFilter None p in
  let p := set_hpFilter None p in
  let p := set_sourceNode None p in
  setAudioActive false p.

(** [loop], called with what the analyser hands over. The display of
    the note apart, it changes [smoothedFreq] and [history] as [tick]
    says; with no analyser the call on it throws, after the next frame
    was asked for. The frame is given the next number after 0. *)
Definition loop (sampleRate : float) (sampleBuffer : list float) (p : page)
  : outcome :=
  let '(id, p) := (S (created p), set_created (S (S (created p))) p) in
  let p := set_animationId (Some id) (ask (RequestAnimationFrame id) p) in
  match analyser p with
  | None => Threw p
  | Some _ =>
      Returned
        (set_pitch (tick sampleRate (smoothedFreq p, history p) sampleBuffer)
           p)
  end.

(** [start], up to the [await]: [deviceId] is [undefined] ([None]) or
    a string. *)
Definition start_asks (deviceId : option string) (p : page) : page :=
  let p := setError "" p in
  let p := if audioContext p then p
           else set_audioContext true (ask NewAudioContext p) in
  let exact := match deviceId with
               | Some s => if String.eqb s "" then None else Some s
               | None => None
               end in
  ask (GetUserMedia exact) p.

(** [start] in its [catch]: [name] is [err.name], [None] when the
    error has none. *)
Definition start_refused (name : option string) (p : page) : page :=
  let shown := match name with
               | Some s => if String.eqb s "" then "Error" else s
               | None => "Error"
               end in
  let p := setError ("Microphone access failed: " ++ shown) p in
  let p := set_running false p in
  setAudioActive false p.

(** [start] after the [await], when the stream is granted. *)
Definition start_granted (sampleRate : float) (stream : nat)
  (sampleBuffer : list float) (p : page) : page :=
  let p := set_mediaStream (Some stream) p in
  let '(s, p) := make "MediaStreamSource" p in
  let p := set_sourceNode (Some s) p in
  match buildGraph p with
  | Threw p => start_refused (Some "TypeError") p
  | Returned p =>
      let p := set_running true p in
      let p := setAudioActive true p in
      match loop sampleRate sampleBuffer p with
      | Threw p => start_refused (Some "TypeError") p
      | Returned p => p
      end
  end.

Definition stop (p : page) : page := destroyStream (set_running false p).

Definition setRefTone (on : bool) (p : page) : page :=
  let p := if audioContext p then p
           else set_audioContext true (ask NewAudioContext p) in
  if on then
    match refOsc p with
    | Some _ => p
    | None =>
        let '(osc, p) := make "Oscillator" p in
        let p := set_refOsc (Some osc) p in
        let '(gain, p) := make "Gain" p in
        let p := ask (SetNumber gain "gain" 0.08%float) p in
        let p := ask (SetNumber osc "frequency" NoteMathDouble.A4) p in
        let p := ask (Connect osc gain) p in
        let p := ask (ConnectDestination gain) p in
        ask (OscillatorStart osc) p
    end
  else
    match refOsc p with
    | Some osc =>
        let p := ask (OscillatorStop osc) p in
        let p := ask (Disconnect osc) p in
        set_refOsc None p
    | None => p
    end.

(** What happens to the page: the clicks and changes the script
    listens to, the answers it waits for, and the animation frames. An
    answer or a frame is handled whenever it comes, asked for or not. *)
Inductive action : Type :=
  | StartClicked (selected : string)
  | StopClicked
  | RefToneToggled (checked : bool)
  | MicChanged (selected : string)
  | Granted (stream : nat) (sampleBuffer : list float)
  | Refused (name : option string)
  | FrameDue (sampleBuffer : list float)
  | DevicesListed (list : list device).

(** [micSelect.value || undefined]. *)
Definition or_undefined (s : string) : option string :=
  if String.eqb s "" then None else Some s.

Definition handle (sampleRate : float) (p : page) (a : action) : page :=
  match a with
  | StartClicked selected => start_asks (or_undefined selected) p
  | StopClicked => stop p
  | RefToneToggled checked => setRefTone checked p
  | MicChanged selected =>
      if running p then start_asks (Some selected) (destroyStream p) else p
  | Granted stream sampleBuffer =>
      start_granted sampleRate stream sampleBuffer p
  | Refused name => start_refused name p
  | FrameDue sampleBuffer => page_of (loop sampleRate sampleBuffer p)
  | DevicesListed list => getDevices list p
  end.

Definition play (sampleRate : float) (actions : list action) (p : page)
  : page :=
  fold_left (handle sampleRate) actions p.

(** The oscillators that were started and not stopped since. *)
Fixpoint sounding_after (on : list nat) (cs : list call) : list nat :=
  match cs with
  | [] => on
  | OscillatorStart o :: rest => sounding_after (on ++ [o]) rest
  | OscillatorStop o :: rest =>
      sounding_after (filter (fun x => negb (x =? o)%nat) on) rest
  | _ :: rest => sounding_after on rest
  end.

Definition sounding (cs : list call) : list nat := sounding_after [] cs.

(** What a variable holds, as a list. *)
Definition held (x : option nat) : list nat :=
  match x with
  | Some v => [v]
  | None => []
  end.

(** The tone is as [refOsc] says. *)
Definition in_tune (p : page) : Prop := sounding (calls p) = held (refOsc p).

(** The call that stops the tracks of [stream], and how many times
    it was made. *)
Definition is_stop (stream : nat) (c : call) : bool :=
  match c with
  | TracksStop s => (s =? stream)%nat
  | _ => false
  end.

Definition stopped (stream : nat) (cs : list call) : nat :=
  length (filter (is_stop stream) cs).

(** The answer of [getUserMedia] that grants [stream]. *)
Definition grants (stream : nat) (a : action) : bool :=
  match a with
  | Granted s _ => (s =? stream)%nat
  | _ => false
  end.

(** A node whose output reaches the speakers along the connections
    asked for so far, those undone since counted in. *)
Inductive audible (cs : list call) : nat -> Prop :=
  | audible_at n : In (ConnectDestination n) cs -> audible cs n
  | audible_through a b :
      In (Connect a b) cs -> audible cs b -> audible cs a.

(** A call that makes no node and connects none. *)
Definition plain_call (c : call) : bool :=
  match c with
  | Create _ _ | Connect _ _ | ConnectDestination _ => false
  | _ => true
  end.

(** The two kinds of node the reference tone is made of. *)
Definition tone (what : string) : bool :=
  String.eqb what "Oscillator" || String.eqb what "Gain".

(** The calls so far are well wired, [created] objects having been
    made: a node has a number below [created] and one kind; only a node
    of the tone is connected into a node of the tone; only a gain is
    connected to the speakers. *)
Definition wired (created : nat) (cs : list call) : Prop :=
  (forall w n, In (Create w n) cs -> (n < created)%nat) /\
  (forall w w' n, In (Create w n) cs -> In (Create w' n) cs -> w = w') /\
  (forall a b, In (Connect a b) cs ->
     exists wb, In (Create wb b) cs /\
       (tone wb = true -> exists wa, In (Create wa a) cs /\ tone wa = true)) /\
  (forall n, In (ConnectDestination n) cs -> In (Create "Gain" n) cs).

(** The light [audioActive] is on only over a running session: a
    stream is held, the analyser is there and a frame is pending. *)
Definition honest (p : page) : Prop :=
  audioActive p = true ->
  running p = true /\ mediaStream p <> None /\ analyser p <> None /\
  pending (animationId p) <> None.

End Controls.

(** * Facts about binary64 rounding

    The standard library specifies each primitive operation by a function
    on [spec_float]; the lemmas below read off those functions the few
    facts the pipeline needs: a rounded positive mantissa does not vanish
    unless the exponent is below [emin], and the sign survives. *)

Section Rounding.
Local Open Scope Z_scope.

Lemma digits2_pos_lower (p : positive) :
  2 ^ (Zpos (digits2_pos p) - 1) <= Zpos p.
Proof.
  induction p as [p IH | p IH | ]; simpl digits2_pos.
  - rewrite Pos2Z.inj_succ. replace (Z.succ (Zpos (digits2_pos p)) - 1) with (Z.succ (Zpos (digits2_pos p) - 1)) by lia.
    rewrite Z.pow_succ_r by lia. lia.
  - rewrite Pos2Z.inj_succ. replace (Z.succ (Zpos (digits2_pos p)) - 1) with (Z.succ (Zpos (digits2_pos p) - 1)) by lia.
    rewrite Z.pow_succ_r by lia. lia.
  - simpl. lia.
Qed.

Lemma shr_1_nonneg mrs : 0 <= shr_m mrs -> 0 <= shr_m (shr_1 mrs).
Proof.
  destruct mrs as [m r s]; simpl. destruct m as [ | [p | p | ] | p ]; simpl; lia.
Qed.

Lemma shr_1_lower j mrs :
  0 <= j -> 2 ^ (j + 1) <= shr_m mrs -> 2 ^ j <= shr_m (shr_1 mrs).
Proof.
  intros Hj. replace (j + 1) with (Z.succ j) by lia. rewrite Z.pow_succ_r by lia.
  assert (0 < 2 ^ j) by (apply Z.pow_pos_nonneg; lia).
  generalize dependent (2 ^ j). intros t Ht H.
  destruct mrs as [m r s]; cbn [shr_m] in H.
  destruct m as [ | [p | p | ] | p ]; cbn [shr_1 shr_m]; lia.
Qed.

Lemma iter_pos_nonneg k mrs :
  0 <= shr_m mrs -> 0 <= shr_m (iter_pos shr_1 k mrs).
Proof.
  revert mrs. induction k as [k IH | k IH | ]; intros mrs H; simpl.
  - apply IH, IH, shr_1_nonneg, H.
  - apply IH, IH, H.
  - apply shr_1_nonneg, H.
Qed.

Lemma iter_pos_lower k : forall j mrs,
  0 <= j -> 2 ^ (j + Zpos k) <= shr_m mrs ->
  2 ^ j <= shr_m (iter_pos shr_1 k mrs).
Proof.
  induction k as [k IH | k IH | ]; intros j mrs Hj H; simpl.
  - apply IH; [lia|]. apply IH; [lia|]. apply shr_1_lower; [lia|].
    replace (j + Z.pos k + Z.pos k + 1) with (j + Z.pos k~1) by lia. exact H.
  - apply IH; [lia|]. apply IH; [lia|].
    replace (j + Z.pos k + Z.pos k) with (j + Z.pos k~0) by lia. exact H.
  - apply shr_1_lower; [lia|]. exact H.
Qed.

Variables prec emax : Z.
Hypothesis Hprec : 0 < prec.

Lemma shr_fexp_nonneg m e l :
  0 <= m -> 0 <= shr_m (fst (shr_fexp prec emax m e l)).
Proof.
  intros Hm. unfold shr_fexp, shr.
  assert (shr_m (shr_record_of_loc m l) = m) as Hrec
    by (destruct l as [ | [ | | ] ]; reflexivity).
  destruct (fexp prec emax (Zdigits2 m + e) - e); simpl;
    try apply iter_pos_nonneg; rewrite Hrec; exact Hm.
Qed.

Lemma shr_fexp_pos m e l :
  0 < m -> SpecFloat.emin prec emax <= e ->
  0 < shr_m (fst (shr_fexp prec emax m e l)) /\
  SpecFloat.emin prec emax <= snd (shr_fexp prec emax m e l).
Proof.
  intros Hm He. unfold shr_fexp, shr.
  assert (shr_m (shr_record_of_loc m l) = m) as Hrec
    by (destruct l as [ | [ | | ] ]; reflexivity).
  destruct (fexp prec emax (Zdigits2 m + e) - e) as [ | k | k ] eqn:Hn; simpl;
    rewrite ?Hrec; try (split; lia).
  unfold fexp in Hn.
  destruct m as [ | p | p ]; try lia. simpl Zdigits2 in Hn.
  split; [ | lia].
  assert (2 ^ (prec - 1) <= shr_m (iter_pos shr_1 k (shr_record_of_loc (Zpos p) l))).
  { apply iter_pos_lower; [lia|]. rewrite Hrec.
    replace (prec - 1 + Zpos k) with (Zpos (digits2_pos p) - 1) by lia.
    apply digits2_pos_lower. }
  assert (0 < 2 ^ (prec - 1)) by (apply Z.pow_pos_nonneg; lia). lia.
Qed.

Lemma round_nearest_even_pos m l : 0 < m -> 0 < round_nearest_even m l.
Proof.
  intros Hm. destruct l as [ | [ | | ] ]; simpl; try lia.
  destruct (Z.even m); lia.
Qed.

Lemma round_nearest_even_nonneg m l : 0 <= m -> 0 <= round_nearest_even m l.
Proof.
  intros Hm. destruct l as [ | [ | | ] ]; simpl; try lia.
  destruct (Z.even m); lia.
Qed.

Lemma binary_round_aux_pos s m e l :
  0 < m -> SpecFloat.emin prec emax <= e ->
  JSFloat.signed_nonzero (SpecFloat.emin prec emax) s
    (binary_round_aux prec emax s m e l).
Proof.
  intros Hm He. unfold binary_round_aux.
  destruct (shr_fexp_pos m e l Hm He) as [H1 H2].
  destruct (shr_fexp prec emax m e l) as [mrs' e']. simpl in H1, H2.
  pose proof (round_nearest_even_pos (shr_m mrs') (loc_of_shr_record mrs') H1) as H3.
  destruct (shr_fexp_pos _ e' loc_Exact H3 H2) as [H4 H5].
  destruct (shr_fexp prec emax _ e' loc_Exact) as [mrs'' e'']. simpl in H4, H5.
  destruct (shr_m mrs''); try lia.
  destruct (e'' <=? emax - prec); simpl; auto.
Qed.

Lemma binary_round_aux_signed s m e l :
  0 < m -> JSFloat.signed s (binary_round_aux prec emax s m e l).
Proof.
  intros Hm. unfold binary_round_aux.
  assert (0 <= m) as Hm' by lia.
  pose proof (shr_fexp_nonneg m e l Hm') as H1.
  destruct (shr_fexp prec emax m e l) as [mrs' e']. simpl in H1.
  pose proof (round_nearest_even_nonneg (shr_m mrs') (loc_of_shr_record mrs') H1) as H3.
  pose proof (shr_fexp_nonneg _ e' loc_Exact H3) as H4.
  destruct (shr_fexp prec emax _ e' loc_Exact) as [mrs'' e'']. simpl in H4.
  destruct (shr_m mrs''); try lia; simpl; auto.
  destruct (e'' <=? emax - prec); simpl; auto.
Qed.

End Rounding.

Module FloatFacts.

Import JSFloat.
Open Scope float_scope.

Ltac to_spec :=
  rewrite ?ltb_spec, ?leb_spec, ?eqb_spec, ?div_spec, ?mul_spec, ?add_spec,
    ?sub_spec, ?sqrt_spec, ?opp_spec, ?abs_spec in *.

Lemma valid_emin s m e :
  valid_binary (S754_finite s m e) = true -> (emin <= e)%Z.
Proof.
  unfold SpecFloat.valid_binary, bounded, canonical_mantissa, fexp.
  intros H. apply andb_prop in H. destruct H as [H _].
  apply Z.eqb_eq in H. lia.
Qed.

Lemma signed_nonzero_pos x :
  signed_nonzero emin false x -> sf_pos x = true.
Proof. destruct x as [ | [ | ] | | [ | ] m e ]; simpl; intuition congruence. Qed.

Lemma signed_nonneg x : signed false x -> sf_nonneg x = true.
Proof. destruct x as [ [ | ] | [ | ] | | [ | ] m e ]; simpl; intuition congruence. Qed.

Lemma compare_cont_swap (p q : positive) :
  Pos.compare_cont Eq q p = CompOpp (Pos.compare_cont Eq p q).
Proof. now rewrite Pos.compare_cont_antisym. Qed.

Lemma SFcompare_antisym x y :
  SFcompare y x = option_map CompOpp (SFcompare x y).
Proof.
  destruct x as [ [ | ] | [ | ] | | [ | ] mx ex ],
           y as [ [ | ] | [ | ] | | [ | ] my ey ]; try reflexivity;
    cbn [SFcompare option_map];
    rewrite (Z.compare_antisym ex ey), (compare_cont_swap mx my);
    destruct (ex ?= ey)%Z; cbn [CompOpp]; try reflexivity;
    now rewrite ?CompOpp_involutive.
Qed.

(** [x < y] failing means [y <= x], unless one of them is [NaN]. *)
Lemma SFleb_of_not_ltb x y :
  SFltb x y = false -> SFleb y x = true \/ SFcompare x y = None.
Proof.
  unfold SFltb, SFleb. rewrite (SFcompare_antisym x y).
  destruct (SFcompare x y) as [ [ | | ] | ]; simpl; auto; discriminate.
Qed.

Lemma SFcompare_none_l x s m e :
  SFcompare x (S754_finite s m e) = None -> x = S754_nan.
Proof. destruct x as [ | [ | ] | | [ | ] mx ex ], s; simpl; congruence. Qed.

Lemma SFcompare_none_r x s m e :
  SFcompare (S754_finite s m e) x = None -> x = S754_nan.
Proof. destruct x as [ | [ | ] | | [ | ] mx ex ], s; simpl; congruence. Qed.

Lemma SFcompare_refl_pos x :
  sf_pos x = true -> SFcompare x x = Some Eq.
Proof.
  destruct x as [ | [ | ] | | [ | ] m e ]; simpl; try discriminate; intros _; auto.
  rewrite Z.compare_refl. now rewrite Pos.compare_cont_refl.
Qed.

(** A positive number is truthy. *)
Lemma pos_truthy x : sf_pos (Prim2SF x) = true -> truthy x = true.
Proof.
  intros H. unfold truthy, falsy, PrimFloat.is_zero, PrimFloat.is_nan.
  to_spec. unfold SFeqb. rewrite (SFcompare_refl_pos _ H).
  change (Prim2SF 0) with (S754_zero false).
  destruct (Prim2SF x) as [ | [ | ] | | [ | ] m e ]; simpl in *; congruence.
Qed.

Lemma mul_pos x y mx ex my ey :
  Prim2SF x = S754_finite false mx ex ->
  Prim2SF y = S754_finite false my ey ->
  (emin <= ex + ey)%Z ->
  sf_pos (Prim2SF (x * y)) = true.
Proof.
  intros Hx Hy He. rewrite mul_spec, Hx, Hy. unfold SF64mul, SFmul.
  apply signed_nonzero_pos. simpl xorb.
  apply binary_round_aux_pos; [reflexivity | lia | exact He].
Qed.

Lemma mul_nonneg x y mx ex :
  Prim2SF x = S754_finite false mx ex ->
  sf_pos (Prim2SF y) = true ->
  sf_nonneg (Prim2SF (x * y)) = true.
Proof.
  intros Hx Hy. rewrite mul_spec, Hx. unfold SF64mul, SFmul.
  destruct (Prim2SF y) as [ | [ | ] | | [ | ] my ey ]; try discriminate; auto.
  apply signed_nonneg. simpl xorb. apply binary_round_aux_signed. lia.
Qed.

Lemma binary_round_pos m e :
  (emin <= e)%Z -> sf_pos (binary_round prec emax false m e) = true.
Proof.
  intros He. unfold binary_round, shl_align.
  apply signed_nonzero_pos.
  destruct (fexp prec emax (Z.pos (digits2_pos m) + e) - e)%Z eqn:Hd;
    apply binary_round_aux_pos; try reflexivity; try lia.
  unfold fexp. lia.
Qed.

Lemma add_pos x y :
  sf_pos (Prim2SF x) = true -> sf_nonneg (Prim2SF y) = true ->
  sf_pos (Prim2SF (x + y)) = true.
Proof.
  intros Hx Hy. rewrite add_spec. unfold SF64add, SFadd.
  pose proof (Prim2SF_valid x) as Vx. pose proof (Prim2SF_valid y) as Vy.
  destruct (Prim2SF x) as [ | [ | ] | | [ | ] mx ex ]; try discriminate;
    destruct (Prim2SF y) as [ [ | ] | [ | ] | | [ | ] my ey ]; try discriminate; auto.
  apply valid_emin in Vx, Vy.
  cbn [cond_Zopp Z.add binary_normalize].
  apply binary_round_pos. lia.
Qed.

(** A positive array length or index converts to a positive number. *)
Lemma of_Z_pos z :
  (0 < z < 2 ^ 63)%Z -> sf_pos (Prim2SF (of_Z z)) = true.
Proof.
  intros Hz. unfold of_Z.
  destruct (Z.ltb_spec z 0); [lia | ].
  rewrite of_uint63_spec, Uint63.of_Z_spec.
  rewrite Z.mod_small by (change Uint63.wB with (2 ^ 63)%Z; lia).
  destruct z as [ | p | p ]; try lia.
  cbn [binary_normalize]. apply binary_round_pos. reflexivity || (unfold emin; simpl; lia).
Qed.

End FloatFacts.

(** * What a double is worth

    The real number a double stands for, and each operation as the exact
    one followed by a rounding to nearest, ties to even. *)

Module RealValueFacts.

Import RealValue.
Local Open Scope R_scope.

(** ** Powers of two *)

Lemma p2_pos e : 0 < p2 e.
Proof. apply powerRZ_lt. lra. Qed.

Lemma p2_add a b : p2 (a + b) = p2 a * p2 b.
Proof. apply powerRZ_add. lra. Qed.

Lemma p2_0 : p2 0 = 1.
Proof. reflexivity. Qed.

Lemma p2_1 : p2 1 = 2.
Proof. unfold p2. simpl. lra. Qed.

Lemma p2_succ e : p2 (e + 1) = 2 * p2 e.
Proof. rewrite p2_add, p2_1. ring. Qed.

Lemma p2_pred e : p2 (e - 1) = p2 e / 2.
Proof.
  replace e with ((e - 1) + 1)%Z at 2 by lia. rewrite p2_succ. field.
Qed.

Lemma p2_IZR n : (0 <= n)%Z -> p2 n = IZR (2 ^ n).
Proof.
  intros H. unfold p2. rewrite <- (Z2Nat.id n H) at 1.
  rewrite <- pow_powerRZ, pow_IZR. now rewrite Z2Nat.id.
Qed.

Lemma p2_ge_1 n : (0 <= n)%Z -> 1 <= p2 n.
Proof.
  intros H. rewrite p2_IZR by exact H. apply IZR_le.
  pose proof (Z.pow_pos_nonneg 2 n ltac:(lia) H). lia.
Qed.

Lemma p2_le a b : (a <= b)%Z -> p2 a <= p2 b.
Proof.
  intros H. replace b with (a + (b - a))%Z by lia. rewrite p2_add.
  pose proof (p2_pos a). pose proof (p2_ge_1 (b - a) ltac:(lia)). nra.
Qed.

Lemma p2_lt a b : (a < b)%Z -> p2 a < p2 b.
Proof.
  intros H. replace b with ((a + 1) + (b - a - 1))%Z by lia.
  rewrite p2_add, p2_succ.
  pose proof (p2_pos a). pose proof (p2_ge_1 (b - a - 1) ltac:(lia)). nra.
Qed.

Lemma p2_lt_inv a b : p2 a < p2 b -> (a < b)%Z.
Proof.
  intros H. destruct (Z_lt_le_dec a b) as [ | Hle]; [assumption | ].
  apply p2_le in Hle. lra.
Qed.

Lemma p2_le_inv a b : p2 a <= p2 b -> (a <= b)%Z.
Proof.
  intros H. destruct (Z_le_gt_dec a b) as [ | Hgt]; [assumption | ].
  apply Z.gt_lt, p2_lt in Hgt. lra.
Qed.

Lemma p2_div a b : p2 a / p2 b = p2 (a - b).
Proof.
  replace a with ((a - b) + b)%Z at 1 by lia. rewrite p2_add.
  field. pose proof (p2_pos b). lra.
Qed.

(** ** The nearest integer *)

Lemma Rabs_le_both x a : Rabs x <= a -> - a <= x <= a.
Proof.
  unfold Rabs. destruct (Rcase_abs x); lra.
Qed.

Lemma Rabs_le_of x a : - a <= x <= a -> Rabs x <= a.
Proof.
  unfold Rabs. destruct (Rcase_abs x); lra.
Qed.

Lemma nearest_even_near x N : nearest_even x N -> Rabs (IZR N - x) <= / 2.
Proof. intros [H | [H _] ]; lra. Qed.

Lemma nearest_even_IZR n : nearest_even (IZR n) n.
Proof.
  left. replace (IZR n - IZR n) with 0 by ring. rewrite Rabs_R0. lra.
Qed.

Lemma nearest_even_monotone x1 x2 N1 N2 :
  nearest_even x1 N1 -> nearest_even x2 N2 -> x1 <= x2 -> (N1 <= N2)%Z.
Proof.
  intros H1 H2 Hx.
  destruct (Z_le_gt_dec N1 N2) as [ | Hgt]; [assumption | exfalso].
  assert (IZR N2 + 1 <= IZR N1) as HN
    by (rewrite <- plus_IZR; apply IZR_le; lia).
  pose proof (nearest_even_near _ _ H1) as B1.
  pose proof (nearest_even_near _ _ H2) as B2.
  apply Rabs_le_both in B1, B2.
  assert (N1 = (N2 + 1)%Z) as E.
  { apply eq_IZR. rewrite plus_IZR. lra. }
  destruct H1 as [H1 | [H1 E1] ];
    [apply Rabs_def2 in H1; rewrite E, plus_IZR in H1; lra | ].
  destruct H2 as [H2 | [H2 E2] ];
    [apply Rabs_def2 in H2; rewrite E, plus_IZR in B1; lra | ].
  rewrite E, Z.even_add in E1. rewrite E2 in E1. discriminate.
Qed.

Lemma nearest_even_unique x N1 N2 :
  nearest_even x N1 -> nearest_even x N2 -> N1 = N2.
Proof.
  intros H1 H2.
  pose proof (nearest_even_monotone x x N1 N2 H1 H2 ltac:(lra)).
  pose proof (nearest_even_monotone x x N2 N1 H2 H1 ltac:(lra)).
  lia.
Qed.

Lemma nearest_even_opp x N : nearest_even x N -> nearest_even (- x) (- N).
Proof.
  unfold nearest_even. rewrite opp_IZR, Z.even_opp.
  replace (- IZR N - - x) with (- (IZR N - x)) by ring.
  now rewrite Rabs_Ropp.
Qed.

Lemma nearest_even_ge x N a : nearest_even x N -> IZR a <= x -> (a <= N)%Z.
Proof.
  intros H Ha.
  exact (nearest_even_monotone _ _ _ _ (nearest_even_IZR a) H Ha).
Qed.

Lemma nearest_even_le x N a : nearest_even x N -> x <= IZR a -> (N <= a)%Z.
Proof.
  intros H Ha.
  exact (nearest_even_monotone _ _ _ _ H (nearest_even_IZR a) Ha).
Qed.

(** ** Binades *)

Lemma binade_unique X k1 k2 : binade X k1 -> binade X k2 -> k1 = k2.
Proof.
  unfold binade. intros [A1 B1] [A2 B2].
  assert (k1 - 1 < k2)%Z by (apply p2_lt_inv; lra).
  assert (k2 - 1 < k1)%Z by (apply p2_lt_inv; lra).
  lia.
Qed.

Lemma binade_monotone X1 X2 k1 k2 :
  binade X1 k1 -> binade X2 k2 -> Rabs X1 <= Rabs X2 -> (k1 <= k2)%Z.
Proof.
  unfold binade. intros [A1 B1] [A2 B2] H.
  assert (k1 - 1 < k2)%Z by (apply p2_lt_inv; lra). lia.
Qed.

Lemma binade_opp X k : binade X k -> binade (- X) k.
Proof. unfold binade. now rewrite Rabs_Ropp. Qed.

Lemma binade_nonzero X k : binade X k -> X <> 0.
Proof.
  unfold binade. intros [A _] ->. rewrite Rabs_R0 in A.
  pose proof (p2_pos (k - 1)). lra.
Qed.

(** Powers of two as numerals. *)
Lemma p2_nat k v : (0 <= k)%Z -> (2 ^ k = v)%Z -> p2 k = IZR v.
Proof. intros Hk <-. now apply p2_IZR. Qed.

Lemma p2_neg k v : (k <= 0)%Z -> (2 ^ (- k) = v)%Z -> p2 k = / IZR v.
Proof.
  intros Hk <-. replace k with (- - k)%Z at 1 by lia.
  unfold p2. rewrite powerRZ_neg'. f_equal.
  change (powerRZ 2 (- k)) with (p2 (- k)). apply p2_IZR. lia.
Qed.

(** ** Rounding to nearest *)

Section Nearest.

Variables prec emin : Z.
Hypothesis prec_pos : (0 < prec)%Z.

Local Abbreviation rounds_to := (rounds_to prec emin).
Local Abbreviation grid := (grid prec emin).

Lemma grid_le k1 k2 : (k1 <= k2)%Z -> (grid k1 <= grid k2)%Z.
Proof. unfold RealValue.grid. lia. Qed.

Lemma rounds_to_opp X Y : rounds_to X Y -> rounds_to (- X) (- Y).
Proof.
  intros [ [-> ->] | (k & N & Hk & HN & ->) ].
  - left. split; ring.
  - right. exists k, (- N)%Z. split; [now apply binade_opp | ].
    split.
    + replace (- X / p2 (grid k)) with (- (X / p2 (grid k)))
        by (field; pose proof (p2_pos (grid k)); lra).
      now apply nearest_even_opp.
    + rewrite opp_IZR. ring.
Qed.

Lemma rounds_to_0 Y : rounds_to 0 Y -> Y = 0.
Proof.
  intros [ [_ ->] | (k & N & Hk & _) ]; [reflexivity | ].
  now apply binade_nonzero in Hk.
Qed.

Lemma rounds_to_nonneg X Y : 0 <= X -> rounds_to X Y -> 0 <= Y.
Proof.
  intros HX [ [_ ->] | (k & N & Hk & HN & ->) ]; [lra | ].
  pose proof (p2_pos (grid k)) as Hp.
  assert (0 <= N)%Z as H0.
  { apply (nearest_even_ge _ _ 0 HN). apply Rmult_le_pos; [exact HX | ].
    left. now apply Rinv_0_lt_compat. }
  apply IZR_le in H0. nra.
Qed.

Lemma rounds_to_nonpos X Y : X <= 0 -> rounds_to X Y -> Y <= 0.
Proof.
  intros HX H. apply rounds_to_opp in H.
  apply rounds_to_nonneg in H; lra.
Qed.

(** Two positive numbers. *)
Lemma rounds_to_monotone_pos X1 X2 Y1 Y2 :
  0 < X1 -> X1 <= X2 -> rounds_to X1 Y1 -> rounds_to X2 Y2 -> Y1 <= Y2.
Proof.
  intros H1 H12 [ [-> _] | (k1 & N1 & Hk1 & HN1 & ->) ]; [lra | ].
  intros [ [-> _] | (k2 & N2 & Hk2 & HN2 & ->) ]; [lra | ].
  assert (k1 <= k2)%Z as Hk
    by (apply (binade_monotone X1 X2); try assumption;
        rewrite !Rabs_pos_eq by lra; exact H12).
  pose proof (grid_le _ _ Hk) as Hg.
  pose proof (p2_pos (grid k1)) as Hp1. pose proof (p2_pos (grid k2)) as Hp2.
  destruct (Z.eq_dec (grid k1) (grid k2)) as [E | NE].
  - rewrite E in *.
    assert (N1 <= N2)%Z as HN.
    { apply (nearest_even_monotone _ _ _ _ HN1 HN2).
      apply Rmult_le_compat_r; [ | exact H12].
      left. now apply Rinv_0_lt_compat. }
    apply IZR_le in HN. nra.
  - assert (grid k1 < grid k2)%Z as Hlt by lia.
    assert (grid k2 = k2 - prec)%Z as E2 by (unfold RealValue.grid in *; lia).
    assert (k1 < k2)%Z as Hk' by (unfold RealValue.grid in *; lia).
    apply Rle_trans with (p2 (k2 - 1)).
    + (* the lower number does not pass the power of two between *)
      assert (N1 <= 2 ^ (k2 - 1 - grid k1))%Z as HN.
      { apply (nearest_even_le _ _ _ HN1).
        rewrite <- p2_IZR by lia. rewrite <- p2_div.
        apply Rmult_le_compat_r; [left; now apply Rinv_0_lt_compat | ].
        destruct Hk1 as [_ Hk1]. rewrite Rabs_pos_eq in Hk1 by lra.
        pose proof (p2_le k1 (k2 - 1) ltac:(lia)). lra. }
      apply IZR_le in HN. rewrite <- p2_IZR in HN by lia.
      rewrite <- p2_div in HN.
      apply Rmult_le_compat_r with (r := p2 (grid k1)) in HN; [ | lra].
      replace (p2 (k2 - 1) / p2 (grid k1) * p2 (grid k1)) with (p2 (k2 - 1))
        in HN by (field; lra).
      exact HN.
    + assert (2 ^ (k2 - 1 - grid k2) <= N2)%Z as HN.
      { apply (nearest_even_ge _ _ _ HN2).
        rewrite <- p2_IZR by lia. rewrite <- p2_div.
        apply Rmult_le_compat_r; [left; now apply Rinv_0_lt_compat | ].
        destruct Hk2 as [Hk2 _]. rewrite Rabs_pos_eq in Hk2 by lra.
        exact Hk2. }
      apply IZR_le in HN. rewrite <- p2_IZR in HN by lia.
      rewrite <- p2_div in HN.
      apply Rmult_le_compat_r with (r := p2 (grid k2)) in HN; [ | lra].
      replace (p2 (k2 - 1) / p2 (grid k2) * p2 (grid k2)) with (p2 (k2 - 1))
        in HN by (field; lra).
      exact HN.
Qed.

Theorem rounds_to_monotone X1 X2 Y1 Y2 :
  X1 <= X2 -> rounds_to X1 Y1 -> rounds_to X2 Y2 -> Y1 <= Y2.
Proof.
  intros H12 R1 R2.
  destruct (Rlt_le_dec 0 X1) as [P1 | P1].
  - now apply (rounds_to_monotone_pos X1 X2).
  - destruct (Rlt_le_dec X2 0) as [P2 | P2].
    + apply rounds_to_opp in R1, R2.
      pose proof (rounds_to_monotone_pos (- X2) (- X1) (- Y2) (- Y1)
                    ltac:(lra) ltac:(lra) R2 R1). lra.
    + pose proof (rounds_to_nonpos _ _ P1 R1).
      pose proof (rounds_to_nonneg _ _ P2 R2). lra.
Qed.

Theorem rounds_to_unique X Y1 Y2 :
  rounds_to X Y1 -> rounds_to X Y2 -> Y1 = Y2.
Proof.
  intros R1 R2.
  pose proof (rounds_to_monotone X X Y1 Y2 ltac:(lra) R1 R2).
  pose proof (rounds_to_monotone X X Y2 Y1 ltac:(lra) R2 R1).
  lra.
Qed.

(** The binade of an integer times a power of two. *)
Lemma binade_of_mantissa M E :
  (0 < M)%Z -> binade (IZR M * p2 E) (Z.log2 M + 1 + E).
Proof.
  intros HM. unfold binade. pose proof (p2_pos E) as Hp.
  assert (0 < IZR M) as HM' by now apply IZR_lt.
  rewrite Rabs_pos_eq by nra.
  destruct (Z.log2_spec M HM) as [Hlo Hhi].
  apply IZR_le in Hlo. apply IZR_lt in Hhi.
  rewrite <- !p2_IZR in * by (pose proof (Z.log2_nonneg M); lia).
  replace (Z.log2 M + 1 + E - 1)%Z with (Z.log2 M + E)%Z by lia.
  replace (Z.log2 M + 1 + E)%Z with (Z.succ (Z.log2 M) + E)%Z by lia.
  rewrite !p2_add. split; nra.
Qed.

Theorem rounds_to_representable X : representable prec emin X -> rounds_to X X.
Proof.
  intros (M & E & -> & HM & HE).
  destruct (Z.eq_dec M 0) as [-> | NZ]; [left; split; ring | ].
  assert (forall M, (0 < M)%Z -> (M < 2 ^ prec)%Z ->
          rounds_to (IZR M * p2 E) (IZR M * p2 E)) as Hpos.
  { clear M HM NZ. intros M HM Hlt. right.
    exists (Z.log2 M + 1 + E)%Z.
    set (g := grid (Z.log2 M + 1 + E)).
    assert (g <= E)%Z as Hg.
    { unfold g, RealValue.grid.
      assert (Z.log2 M < prec)%Z by (apply Z.log2_lt_pow2; lia). lia. }
    exists (M * 2 ^ (E - g))%Z.
    split; [now apply binade_of_mantissa | ].
    assert (IZR M * p2 E = IZR (M * 2 ^ (E - g)) * p2 g) as EQ.
    { rewrite mult_IZR, <- p2_IZR by lia.
      rewrite Rmult_assoc, <- p2_add. do 2 f_equal. lia. }
    split; [ | exact EQ].
    rewrite EQ.
    replace (IZR (M * 2 ^ (E - g)) * p2 g / p2 g) with (IZR (M * 2 ^ (E - g)))
      by (field; pose proof (p2_pos g); lra).
    apply nearest_even_IZR. }
  destruct (Z_lt_le_dec 0 M) as [P | P].
  - apply Hpos; lia.
  - replace (IZR M * p2 E) with (- (IZR (- M) * p2 E))
      by (rewrite opp_IZR; ring).
    apply rounds_to_opp, Hpos; lia.
Qed.

(** A number of the format below the exact value is below the rounded
    one, and likewise above. *)
Corollary rounds_to_above G X Y :
  representable prec emin G -> G <= X -> rounds_to X Y -> G <= Y.
Proof.
  intros HG H R.
  exact (rounds_to_monotone G X G Y H (rounds_to_representable G HG) R).
Qed.

Corollary rounds_to_below G X Y :
  representable prec emin G -> X <= G -> rounds_to X Y -> Y <= G.
Proof.
  intros HG H R.
  exact (rounds_to_monotone X G Y G H R (rounds_to_representable G HG)).
Qed.

Corollary rounds_to_exact X Y :
  representable prec emin X -> rounds_to X Y -> Y = X.
Proof.
  intros HX R.
  exact (rounds_to_unique X Y X R (rounds_to_representable X HX)).
Qed.

(** The error is half a step of the grid at most. *)
Lemma rounds_to_error X Y k :
  binade X k -> rounds_to X Y -> Rabs (Y - X) <= p2 (grid k - 1).
Proof.
  intros Hk [ [-> _] | (k' & N & Hk' & HN & ->) ];
    [now apply binade_nonzero in Hk | ].
  rewrite (binade_unique _ _ _ Hk' Hk) in *. clear Hk'.
  pose proof (p2_pos (grid k)) as Hp.
  apply nearest_even_near in HN. apply Rabs_le_both in HN.
  rewrite p2_pred. apply Rabs_le_of.
  assert (X = X / p2 (grid k) * p2 (grid k)) as E by (field; lra).
  revert HN E. generalize (X / p2 (grid k)). intros q HN E.
  rewrite E. split; nra.
Qed.

(** In the normal range the error is [2^-prec] of the value at most. *)
Lemma rounds_to_relative X Y k :
  binade X k -> (emin <= k - prec)%Z -> rounds_to X Y ->
  Rabs (Y - X) <= p2 (- prec) * Rabs X.
Proof.
  intros Hk Hn R. pose proof (rounds_to_error X Y k Hk R) as H.
  replace (grid k) with (k - prec)%Z in H by (unfold RealValue.grid; lia).
  replace (k - prec - 1)%Z with (- prec + (k - 1))%Z in H by lia.
  rewrite p2_add in H. destruct Hk as [Hk _].
  pose proof (p2_pos (- prec)). nra.
Qed.

End Nearest.

End RealValueFacts.

Module RoundingFacts.

Import RealValue RealValueFacts.
Local Open Scope R_scope.

(** ** Digits *)

Lemma digits2_pos_bounds p :
  (2 ^ (Z.pos (digits2_pos p) - 1) <= Z.pos p < 2 ^ Z.pos (digits2_pos p))%Z.
Proof.
  assert (forall d, (0 < d)%Z -> Z.succ d - 1 = Z.succ (d - 1))%Z as E
    by (intros; lia).
  induction p as [ p IH | p IH | ]; cbn [digits2_pos].
  - change (Z.pos p~1) with (2 * Z.pos p + 1)%Z.
    rewrite Pos2Z.inj_succ, E by lia.
    rewrite 2 Z.pow_succ_r by lia. lia.
  - change (Z.pos p~0) with (2 * Z.pos p)%Z.
    rewrite Pos2Z.inj_succ, E by lia.
    rewrite 2 Z.pow_succ_r by lia. lia.
  - change (1 <= 1 < 2)%Z. lia.
Qed.

Lemma Zdigits2_bounds m :
  (0 < m)%Z -> (2 ^ (Zdigits2 m - 1) <= m < 2 ^ Zdigits2 m)%Z.
Proof. destruct m as [ | p | p ]; try lia. intros _. apply digits2_pos_bounds. Qed.

Lemma Zdigits2_pos m : (0 < m)%Z -> (0 < Zdigits2 m)%Z.
Proof. destruct m; simpl; lia. Qed.

Lemma Zdigits2_unique m d :
  (2 ^ (d - 1) <= m < 2 ^ d)%Z -> (0 < d)%Z -> Zdigits2 m = d.
Proof.
  intros [Hlo Hhi] Hd.
  assert (0 < m)%Z as Hm by (pose proof (Z.pow_pos_nonneg 2 (d - 1)); lia).
  destruct (Zdigits2_bounds m Hm) as [Hlo' Hhi'].
  pose proof (Zdigits2_pos m Hm).
  assert (d - 1 < Zdigits2 m)%Z
    by (apply (Z.pow_lt_mono_r_iff 2); lia).
  assert (Zdigits2 m - 1 < d)%Z
    by (apply (Z.pow_lt_mono_r_iff 2); lia).
  lia.
Qed.

Lemma Zdigits2_binade m e x :
  (0 < m)%Z -> IZR m * p2 e <= x < (IZR m + 1) * p2 e ->
  binade x (Zdigits2 m + e).
Proof.
  intros Hm [Hlo Hhi]. pose proof (p2_pos e) as Hp.
  destruct (Zdigits2_bounds m Hm) as [Hdlo Hdhi].
  pose proof (Zdigits2_pos m Hm) as Hd.
  assert (m + 1 <= 2 ^ Zdigits2 m)%Z as Hdhi' by lia.
  apply IZR_le in Hdlo, Hdhi'. rewrite plus_IZR in Hdhi'.
  rewrite <- !p2_IZR in * by lia.
  assert (0 < IZR m) by now apply IZR_lt.
  unfold binade. rewrite Rabs_pos_eq by nra.
  replace (Zdigits2 m + e - 1)%Z with (Zdigits2 m - 1 + e)%Z by lia.
  rewrite !p2_add. split; nra.
Qed.

(** ** Shifting a mantissa to the right *)

Lemma lies_bounds x mrs :
  lies x mrs -> IZR (shr_m mrs) <= x < IZR (shr_m mrs) + 1.
Proof. unfold lies. destruct (shr_r mrs), (shr_s mrs); lra. Qed.

Lemma IZR_xO p : IZR (Z.pos p~0) = 2 * IZR (Z.pos p).
Proof. change (Z.pos p~0) with (2 * Z.pos p)%Z. now rewrite mult_IZR. Qed.

Lemma IZR_xI p : IZR (Z.pos p~1) = 2 * IZR (Z.pos p) + 1.
Proof.
  change (Z.pos p~1) with (2 * Z.pos p + 1)%Z.
  now rewrite plus_IZR, mult_IZR.
Qed.

Lemma lies_shr_1 x mrs :
  (0 <= shr_m mrs)%Z -> lies x mrs ->
  lies (x / 2) (shr_1 mrs) /\ (0 <= shr_m (shr_1 mrs))%Z.
Proof.
  destruct mrs as [m r s]. cbn [shr_m]. intros Hm.
  destruct m as [ | [ p | p | ] | p ]; try lia;
    unfold lies; cbn [shr_1 shr_m shr_r shr_s].
  - destruct r, s; cbn [orb]; intros H; (split; [lra | lia]).
  - rewrite (IZR_xI p).
    destruct r, s; cbn [orb]; intros H; (split; [lra | lia]).
  - rewrite (IZR_xO p).
    destruct r, s; cbn [orb]; intros H; (split; [lra | lia]).
  - destruct r, s; cbn [orb]; intros H; (split; [lra | lia]).
Qed.

Lemma lies_iter_shr_1 p : forall x mrs,
  (0 <= shr_m mrs)%Z -> lies x mrs ->
  lies (x / p2 (Z.pos p)) (iter_pos shr_1 p mrs) /\
  (0 <= shr_m (iter_pos shr_1 p mrs))%Z.
Proof.
  induction p as [ p IH | p IH | ]; intros x mrs Hm H; cbn [iter_pos].
  - destruct (lies_shr_1 x mrs Hm H) as [H1 Hm1].
    destruct (IH _ _ Hm1 H1) as [H2 Hm2].
    destruct (IH _ _ Hm2 H2) as [H3 Hm3].
    split; [ | exact Hm3].
    rewrite Pos2Z.inj_xI.
    replace (2 * Z.pos p + 1)%Z with (1 + Z.pos p + Z.pos p)%Z by lia.
    rewrite !p2_add, p2_1. pose proof (p2_pos (Z.pos p)).
    replace (x / (2 * p2 (Z.pos p) * p2 (Z.pos p)))
      with (x / 2 / p2 (Z.pos p) / p2 (Z.pos p)) by (field; lra).
    exact H3.
  - destruct (IH _ _ Hm H) as [H2 Hm2].
    destruct (IH _ _ Hm2 H2) as [H3 Hm3].
    split; [ | exact Hm3].
    rewrite Pos2Z.inj_xO.
    replace (2 * Z.pos p)%Z with (Z.pos p + Z.pos p)%Z by lia.
    rewrite !p2_add. pose proof (p2_pos (Z.pos p)).
    replace (x / (p2 (Z.pos p) * p2 (Z.pos p)))
      with (x / p2 (Z.pos p) / p2 (Z.pos p)) by (field; lra).
    exact H3.
  - rewrite p2_1. now apply lies_shr_1.
Qed.

Lemma lies_shr x mrs e n :
  (0 <= shr_m mrs)%Z -> (0 <= n)%Z -> lies (x / p2 e) mrs ->
  lies (x / p2 (snd (shr mrs e n))) (fst (shr mrs e n)) /\
  (0 <= shr_m (fst (shr mrs e n)))%Z /\
  snd (shr mrs e n) = (e + n)%Z.
Proof.
  intros Hm Hn H. destruct n as [ | p | p ]; try lia; cbn [shr fst snd].
  - rewrite Z.add_0_r. auto.
  - destruct (lies_iter_shr_1 p _ _ Hm H) as [H1 Hm1].
    split; [ | auto].
    rewrite p2_add. pose proof (p2_pos e). pose proof (p2_pos (Z.pos p)).
    replace (x / (p2 e * p2 (Z.pos p))) with (x / p2 e / p2 (Z.pos p))
      by (field; lra).
    exact H1.
Qed.

Lemma lies_exact x m : lies x (shr_record_of_loc m loc_Exact) <-> x = IZR m.
Proof. reflexivity. Qed.

Lemma loc_of_shr_record_of_loc m l :
  loc_of_shr_record (shr_record_of_loc m l) = l.
Proof. now destruct l as [ | [ | | ] ]. Qed.

(** ** The nearest integer, ties to even *)

Lemma round_nearest_even_lies x mrs :
  lies x mrs ->
  nearest_even x (round_nearest_even (shr_m mrs) (loc_of_shr_record mrs)).
Proof.
  destruct mrs as [m r s]. unfold lies, nearest_even.
  cbn [shr_m shr_r shr_s loc_of_shr_record].
  destruct r, s; cbn [round_nearest_even]; intros H.
  - left. rewrite plus_IZR. apply Rabs_def1; lra.
  - destruct (Z.even m) eqn:E.
    + right. split; [ | exact E]. rewrite H.
      replace (IZR m - (IZR m + / 2)) with (- / 2) by ring.
      rewrite Rabs_Ropp. apply Rabs_pos_eq. lra.
    + right. split.
      * rewrite H, plus_IZR.
        replace (IZR m + 1 - (IZR m + / 2)) with (/ 2) by field.
        apply Rabs_pos_eq. lra.
      * change (m + 1)%Z with (Z.succ m). rewrite Z.even_succ.
        now rewrite <- Z.negb_even, E.
  - left. apply Rabs_def1; lra.
  - left. rewrite H. replace (IZR m - IZR m) with 0 by ring.
    rewrite Rabs_R0. lra.
Qed.

(** Every real number but 0 has its binade. *)
Lemma p2_exp k : p2 k = exp (IZR k * ln 2).
Proof. unfold p2. rewrite powerRZ_Rpower by lra. reflexivity. Qed.

Lemma binade_exists x : x <> 0 -> exists k, binade x k.
Proof.
  intros Hx. assert (0 < Rabs x) as Ha by now apply Rabs_pos_lt.
  assert (0 < ln 2) as Hl by (rewrite <- ln_1; apply ln_increasing; lra).
  set (y := ln (Rabs x) / ln 2).
  destruct (archimed y) as [Hup Hlo].
  exists (up y). unfold binade. rewrite !p2_exp, minus_IZR.
  assert (Rabs x = exp (y * ln 2)) as E.
  { unfold y. replace (ln (Rabs x) / ln 2 * ln 2) with (ln (Rabs x))
      by (field; lra).
    now rewrite exp_ln. }
  rewrite E. split.
  - destruct (Req_dec (IZR (up y) - 1) y) as [-> | NE]; [lra | ].
    left. apply exp_increasing. nra.
  - apply exp_increasing. nra.
Qed.

(** ** Rounding a located mantissa *)

Section Format.

Variables prec emax : Z.
Hypothesis prec_pos : (0 < prec)%Z.
Hypothesis prec_lt_emax : (prec < emax)%Z.

Local Abbreviation emin := (SpecFloat.emin prec emax).
Local Abbreviation fexp := (SpecFloat.fexp prec emax).
Local Abbreviation rounds_to := (rounds_to prec emin).

Lemma fexp_grid k : fexp k = grid prec emin k.
Proof. reflexivity. Qed.

Lemma fexp_ge_emin k : (emin <= fexp k)%Z.
Proof. unfold SpecFloat.fexp. lia. Qed.

Lemma fexp_monotone k1 k2 : (k1 <= k2)%Z -> (fexp k1 <= fexp k2)%Z.
Proof. unfold SpecFloat.fexp. lia. Qed.

Lemma emin_lt : (emin < emax - prec)%Z.
Proof. unfold SpecFloat.emin. lia. Qed.

(** The first shift brings the mantissa to the exponent of the grid. *)
Lemma shr_fexp_lies x m e l :
  (0 <= m)%Z -> lies (x / p2 e) (shr_record_of_loc m l) ->
  (e <= fexp (Zdigits2 m + e))%Z ->
  lies (x / p2 (snd (shr_fexp prec emax m e l)))
       (fst (shr_fexp prec emax m e l)) /\
  (0 <= shr_m (fst (shr_fexp prec emax m e l)))%Z /\
  snd (shr_fexp prec emax m e l) = fexp (Zdigits2 m + e).
Proof.
  intros Hm H He. unfold shr_fexp.
  destruct (lies_shr x (shr_record_of_loc m l) e
              (fexp (Zdigits2 m + e) - e)) as (H1 & H2 & H3).
  - now destruct l as [ | [ | | ] ].
  - lia.
  - exact H.
  - split; [exact H1 | split; [exact H2 | lia] ].
Qed.

Lemma shr_zero e n : shr_m (fst (shr (shr_record_of_loc 0 loc_Exact) e n)) = 0%Z.
Proof.
  destruct n as [ | p | p ]; try reflexivity.
  destruct (lies_shr 0 (shr_record_of_loc 0 loc_Exact) e (Z.pos p))
    as (H1 & H2 & _); [cbn; lia | lia | unfold lies; cbn; lra | ].
  apply lies_bounds in H1.
  set (z := shr_m (fst (shr (shr_record_of_loc 0 loc_Exact) e (Z.pos p)))) in *.
  replace (0 / p2 (snd (shr (shr_record_of_loc 0 loc_Exact) e (Z.pos p))))
    with 0 in H1 by (unfold Rdiv; ring).
  destruct H1 as [H1 _]. apply le_IZR in H1. lia.
Qed.

(** The second shift: nothing to do below [2^prec], one step at it. *)
Lemma shr_fexp_small N e :
  (0 < N < 2 ^ prec)%Z -> (emin <= e)%Z ->
  shr_fexp prec emax N e loc_Exact = (shr_record_of_loc N loc_Exact, e).
Proof.
  intros HN He. unfold shr_fexp.
  assert (Zdigits2 N <= prec)%Z as Hd.
  { destruct (Zdigits2_bounds N ltac:(lia)) as [Hlo _].
    assert (Zdigits2 N - 1 < prec)%Z by (apply (Z.pow_lt_mono_r_iff 2); lia).
    lia. }
  assert (fexp (Zdigits2 N + e) - e <= 0)%Z as Hn
    by (unfold SpecFloat.fexp; lia).
  destruct (fexp (Zdigits2 N + e) - e)%Z; try lia; reflexivity.
Qed.

Lemma shr_fexp_carry e :
  (emin <= e)%Z ->
  shr_fexp prec emax (2 ^ prec) e loc_Exact
  = (shr_record_of_loc (2 ^ (prec - 1)) loc_Exact, (e + 1)%Z).
Proof.
  intros He. unfold shr_fexp.
  assert (Zdigits2 (2 ^ prec) = prec + 1)%Z as ->.
  { apply Zdigits2_unique; [ | lia].
    replace (prec + 1 - 1)%Z with prec by lia.
    split; [lia | apply Z.pow_lt_mono_r; lia]. }
  replace (fexp (prec + 1 + e) - e)%Z with 1%Z
    by (unfold SpecFloat.fexp; lia).
  cbn [shr iter_pos shr_record_of_loc].
  assert (0 < 2 ^ (prec - 1))%Z as Hq by (apply Z.pow_pos_nonneg; lia).
  replace prec with (Z.succ (prec - 1)) at 1 by lia.
  rewrite Z.pow_succ_r by lia.
  destruct (2 ^ (prec - 1))%Z as [ | q | q ]; try lia.
  reflexivity.
Qed.

(** The rounded magnitude, once the mantissa sits on the grid. *)
Lemma binary_round_aux_within sx mx ex lx x :
  0 < x -> (0 <= mx)%Z ->
  lies (x / p2 ex) (shr_record_of_loc mx lx) ->
  (ex <= fexp (Zdigits2 mx + ex))%Z ->
  exists Y, rounds_to x Y /\
    ((Y < p2 emax /\ magnitude sx Y (binary_round_aux prec emax sx mx ex lx) /\
      within prec emax (binary_round_aux prec emax sx mx ex lx)) \/
     (p2 emax <= Y /\ binary_round_aux prec emax sx mx ex lx = S754_infinity sx)).
Proof.
  intros Hx Hmx Hl He.
  destruct (binade_exists x ltac:(lra)) as [k Hk].
  destruct (shr_fexp_lies x mx ex lx Hmx Hl He) as (H1 & Hm1 & He1).
  unfold binary_round_aux.
  destruct (shr_fexp prec emax mx ex lx) as [mrs1 e1]. cbn [fst snd] in *.
  pose proof (p2_pos ex) as Hpex.
  (* the exponent reached is the one of the grid of [x] *)
  assert (e1 = grid prec emin k) as Eg.
  { rewrite He1, fexp_grid. destruct (Z.eq_dec mx 0) as [-> | NZ].
    - cbn [Zdigits2] in *. rewrite Z.add_0_l in *.
      apply lies_bounds in Hl.
      replace (shr_m (shr_record_of_loc 0 lx)) with 0%Z in Hl
        by now destruct lx as [ | [ | | ] ].
      assert (x < p2 ex) as Hlt.
      { destruct Hl as [_ Hl]. apply Rmult_lt_compat_r with (r := p2 ex) in Hl;
          [ | exact Hpex].
        replace (x / p2 ex * p2 ex) with x in Hl by (field; lra). lra. }
      assert (k <= ex)%Z.
      { destruct Hk as [Hk _]. rewrite Rabs_pos_eq in Hk by lra.
        assert (k - 1 < ex)%Z by (apply p2_lt_inv; lra). lia. }
      unfold SpecFloat.fexp, grid in *. lia.
    - f_equal. symmetry. apply (binade_unique x); [exact Hk | ].
      apply Zdigits2_binade; [lia | ].
      apply lies_bounds in Hl.
      replace (shr_m (shr_record_of_loc mx lx)) with mx in Hl
        by now destruct lx as [ | [ | | ] ].
      destruct Hl as [Hlo Hhi].
      apply Rmult_le_compat_r with (r := p2 ex) in Hlo; [ | lra].
      apply Rmult_lt_compat_r with (r := p2 ex) in Hhi; [ | lra].
      replace (x / p2 ex * p2 ex) with x in * by (field; lra). lra. }
  pose proof (round_nearest_even_lies _ _ H1) as HN.
  set (N := round_nearest_even (shr_m mrs1) (loc_of_shr_record mrs1)) in *.
  pose proof (p2_pos e1) as Hpe1.
  assert (emin <= e1)%Z as Hemin by (rewrite He1; apply fexp_ge_emin).
  assert (0 <= N)%Z as HN0.
  { apply (nearest_even_ge _ _ 0 HN). apply Rmult_le_pos; [lra | ].
    left. now apply Rinv_0_lt_compat. }
  assert (N <= 2 ^ prec)%Z as HNp.
  { apply (nearest_even_le _ _ _ HN). rewrite <- p2_IZR by lia.
    destruct Hk as [_ Hk]. rewrite Rabs_pos_eq in Hk by lra.
    assert (p2 k <= p2 (prec + e1)) as Hle
      by (apply p2_le; rewrite Eg; unfold grid; lia).
    rewrite p2_add in Hle.
    apply Rmult_le_reg_r with (r := p2 e1); [exact Hpe1 | ].
    replace (x / p2 e1 * p2 e1) with x by (field; lra). lra. }
  exists (IZR N * p2 e1). split.
  { right. exists k, N. rewrite <- Eg. auto. }
  destruct (Z.eq_dec N 0) as [E0 | NZ].
  { (* rounded to zero *)
    left. rewrite E0. unfold shr_fexp. cbn [Zdigits2]. 
    pose proof (shr_zero e1 (fexp (0 + e1) - e1)) as Hz.
    destruct (shr (shr_record_of_loc 0 loc_Exact) e1 (fexp (0 + e1) - e1))
      as [mrs2 e2]. cbn [fst] in Hz. rewrite Hz.
    pose proof (p2_pos emax). split; [lra | ].
    cbn [magnitude within]. split; [split; [reflexivity | ring] | exact I]. }
  destruct (Z.eq_dec N (2 ^ prec)) as [EN | NN].
  - (* the carry into the next binade *)
    rewrite EN, (shr_fexp_carry e1 Hemin). cbn [shr_record_of_loc shr_m].
    assert (0 < 2 ^ (prec - 1))%Z as Hq by (apply Z.pow_pos_nonneg; lia).
    assert (IZR (2 ^ prec) * p2 e1 = p2 (prec + e1)) as EY
      by (rewrite <- p2_IZR, p2_add by lia; reflexivity).
    rewrite EY.
    destruct (2 ^ (prec - 1))%Z as [ | q | q ] eqn:Eq; try lia.
    destruct (Z.leb_spec (e1 + 1) (emax - prec)) as [Hb | Hb].
    + left. split; [apply p2_lt; lia | ].
      cbn [magnitude within]. split; [split; [reflexivity | ] | ].
      * rewrite <- Eq, <- p2_IZR, <- p2_add by lia. f_equal. lia.
      * rewrite <- Eq. fold emin. split; [ | lia].
        apply Z.pow_lt_mono_r; lia.
    + right. split; [apply p2_le; lia | reflexivity].
  - rewrite (shr_fexp_small N e1 ltac:(lia) Hemin).
    cbn [shr_record_of_loc shr_m].
    destruct N as [ | n | n ] eqn:EN; try lia.
    destruct (Z.leb_spec e1 (emax - prec)) as [Hb | Hb].
    + left. split; [ | cbn [magnitude within]; fold emin; repeat split; auto; lia].
      assert (Z.pos n + 1 <= 2 ^ prec)%Z as Hn by lia.
      apply IZR_le in Hn. rewrite plus_IZR, <- p2_IZR in Hn by lia.
      assert (p2 (prec + e1) <= p2 emax) as Hle by (apply p2_le; lia).
      rewrite p2_add in Hle. pose proof (p2_pos prec). nra.
    + right. split; [ | reflexivity].
      pose proof emin_lt.
      assert (e1 = k - prec)%Z as Ek by (unfold grid in Eg; lia).
      assert (2 ^ (prec - 1) <= Z.pos n)%Z as Hn.
      { apply (nearest_even_ge _ _ _ HN). rewrite <- p2_IZR by lia.
        destruct Hk as [Hk _]. rewrite Rabs_pos_eq in Hk by lra.
        replace (k - 1)%Z with (prec - 1 + e1)%Z in Hk by lia.
        rewrite p2_add in Hk.
        apply Rmult_le_reg_r with (r := p2 e1); [exact Hpe1 | ].
        replace (x / p2 e1 * p2 e1) with x by (field; lra). lra. }
      apply IZR_le in Hn. rewrite <- p2_IZR in Hn by lia.
      assert (p2 emax <= p2 (prec - 1 + e1)) as Hle by (apply p2_le; lia).
      rewrite p2_add in Hle. nra.
Qed.

Lemma binary_round_aux_correct sx mx ex lx x :
  0 < x -> (0 <= mx)%Z ->
  lies (x / p2 ex) (shr_record_of_loc mx lx) ->
  (ex <= fexp (Zdigits2 mx + ex))%Z ->
  exists Y, rounds_to x Y /\
    ((Y < p2 emax /\ magnitude sx Y (binary_round_aux prec emax sx mx ex lx)) \/
     (p2 emax <= Y /\ binary_round_aux prec emax sx mx ex lx = S754_infinity sx)).
Proof.
  intros Hx Hmx Hl He.
  destruct (binary_round_aux_within sx mx ex lx x Hx Hmx Hl He)
    as (Y & HY & [ (H1 & H2 & _) | H ]);
    exists Y; (split; [exact HY | ]); [left; now split | now right].
Qed.

(** With the sign put back. *)
Lemma rounded_of_magnitude s x z :
  0 < x ->
  (exists Y, rounds_to x Y /\
     ((Y < p2 emax /\ magnitude s Y z) \/
      (p2 emax <= Y /\ z = S754_infinity s))) ->
  rounded prec emax (signR s x) z.
Proof.
  intros Hx (Y & HY & H).
  pose proof (rounds_to_nonneg prec emin x Y ltac:(lra) HY) as HY0.
  exists (signR s Y). split.
  { destruct s; cbn [signR]; [now apply rounds_to_opp | exact HY]. }
  destruct H as [ [Hlt Hm] | [Hge ->] ].
  - left. split.
    { destruct s; cbn [signR]; [rewrite Rabs_Ropp | ];
        rewrite Rabs_pos_eq; lra. }
    destruct z as [ s' | s' | | s' m e ]; cbn [magnitude] in Hm;
      try contradiction; destruct Hm as [-> ->];
      (split; [reflexivity | ]); cbn [SF2R].
    + destruct s; cbn [signR]; ring.
    + destruct s; cbn [signR cond_Zopp]; [ | reflexivity].
      rewrite opp_IZR. ring.
  - right. destruct s; cbn [signR]; [right | left]; split; (lra || reflexivity).
Qed.

Lemma rounded_zero s : rounded prec emax 0 (S754_zero s).
Proof.
  exists 0. split; [left; split; reflexivity | ].
  left. rewrite Rabs_R0. pose proof (p2_pos emax).
  split; [lra | split; reflexivity].
Qed.

(** What validity says of a finite number. *)
Lemma valid_finite s m e :
  SpecFloat.valid_binary prec emax (S754_finite s m e) = true ->
  e = fexp (Z.pos (digits2_pos m) + e) /\ (e <= emax - prec)%Z.
Proof.
  cbn [SpecFloat.valid_binary]. unfold bounded, canonical_mantissa.
  intros H. apply andb_prop in H. destruct H as [H1 H2].
  apply Z.eqb_eq in H1. apply Z.leb_le in H2. split; [now symmetry | exact H2].
Qed.

Lemma valid_mantissa s m e :
  SpecFloat.valid_binary prec emax (S754_finite s m e) = true ->
  (Z.pos m < 2 ^ prec)%Z /\ (emin <= e)%Z /\
  (Z.pos (digits2_pos m) = prec \/ e = emin).
Proof.
  intros H. apply valid_finite in H. destruct H as [H _].
  pose proof (digits2_pos_bounds m) as [_ Hd].
  assert (Z.pos (digits2_pos m) <= prec)%Z as Hp
    by (unfold SpecFloat.fexp in H; lia).
  split; [ | unfold SpecFloat.fexp in H; lia].
  apply Z.lt_le_trans with (1 := Hd). apply Z.pow_le_mono_r; lia.
Qed.

(** *** Multiplication *)

Lemma digits_mul m1 m2 :
  (Z.pos (digits2_pos m1) + Z.pos (digits2_pos m2) - 1
   <= Z.pos (digits2_pos (m1 * m2)))%Z.
Proof.
  pose proof (digits2_pos_bounds m1) as [H1 _].
  pose proof (digits2_pos_bounds m2) as [H2 _].
  pose proof (digits2_pos_bounds (m1 * m2)) as [_ H3].
  rewrite Pos2Z.inj_mul in H3.
  assert (2 ^ (Z.pos (digits2_pos m1) - 1) * 2 ^ (Z.pos (digits2_pos m2) - 1)
          <= Z.pos m1 * Z.pos m2)%Z as H
    by (apply Z.mul_le_mono_nonneg; lia).
  rewrite <- Z.pow_add_r in H by lia.
  assert (Z.pos (digits2_pos m1) - 1 + (Z.pos (digits2_pos m2) - 1)
          < Z.pos (digits2_pos (m1 * m2)))%Z
    by (apply (Z.pow_lt_mono_r_iff 2); lia).
  lia.
Qed.

Theorem SFmul_finite sx mx ex sy my ey :
  SpecFloat.valid_binary prec emax (S754_finite sx mx ex) = true ->
  SpecFloat.valid_binary prec emax (S754_finite sy my ey) = true ->
  rounded prec emax
    (SF2R (S754_finite sx mx ex) * SF2R (S754_finite sy my ey))
    (SFmul prec emax (S754_finite sx mx ex) (S754_finite sy my ey)).
Proof.
  intros Vx Vy. cbn [SFmul SF2R].
  pose proof (p2_pos ex) as Hpx. pose proof (p2_pos ey) as Hpy.
  assert (0 < IZR (Z.pos mx)) as Hmx by (apply IZR_lt; lia).
  assert (0 < IZR (Z.pos my)) as Hmy by (apply IZR_lt; lia).
  set (x := IZR (Z.pos mx) * p2 ex * (IZR (Z.pos my) * p2 ey)).
  assert (0 < x) as Hx by (unfold x; apply Rmult_lt_0_compat; nra).
  replace (IZR (cond_Zopp sx (Z.pos mx)) * p2 ex *
           (IZR (cond_Zopp sy (Z.pos my)) * p2 ey))
    with (signR (xorb sx sy) x)
    by (unfold x; destruct sx, sy; cbn [xorb signR cond_Zopp];
        rewrite ?opp_IZR; ring).
  apply rounded_of_magnitude; [exact Hx | ].
  apply binary_round_aux_correct; [exact Hx | lia | | ].
  - apply lies_exact. unfold x. rewrite Pos2Z.inj_mul, mult_IZR, p2_add.
    field. lra.
  - cbn [Zdigits2]. pose proof (digits_mul mx my) as Hd.
    destruct (valid_mantissa _ _ _ Vx) as (_ & Hex & Cx).
    destruct (valid_mantissa _ _ _ Vy) as (_ & Hey & Cy).
    pose proof (digits2_pos_bounds mx). pose proof (digits2_pos_bounds my).
    assert (emin <= 0)%Z by (unfold SpecFloat.emin; lia).
    unfold SpecFloat.fexp.
    destruct Cx as [Cx | Cx], Cy as [Cy | Cy]; lia.
Qed.

(** *** Rounding an integer mantissa: [binary_round] *)

Lemma iter_xO m d : Z.pos (Pos.iter xO m d) = (Z.pos m * 2 ^ Z.pos d)%Z.
Proof.
  induction d as [ | d IH ] using Pos.peano_ind.
  - cbn [Pos.iter]. change (2 ^ 1)%Z with 2%Z. lia.
  - rewrite Pos.iter_succ, Pos2Z.inj_succ, Z.pow_succ_r by lia.
    change (Z.pos (Pos.iter xO m d)~0) with (2 * Z.pos (Pos.iter xO m d))%Z.
    rewrite IH. ring.
Qed.

Lemma shl_align_spec m e e' :
  (e' <= e)%Z ->
  Z.pos (fst (shl_align m e e')) = (Z.pos m * 2 ^ (e - e'))%Z /\
  snd (shl_align m e e') = e'.
Proof.
  intros H. unfold shl_align.
  destruct (e' - e)%Z as [ | d | d ] eqn:E; try lia; cbn [fst snd].
  - replace (e - e')%Z with 0%Z by lia. change (2 ^ 0)%Z with 1%Z. lia.
  - rewrite iter_xO. split; [ | reflexivity]. do 2 f_equal. lia.
Qed.

Lemma shl_align_keep m e e' : (e <= e')%Z -> shl_align m e e' = (m, e).
Proof.
  intros H. unfold shl_align. destruct (e' - e)%Z eqn:E; try lia; reflexivity.
Qed.

Lemma Zdigits2_shift m n :
  (0 < m)%Z -> (0 <= n)%Z -> Zdigits2 (m * 2 ^ n) = (Zdigits2 m + n)%Z.
Proof.
  intros Hm Hn. destruct (Zdigits2_bounds m Hm) as [Hlo Hhi].
  pose proof (Zdigits2_pos m Hm).
  assert (0 < 2 ^ n)%Z by (apply Z.pow_pos_nonneg; lia).
  apply Zdigits2_unique; [ | lia].
  replace (Zdigits2 m + n - 1)%Z with (Zdigits2 m - 1 + n)%Z by lia.
  rewrite !Z.pow_add_r by lia. nia.
Qed.

Theorem binary_round_correct s m e :
  rounded prec emax (SF2R (S754_finite s m e)) (binary_round prec emax s m e).
Proof.
  unfold binary_round. cbn [SF2R].
  set (e' := fexp (Z.pos (digits2_pos m) + e)).
  set (x := IZR (Z.pos m) * p2 e).
  pose proof (p2_pos e) as Hpe.
  assert (0 < IZR (Z.pos m)) as Hm by (apply IZR_lt; lia).
  assert (0 < x) as Hx by (unfold x; nra).
  replace (IZR (cond_Zopp s (Z.pos m)) * p2 e) with (signR s x)
    by (unfold x; destruct s; cbn [signR cond_Zopp]; rewrite ?opp_IZR; ring).
  apply rounded_of_magnitude; [exact Hx | ].
  destruct (Z_lt_le_dec e' e) as [Hlt | Hle].
  - destruct (shl_align_spec m e e' ltac:(lia)) as [Hmz Hez].
    destruct (shl_align m e e') as [mz ez]. cbn [fst snd] in Hmz, Hez. subst ez.
    apply binary_round_aux_correct; [exact Hx | lia | | ].
    + apply lies_exact. rewrite Hmz, mult_IZR, <- p2_IZR by lia.
      unfold x. replace e with (e - e' + e')%Z at 1 by lia.
      rewrite p2_add. field. pose proof (p2_pos e'). lra.
    + rewrite Hmz, Zdigits2_shift by lia. cbn [Zdigits2].
      replace (Z.pos (digits2_pos m) + (e - e') + e')%Z
        with (Z.pos (digits2_pos m) + e)%Z by lia.
      fold e'. lia.
  - rewrite (shl_align_keep m e e' Hle).
    apply binary_round_aux_correct; [exact Hx | lia | | exact Hle].
    apply lies_exact. unfold x. field. lra.
Qed.

Lemma within_of_rounding x z :
  (exists Y, rounds_to x Y /\
     ((Y < p2 emax /\ magnitude false Y z /\ within prec emax z) \/
      (p2 emax <= Y /\ z = S754_infinity false))) ->
  within prec emax z.
Proof. intros (Y & _ & [ (_ & _ & W) | (_ & ->) ]); [exact W | exact I]. Qed.

(** The mantissa and the exponent [binary_round] returns are within the
    format. *)
Lemma binary_round_within s m e : within prec emax (binary_round prec emax s m e).
Proof.
  assert (forall mz ez lx, within prec emax (binary_round_aux prec emax s mz ez lx)
                       = within prec emax (binary_round_aux prec emax false mz ez lx))
    as Es.
  { intros mz ez lx. unfold binary_round_aux.
    destruct (shr_fexp prec emax mz ez lx) as [mrs1 e1].
    destruct (shr_fexp prec emax _ e1 loc_Exact) as [mrs2 e2].
    destruct (shr_m mrs2); try reflexivity.
    destruct (e2 <=? emax - prec)%Z; reflexivity. }
  unfold binary_round.
  set (e' := fexp (Z.pos (digits2_pos m) + e)).
  set (x := IZR (Z.pos m) * p2 e).
  pose proof (p2_pos e) as Hpe.
  assert (0 < IZR (Z.pos m)) as Hm by (apply IZR_lt; lia).
  assert (0 < x) as Hx by (unfold x; nra).
  destruct (Z_lt_le_dec e' e) as [Hlt | Hle].
  - destruct (shl_align_spec m e e' ltac:(lia)) as [Hmz Hez].
    destruct (shl_align m e e') as [mz ez]. cbn [fst snd] in Hmz, Hez. subst ez.
    rewrite Es. apply (within_of_rounding x).
    apply binary_round_aux_within; [exact Hx | lia | | ].
    + apply lies_exact. rewrite Hmz, mult_IZR, <- p2_IZR by lia.
      unfold x. replace e with (e - e' + e')%Z at 1 by lia.
      rewrite p2_add. field. pose proof (p2_pos e'). lra.
    + rewrite Hmz, Zdigits2_shift by lia. cbn [Zdigits2].
      replace (Z.pos (digits2_pos m) + (e - e') + e')%Z
        with (Z.pos (digits2_pos m) + e)%Z by lia.
      fold e'. lia.
  - rewrite (shl_align_keep m e e' Hle).
    rewrite Es. apply (within_of_rounding x).
    apply binary_round_aux_within; [exact Hx | lia | | exact Hle].
    apply lies_exact. unfold x. field. lra.
Qed.

Theorem binary_normalize_correct M e sz :
  rounded prec emax (IZR M * p2 e) (binary_normalize prec emax M e sz).
Proof.
  destruct M as [ | m | m ]; cbn [binary_normalize].
  - rewrite Rmult_0_l. apply rounded_zero.
  - apply (binary_round_correct false m e).
  - apply (binary_round_correct true m e).
Qed.

(** *** Addition and subtraction *)

Lemma aligned s m e e' :
  (e' <= e)%Z ->
  IZR (cond_Zopp s (Z.pos (fst (shl_align m e e')))) * p2 e'
  = SF2R (S754_finite s m e).
Proof.
  intros H. destruct (shl_align_spec m e e' H) as [-> _]. cbn [SF2R].
  assert (IZR (Z.pos m * 2 ^ (e - e')) * p2 e' = IZR (Z.pos m) * p2 e) as E.
  { rewrite mult_IZR, <- p2_IZR by lia. rewrite Rmult_assoc, <- p2_add.
    do 2 f_equal. lia. }
  destruct s; cbn [cond_Zopp]; rewrite ?opp_IZR; lra.
Qed.

Theorem SFadd_finite sx mx ex sy my ey :
  rounded prec emax
    (SF2R (S754_finite sx mx ex) + SF2R (S754_finite sy my ey))
    (SFadd prec emax (S754_finite sx mx ex) (S754_finite sy my ey)).
Proof.
  cbn [SFadd].
  rewrite <- (aligned sx mx ex (Z.min ex ey)), <- (aligned sy my ey (Z.min ex ey))
    by lia.
  rewrite <- Rmult_plus_distr_r, <- plus_IZR.
  apply binary_normalize_correct.
Qed.

Theorem SFsub_finite sx mx ex sy my ey :
  rounded prec emax
    (SF2R (S754_finite sx mx ex) - SF2R (S754_finite sy my ey))
    (SFsub prec emax (S754_finite sx mx ex) (S754_finite sy my ey)).
Proof.
  cbn [SFsub].
  rewrite <- (aligned sx mx ex (Z.min ex ey)), <- (aligned sy my ey (Z.min ex ey))
    by lia.
  rewrite <- Rmult_minus_distr_r, <- minus_IZR.
  apply binary_normalize_correct.
Qed.

(** *** Division *)

Lemma new_location_lies nb k q :
  (0 <= k < nb)%Z ->
  lies (IZR q + IZR k / IZR nb) (shr_record_of_loc q (new_location nb k)).
Proof.
  intros Hk. assert (0 < IZR nb) as Hnb by (apply IZR_lt; lia).
  destruct (Z.eq_dec k 0) as [-> | NZ].
  { unfold new_location, new_location_even, new_location_odd.
    destruct (Z.even nb); apply lies_exact; unfold Rdiv; ring. }
  assert (0 < IZR k) as Hk0 by (apply IZR_lt; lia).
  assert (IZR k < IZR nb) as Hk1 by (apply IZR_lt; lia).
  assert (forall a b : Z, (a < b)%Z -> IZR a < IZR b) as Hlt
    by (intros; now apply IZR_lt).
  assert (0 < IZR k / IZR nb < 1) as Hfrac.
  { split; [apply Rdiv_lt_0_compat; lra | ].
    apply Rmult_lt_reg_r with (r := IZR nb); [exact Hnb | ].
    replace (IZR k / IZR nb * IZR nb) with (IZR k) by (field; lra). lra. }
  assert ((2 * k < nb)%Z -> IZR k / IZR nb < / 2) as Hlow.
  { intros H. apply Hlt in H. rewrite mult_IZR in H.
    apply Rmult_lt_reg_r with (r := IZR nb); [exact Hnb | ].
    replace (IZR k / IZR nb * IZR nb) with (IZR k) by (field; lra). lra. }
  assert ((nb < 2 * k)%Z -> / 2 < IZR k / IZR nb) as Hhigh.
  { intros H. apply Hlt in H. rewrite mult_IZR in H.
    apply Rmult_lt_reg_r with (r := IZR nb); [exact Hnb | ].
    replace (IZR k / IZR nb * IZR nb) with (IZR k) by (field; lra). lra. }
  apply Z.eqb_neq in NZ.
  unfold new_location. destruct (Z.even nb) eqn:E.
  - unfold new_location_even. rewrite NZ.
    destruct (Z.compare_spec (2 * k) nb) as [H | H | H];
      unfold lies; cbn [shr_record_of_loc shr_m shr_r shr_s].
    + rewrite <- H, mult_IZR. field. lra.
    + specialize (Hlow H). lra.
    + specialize (Hhigh H). lra.
  - unfold new_location_odd. rewrite NZ.
    assert (nb <> 2 * k)%Z as NE
      by (intros ->; rewrite Z.even_mul in E; discriminate).
    destruct (Z.compare_spec (2 * k + 1) nb) as [H | H | H];
      unfold lies; cbn [shr_record_of_loc shr_m shr_r shr_s].
    + specialize (Hlow ltac:(lia)). lra.
    + specialize (Hlow ltac:(lia)). lra.
    + specialize (Hhigh ltac:(lia)). lra.
Qed.

Theorem SFdiv_finite sx mx ex sy my ey :
  rounded prec emax
    (SF2R (S754_finite sx mx ex) / SF2R (S754_finite sy my ey))
    (SFdiv prec emax (S754_finite sx mx ex) (S754_finite sy my ey)).
Proof.
  cbn [SFdiv SF2R]. unfold SFdiv_core_binary. cbn [Zdigits2].
  set (d1 := Z.pos (digits2_pos mx)). set (d2 := Z.pos (digits2_pos my)).
  set (t := (d1 + ex - (d2 + ey))%Z).
  set (e' := Z.min (fexp t) (ex - ey)).
  set (sh := (ex - ey - e')%Z).
  assert (0 <= sh)%Z as Hsh by (unfold sh, e'; lia).
  set (m' := match sh with
             | 0%Z => Z.pos mx
             | Z.pos _ => Z.shiftl (Z.pos mx) sh
             | Z.neg _ => 0%Z
             end).
  assert (m' = Z.pos mx * 2 ^ sh)%Z as Em'.
  { unfold m'. clearbody sh. destruct sh as [ | p | p ].
    - rewrite Z.pow_0_r. lia.
    - now rewrite Z.shiftl_mul_pow2 by lia.
    - lia. }
  clearbody m'.
  pose proof (Z_div_mod m' (Z.pos my) ltac:(lia)) as Hdiv.
  destruct (Z.div_eucl m' (Z.pos my)) as [q r]. destruct Hdiv as [Hq Hr].
  pose proof (p2_pos ex) as Hpx. pose proof (p2_pos ey) as Hpy.
  pose proof (p2_pos e') as Hpe.
  assert (0 < IZR (Z.pos mx)) as Hmx by (apply IZR_lt; lia).
  assert (0 < IZR (Z.pos my)) as Hmy by (apply IZR_lt; lia).
  set (x := IZR (Z.pos mx) * p2 ex / (IZR (Z.pos my) * p2 ey)).
  assert (0 < x) as Hx by (unfold x; apply Rdiv_lt_0_compat; nra).
  replace (IZR (cond_Zopp sx (Z.pos mx)) * p2 ex /
           (IZR (cond_Zopp sy (Z.pos my)) * p2 ey))
    with (signR (xorb sx sy) x)
    by (unfold x; destruct sx, sy; cbn [xorb signR cond_Zopp];
        rewrite ?opp_IZR; field; lra).
  apply rounded_of_magnitude; [exact Hx | ].
  assert (0 <= q)%Z as Hq0.
  { assert (0 < 2 ^ sh)%Z by (apply Z.pow_pos_nonneg; lia). nia. }
  assert (x / p2 e' = IZR q + IZR r / IZR (Z.pos my)) as Ex.
  { assert (IZR m' = IZR (Z.pos my) * IZR q + IZR r) as Hq'
      by (rewrite Hq, plus_IZR, mult_IZR; reflexivity).
    rewrite Em', mult_IZR, <- p2_IZR in Hq' by lia.
    assert (p2 ex = p2 sh * p2 e' * p2 ey) as Epx
      by (rewrite <- !p2_add; f_equal; unfold sh; lia).
    unfold x. rewrite Epx.
    replace (IZR (Z.pos mx) * (p2 sh * p2 e' * p2 ey) /
             (IZR (Z.pos my) * p2 ey) / p2 e')
      with (IZR (Z.pos mx) * p2 sh / IZR (Z.pos my)) by (field; lra).
    rewrite Hq'. field. lra. }
  assert (lies (x / p2 e') (shr_record_of_loc q (new_location (Z.pos my) r)))
    as Hl by (rewrite Ex; now apply new_location_lies).
  apply binary_round_aux_correct; [exact Hx | exact Hq0 | exact Hl | ].
  (* the exponent is not above the grid *)
  assert (p2 (t - 1) <= x) as Hlow.
  { pose proof (digits2_pos_bounds mx) as [H1 _].
    pose proof (digits2_pos_bounds my) as [_ H2]. fold d1 in H1. fold d2 in H2.
    apply IZR_le in H1. apply IZR_lt in H2.
    rewrite <- p2_IZR in H1, H2 by (unfold d1, d2; lia).
    assert (p2 (t - 1) * (p2 d2 * p2 ey) = p2 (d1 - 1) * p2 ex) as E
      by (rewrite <- !p2_add; f_equal; unfold t; lia).
    unfold x. apply Rmult_le_reg_r with (r := IZR (Z.pos my) * p2 ey); [nra | ].
    replace (IZR (Z.pos mx) * p2 ex / (IZR (Z.pos my) * p2 ey) *
             (IZR (Z.pos my) * p2 ey)) with (IZR (Z.pos mx) * p2 ex)
      by (field; lra).
    pose proof (p2_pos (t - 1)). pose proof (p2_pos d2).
    apply Rle_trans with (p2 (t - 1) * (p2 d2 * p2 ey)); [ | nra].
    apply Rmult_le_compat_l; [lra | nra]. }
  pose proof (lies_bounds _ _ Hl) as [Hb1 Hb2].
  replace (shr_m (shr_record_of_loc q (new_location (Z.pos my) r))) with q
    in Hb1, Hb2 by now destruct (new_location (Z.pos my) r) as [ | [ | | ] ].
  assert (IZR q * p2 e' <= x < (IZR q + 1) * p2 e') as Hb.
  { replace x with (x / p2 e' * p2 e') by (field; lra). split; nra. }
  destruct (Z.eq_dec q 0) as [-> | NZ].
  - cbn [Zdigits2]. rewrite Z.add_0_l.
    assert (t - 1 < e')%Z by (apply p2_lt_inv; lra).
    unfold e', SpecFloat.fexp in *. lia.
  - assert (binade x (Zdigits2 q + e')) as Hk
      by (apply Zdigits2_binade; [lia | exact Hb]).
    destruct Hk as [_ Hk]. rewrite Rabs_pos_eq in Hk by lra.
    assert (t - 1 < Zdigits2 q + e')%Z by (apply p2_lt_inv; lra).
    apply Z.le_trans with (fexp t); [unfold e'; lia | ].
    apply fexp_monotone. lia.
Qed.

(** *** Numbers of the format, and their order *)

Lemma valid_representable x :
  SpecFloat.valid_binary prec emax x = true ->
  representable prec emin (SF2R x) /\ Rabs (SF2R x) < p2 emax.
Proof.
  pose proof (p2_pos emax) as Hpm.
  assert (representable prec emin 0) as H0.
  { exists 0%Z, emin. rewrite Rmult_0_l. split; [reflexivity | ].
    split; [ | lia]. change (Z.abs 0) with 0%Z. apply Z.pow_pos_nonneg; lia. }
  destruct x as [ s | s | | s m e ]; cbn [SF2R];
    try (intros _; rewrite Rabs_R0; now split).
  intros V. destruct (valid_mantissa _ _ _ V) as (Hm & He & _).
  apply valid_finite in V. destruct V as [_ Hhi].
  split.
  - exists (cond_Zopp s (Z.pos m)), e. split; [reflexivity | ].
    split; [destruct s; cbn [cond_Zopp]; lia | exact He].
  - pose proof (p2_pos e) as Hpe.
    assert (Rabs (IZR (cond_Zopp s (Z.pos m)) * p2 e) = IZR (Z.pos m) * p2 e)
      as ->.
    { rewrite Rabs_mult, (Rabs_pos_eq (p2 e)) by lra. f_equal.
      destruct s; cbn [cond_Zopp]; rewrite ?opp_IZR, ?Rabs_Ropp;
        apply Rabs_pos_eq; apply IZR_le; lia. }
    assert (Z.pos m + 1 <= 2 ^ prec)%Z as Hm' by lia.
    apply IZR_le in Hm'. rewrite plus_IZR, <- p2_IZR in Hm' by lia.
    assert (p2 (prec + e) <= p2 emax) as Hle by (apply p2_le; lia).
    rewrite p2_add in Hle. pose proof (p2_pos prec). nra.
Qed.

(** A number of the format is its own rounding. *)
Lemma rounded_self x :
  SpecFloat.valid_binary prec emax x = true -> sf_finite x = true ->
  rounded prec emax (SF2R x) x.
Proof.
  intros V F. destruct (valid_representable x V) as [R B].
  exists (SF2R x). split; [now apply rounds_to_representable | ].
  left. auto.
Qed.

Lemma canonical_lt s1 m1 e1 s2 m2 e2 :
  SpecFloat.valid_binary prec emax (S754_finite s1 m1 e1) = true ->
  SpecFloat.valid_binary prec emax (S754_finite s2 m2 e2) = true ->
  (e1 < e2)%Z -> IZR (Z.pos m1) * p2 e1 < IZR (Z.pos m2) * p2 e2.
Proof.
  intros V1 V2 H.
  destruct (valid_mantissa _ _ _ V1) as (Hm1 & He1 & _).
  destruct (valid_mantissa _ _ _ V2) as (_ & _ & C2).
  assert (Z.pos (digits2_pos m2) = prec) as Hd by lia.
  pose proof (digits2_pos_bounds m2) as [Hlo _]. rewrite Hd in Hlo.
  apply IZR_lt in Hm1. apply IZR_le in Hlo.
  rewrite <- p2_IZR in Hm1, Hlo by lia.
  pose proof (p2_pos e1). pose proof (p2_pos e2).
  assert (p2 (prec + e1) <= p2 (prec - 1 + e2)) as Hle by (apply p2_le; lia).
  rewrite !p2_add in Hle. nra.
Qed.

Lemma Pos_compare_cont_value m1 m2 e :
  match Pos.compare_cont Eq m1 m2 with
  | Lt => IZR (Z.pos m1) * p2 e < IZR (Z.pos m2) * p2 e
  | Eq => IZR (Z.pos m1) * p2 e = IZR (Z.pos m2) * p2 e
  | Gt => IZR (Z.pos m2) * p2 e < IZR (Z.pos m1) * p2 e
  end.
Proof.
  pose proof (p2_pos e). change (Pos.compare_cont Eq m1 m2) with (m1 ?= m2)%positive.
  destruct (Pos.compare_spec m1 m2) as [-> | H1 | H1]; [reflexivity | | ];
    apply Rmult_lt_compat_r; try lra; apply IZR_lt; lia.
Qed.

(** [SFcompare] on numbers of the format is the order of their values. *)
Theorem SFcompare_finite x y :
  SpecFloat.valid_binary prec emax x = true ->
  SpecFloat.valid_binary prec emax y = true ->
  sf_finite x = true -> sf_finite y = true ->
  match SFcompare x y with
  | Some Lt => SF2R x < SF2R y
  | Some Eq => SF2R x = SF2R y
  | Some Gt => SF2R y < SF2R x
  | None => False
  end.
Proof.
  intros Vx Vy Fx Fy.
  assert (forall (s : bool) m e, 0 < IZR (Z.pos m) * p2 e) as Hpos.
  { intros _ m e. pose proof (p2_pos e).
    assert (0 < IZR (Z.pos m)) by (apply IZR_lt; lia). nra. }
  destruct x as [ sx | sx | | sx mx ex ]; try discriminate;
    destruct y as [ sy | sy | | sy my ey ]; try discriminate;
    cbn [SFcompare SF2R].
  - reflexivity.
  - pose proof (Hpos sy my ey).
    destruct sy; cbn [cond_Zopp]; rewrite ?opp_IZR; lra.
  - pose proof (Hpos sx mx ex).
    destruct sx; cbn [cond_Zopp]; rewrite ?opp_IZR; lra.
  - pose proof (Hpos sx mx ex). pose proof (Hpos sy my ey).
    destruct sx, sy; cbn [cond_Zopp]; rewrite ?opp_IZR; try lra.
    + destruct (Z.compare_spec ex ey) as [-> | H1 | H1].
      * pose proof (Pos_compare_cont_value mx my ey) as Hc.
        destruct (Pos.compare_cont Eq mx my); cbn [CompOpp]; lra.
      * pose proof (canonical_lt _ _ _ _ _ _ Vx Vy H1). lra.
      * pose proof (canonical_lt _ _ _ _ _ _ Vy Vx H1). lra.
    + destruct (Z.compare_spec ex ey) as [-> | H1 | H1].
      * apply Pos_compare_cont_value.
      * apply (canonical_lt _ _ _ _ _ _ Vx Vy H1).
      * apply (canonical_lt _ _ _ _ _ _ Vy Vx H1).
Qed.

End Format.

End RoundingFacts.

(** ** The square root *)

Module SqrtFacts.

Import RealValue RealValueFacts RoundingFacts.
Local Open Scope R_scope.

Local Abbreviation sqrt := R_sqrt.sqrt.

Lemma sqrt_p2_twice e : sqrt (p2 (2 * e)) = p2 e.
Proof.
  replace (2 * e)%Z with (e + e)%Z by lia. rewrite p2_add.
  apply sqrt_square. left. apply p2_pos.
Qed.

Lemma sqrt_IZR_square q : (0 <= q)%Z -> sqrt (IZR q * IZR q) = IZR q.
Proof. intros H. apply sqrt_square. apply IZR_le. exact H. Qed.

(** Where the root of [m] lies against its integer root and the
    remainder. *)
Lemma sqrtrem_lies m q r :
  (0 < m)%Z -> Z.sqrtrem m = (q, r) ->
  lies (sqrt (IZR m))
    (shr_record_of_loc q
       (if (r =? 0)%Z then loc_Exact
        else loc_Inexact (if (r <=? q)%Z then Lt else Gt))).
Proof.
  intros Hm E. pose proof (Z.sqrtrem_spec m ltac:(lia)) as S.
  rewrite E in S. destruct S as [Em [Hr0 Hr] ].
  assert (0 <= q)%Z as Hq by lia.
  assert (IZR m = IZR q * IZR q + IZR r) as EM
    by (rewrite Em, plus_IZR, mult_IZR; reflexivity).
  pose proof (IZR_le _ _ Hq) as Hq'. pose proof (IZR_le _ _ Hr0) as Hr0'.
  assert (IZR r <= 2 * IZR q) as Hr'
    by (apply IZR_le in Hr; rewrite mult_IZR in Hr; exact Hr).
  destruct (Z.eqb_spec r 0) as [-> | NZ].
  - apply lies_exact. rewrite EM, Rplus_0_r. now apply sqrt_IZR_square.
  - assert (1 <= IZR r) as Hr1 by (apply IZR_le; lia).
    assert (IZR q < sqrt (IZR m)) as Hlow.
    { rewrite <- (sqrt_IZR_square q Hq) at 1. apply sqrt_lt_1_alt. nra. }
    destruct (Z.leb_spec r q) as [Hle | Hgt];
      unfold lies; cbn [shr_record_of_loc shr_m shr_r shr_s].
    + split; [exact Hlow | ].
      apply IZR_le in Hle.
      rewrite <- (sqrt_square (IZR q + / 2)) by lra.
      apply sqrt_lt_1_alt. nra.
    + assert (IZR q + 1 <= IZR r) as Hgt'
        by (rewrite <- plus_IZR; apply IZR_le; lia).
      split.
      * rewrite <- (sqrt_square (IZR q + / 2)) at 1 by lra.
        apply sqrt_lt_1_alt. nra.
      * rewrite <- (sqrt_square (IZR q + 1)) by lra.
        apply sqrt_lt_1_alt. nra.
Qed.

Section Format.

Variables prec emax : Z.
Hypothesis prec_pos : (0 < prec)%Z.
Hypothesis prec_lt_emax : (prec < emax)%Z.

Local Abbreviation emin := (SpecFloat.emin prec emax).
Local Abbreviation fexp := (SpecFloat.fexp prec emax).

(** The root of a positive number, as [SFsqrt] computes it, is the exact
    root rounded. *)
Theorem SFsqrt_finite m e :
  rounded prec emax (sqrt (SF2R (S754_finite false m e)))
    (SFsqrt prec emax (S754_finite false m e)).
Proof.
  cbn [SFsqrt SF2R cond_Zopp]. unfold SFsqrt_core_binary.
  set (d := Zdigits2 (Z.pos m)).
  set (k := Z.div2 (d + e + 1)).
  set (e' := Z.min (fexp k) (Z.div2 e)).
  set (s := (e - 2 * e')%Z).
  assert (2 * k <= d + e + 1)%Z as Hk.
  { unfold k. rewrite Z.div2_div. apply Z.mul_div_le. lia. }
  assert (e' <= fexp k)%Z as He1 by apply Z.le_min_l.
  assert (2 * e' <= e)%Z as He2.
  { pose proof (Z.le_min_r (fexp k) (Z.div2 e)) as H1. fold e' in H1.
    rewrite Z.div2_div in H1.
    pose proof (Z.mul_div_le e 2 ltac:(lia)) as H2. lia. }
  clearbody e' k.
  assert (0 <= s)%Z as Hs by (unfold s; lia).
  set (m' := match s with
             | 0%Z => Z.pos m
             | Z.pos _ => Z.shiftl (Z.pos m) s
             | Z.neg _ => 0%Z
             end).
  assert (m' = Z.pos m * 2 ^ s)%Z as Em'.
  { unfold m'. clearbody s. destruct s as [ | p | p ].
    - rewrite Z.pow_0_r. lia.
    - now rewrite Z.shiftl_mul_pow2 by lia.
    - lia. }
  clearbody m'.
  assert (0 < 2 ^ s)%Z as Hps by (apply Z.pow_pos_nonneg; lia).
  assert (0 < m')%Z as Hm' by nia.
  pose proof (sqrtrem_lies m') as HL.
  pose proof (Z.sqrtrem_spec m' ltac:(lia)) as HS.
  destruct (Z.sqrtrem m') as [q r]. specialize (HL q r Hm' eq_refl).
  destruct HS as [Eq [Hr0 Hr] ].
  set (x := sqrt (IZR (Z.pos m) * p2 e)).
  pose proof (p2_pos e) as Hpe. pose proof (p2_pos e') as Hpe'.
  assert (0 < IZR (Z.pos m)) as Hm by (apply IZR_lt; lia).
  assert (0 < x) as Hx by (unfold x; apply sqrt_lt_R0; nra).
  assert (x / p2 e' = sqrt (IZR m')) as Ex.
  { unfold x.
    replace (IZR (Z.pos m) * p2 e) with (IZR m' * p2 (2 * e')).
    - rewrite sqrt_mult_alt by (apply IZR_le; lia).
      rewrite sqrt_p2_twice. field. lra.
    - rewrite Em', mult_IZR, <- p2_IZR, Rmult_assoc, <- p2_add by lia.
      do 2 f_equal. unfold s. lia. }
  change x with (signR false x).
  apply rounded_of_magnitude; [exact Hx | ].
  apply binary_round_aux_correct;
    [exact prec_pos | exact prec_lt_emax | exact Hx | lia
    | rewrite Ex; exact HL | ].
  (* the exponent is not above the grid *)
  destruct (Z_lt_le_dec (k - 1 - e') 0) as [Hneg | Hj].
  - pose proof (fexp_ge_emin prec emax (Zdigits2 q + e')) as H1.
    unfold SpecFloat.fexp in He1. lia.
  - apply Z.le_trans with (fexp k); [exact He1 | ].
    apply fexp_monotone.
    destruct (Zdigits2_bounds (Z.pos m) ltac:(lia)) as [Hd _]. fold d in Hd.
    assert (0 < d)%Z as Hd0 by (apply Zdigits2_pos; lia).
    set (j := (k - 1 - e')%Z) in *.
    assert (2 ^ j * 2 ^ j <= m')%Z as Hj2.
    { rewrite <- Z.pow_add_r by lia. rewrite Em'.
      apply Z.le_trans with (2 ^ (d - 1) * 2 ^ s)%Z; [ | nia].
      rewrite <- Z.pow_add_r by lia.
      apply Z.pow_le_mono_r; [lia | ]. unfold j, s. lia. }
    assert (0 < 2 ^ j)%Z as Hpj by (apply Z.pow_pos_nonneg; lia).
    assert (2 ^ j <= q)%Z as Hq by nia.
    assert (0 < q)%Z as Hq0 by lia.
    destruct (Zdigits2_bounds q Hq0) as [_ Hdq].
    assert (j < Zdigits2 q)%Z
      by (apply (Z.pow_lt_mono_r_iff 2); [lia | | lia];
          pose proof (Zdigits2_pos q Hq0); lia).
    unfold j in *. lia.
Qed.

End Format.

End SqrtFacts.

(** * Binary64: the operations of the code on real numbers *)

Module DoubleFacts.

Import RealValue RealValueFacts RoundingFacts.
Local Open Scope R_scope.

Local Abbreviation rounded64 := (rounded prec emax).
Local Abbreviation rounds64 := (rounds_to prec (SpecFloat.emin prec emax)).

Lemma prec_pos : (0 < prec)%Z.
Proof. reflexivity. Qed.

Lemma prec_lt_emax : (prec < emax)%Z.
Proof. reflexivity. Qed.

Lemma finite_cases x :
  finite x = true ->
  (exists s, Prim2SF x = S754_zero s) \/
  (exists s m e, Prim2SF x = S754_finite s m e).
Proof.
  unfold finite. destruct (Prim2SF x) as [ s | s | | s m e ];
    try discriminate; intros _; [left | right]; eauto.
Qed.

Lemma value_representable x :
  representable prec (SpecFloat.emin prec emax) (value x) /\
  Rabs (value x) < p2 emax.
Proof.
  apply (valid_representable prec emax prec_pos).
  apply Prim2SF_valid.
Qed.

Theorem mul_rounded x y :
  finite x = true -> finite y = true ->
  rounded64 (value x * value y) (Prim2SF (x * y)).
Proof.
  unfold finite, value. rewrite mul_spec.
  pose proof (Prim2SF_valid x) as Vx. pose proof (Prim2SF_valid y) as Vy.
  destruct (Prim2SF x) as [ sx | sx | | sx mx ex ]; try discriminate;
    destruct (Prim2SF y) as [ sy | sy | | sy my ey ]; try discriminate;
    intros _ _.
  - cbn [SF2R]. rewrite Rmult_0_l. apply rounded_zero.
  - cbn [SF2R]. rewrite Rmult_0_l. apply rounded_zero.
  - cbn [SF2R]. rewrite Rmult_0_r. apply rounded_zero.
  - now apply (SFmul_finite prec emax prec_pos prec_lt_emax).
Qed.

Theorem div_rounded x y :
  finite x = true -> finite y = true -> value y <> 0 ->
  rounded64 (value x / value y) (Prim2SF (x / y)).
Proof.
  unfold finite, value. rewrite div_spec.
  destruct (Prim2SF x) as [ sx | sx | | sx mx ex ]; try discriminate;
    destruct (Prim2SF y) as [ sy | sy | | sy my ey ]; try discriminate;
    intros _ _ NZ; try (now elim NZ).
  - cbn [SF2R]. unfold Rdiv. rewrite Rmult_0_l. apply rounded_zero.
  - apply (SFdiv_finite prec emax prec_pos prec_lt_emax).
Qed.

Theorem add_rounded x y :
  finite x = true -> finite y = true ->
  rounded64 (value x + value y) (Prim2SF (x + y)).
Proof.
  unfold finite, value. rewrite add_spec.
  pose proof (Prim2SF_valid x) as Vx. pose proof (Prim2SF_valid y) as Vy.
  destruct (Prim2SF x) as [ sx | sx | | sx mx ex ]; try discriminate;
    destruct (Prim2SF y) as [ sy | sy | | sy my ey ]; try discriminate;
    intros _ _.
  - replace (SF2R (S754_zero sx) + SF2R (S754_zero sy)) with 0
      by (cbn [SF2R]; ring).
    destruct sx, sy; apply rounded_zero.
  - replace (SF2R (S754_zero sx) + SF2R (S754_finite sy my ey))
      with (SF2R (S754_finite sy my ey)) by (cbn [SF2R]; ring).
    now apply (rounded_self prec emax prec_pos).
  - replace (SF2R (S754_finite sx mx ex) + SF2R (S754_zero sy))
      with (SF2R (S754_finite sx mx ex)) by (cbn [SF2R]; ring).
    now apply (rounded_self prec emax prec_pos).
  - apply (SFadd_finite prec emax prec_pos prec_lt_emax).
Qed.

Theorem sub_rounded x y :
  finite x = true -> finite y = true ->
  rounded64 (value x - value y) (Prim2SF (x - y)).
Proof.
  unfold finite, value. rewrite sub_spec.
  pose proof (Prim2SF_valid x) as Vx. pose proof (Prim2SF_valid y) as Vy.
  destruct (Prim2SF x) as [ sx | sx | | sx mx ex ]; try discriminate;
    destruct (Prim2SF y) as [ sy | sy | | sy my ey ]; try discriminate;
    intros _ _.
  - replace (SF2R (S754_zero sx) - SF2R (S754_zero sy)) with 0
      by (cbn [SF2R]; ring).
    destruct sx, sy; apply rounded_zero.
  - replace (SF2R (S754_zero sx) - SF2R (S754_finite sy my ey))
      with (SF2R (S754_finite (negb sy) my ey))
      by (cbn [SF2R]; destruct sy; cbn [negb cond_Zopp];
          rewrite ?opp_IZR; ring).
    apply (rounded_self prec emax prec_pos); [ | reflexivity].
    exact Vy.
  - replace (SF2R (S754_finite sx mx ex) - SF2R (S754_zero sy))
      with (SF2R (S754_finite sx mx ex)) by (cbn [SF2R]; ring).
    now apply (rounded_self prec emax prec_pos).
  - apply (SFsub_finite prec emax prec_pos prec_lt_emax).
Qed.

(** ** Reading a result *)

Lemma rounded_value X z x :
  rounded64 X z -> Prim2SF x = z -> finite x = true -> rounds64 X (value x).
Proof.
  intros (Y & HY & H) <- F. unfold value, finite in *.
  destruct H as [ (_ & _ & <-) | [ [_ E] | [_ E] ] ];
    [exact HY | | ]; rewrite E in F; discriminate.
Qed.

(** No overflow below a bound the format holds. *)
Lemma rounded_finite X z B :
  rounded64 X z -> representable prec (SpecFloat.emin prec emax) B ->
  B < p2 emax -> Rabs X <= B ->
  sf_finite z = true /\ rounds64 X (SF2R z).
Proof.
  intros (Y & HY & H) RB HB HX.
  assert (representable prec (SpecFloat.emin prec emax) (- B)) as RB'.
  { destruct RB as (M & E & -> & HM & HE). exists (- M)%Z, E.
    rewrite opp_IZR. split; [ring | ]. split; [lia | exact HE]. }
  apply Rabs_le_both in HX.
  pose proof (rounds_to_below prec _ prec_pos B X Y RB ltac:(lra) HY).
  pose proof (rounds_to_above prec _ prec_pos (- B) X Y RB' ltac:(lra) HY).
  destruct H as [ (_ & F & <-) | [ [Hge _] | [Hle _] ] ]; [auto | lra | lra].
Qed.

(** ** The order *)

Lemma compare_value x y :
  finite x = true -> finite y = true ->
  match SFcompare (Prim2SF x) (Prim2SF y) with
  | Some Lt => value x < value y
  | Some Eq => value x = value y
  | Some Gt => value y < value x
  | None => False
  end.
Proof.
  intros Fx Fy.
  apply (SFcompare_finite prec emax prec_pos);
    try apply Prim2SF_valid; assumption.
Qed.

Lemma ltb_value x y :
  finite x = true -> finite y = true ->
  (x <? y)%float = true <-> value x < value y.
Proof.
  intros Fx Fy. pose proof (compare_value x y Fx Fy) as H.
  pose proof (FloatAxioms.ltb_spec x y) as E. unfold SFltb in E.
  destruct (SFcompare (Prim2SF x) (Prim2SF y)) as [ [ | | ] | ];
    try contradiction; rewrite E; split; intros;
    (reflexivity || discriminate || lra).
Qed.


Lemma eqb_value x y :
  finite x = true -> finite y = true ->
  (x =? y)%float = true <-> value x = value y.
Proof.
  intros Fx Fy. pose proof (compare_value x y Fx Fy) as H.
  pose proof (FloatAxioms.eqb_spec x y) as E. unfold SFeqb in E.
  destruct (SFcompare (Prim2SF x) (Prim2SF y)) as [ [ | | ] | ];
    try contradiction; rewrite E; split; intros;
    (reflexivity || discriminate || lra).
Qed.

End DoubleFacts.

(** * Doubles that hold integers *)

Module IntegerFacts.

Import JSFloat RealValue RealValueFacts RoundingFacts DoubleFacts.
Local Open Scope R_scope.

Local Abbreviation rounded64 := (rounded prec emax).
Local Abbreviation rounds64 := (rounds_to prec (SpecFloat.emin prec emax)).
Local Abbreviation representable64 :=
  (representable prec (SpecFloat.emin prec emax)).

Lemma representable_int z : (Z.abs z <= 2 ^ 53)%Z -> representable64 (IZR z).
Proof.
  intros H. destruct (Z.eq_dec (Z.abs z) (2 ^ 53)) as [E | NE].
  - exists (z / 2)%Z, 1%Z. split; [ | split; [ | discriminate] ].
    + rewrite p2_1, <- mult_IZR. f_equal.
      assert (z = 2 ^ 53 \/ z = - 2 ^ 53)%Z as [-> | ->] by lia; reflexivity.
    + assert (z = 2 ^ 53 \/ z = - 2 ^ 53)%Z as [-> | ->] by lia; reflexivity.
  - exists z, 0%Z. rewrite p2_0, Rmult_1_r. split; [reflexivity | ].
    split; [change prec with 53%Z; lia | discriminate].
Qed.

Lemma int_below_emax z : (Z.abs z <= 2 ^ 53)%Z -> Rabs (IZR z) < p2 emax.
Proof.
  intros H. rewrite <- abs_IZR. apply Rle_lt_trans with (IZR (2 ^ 53)).
  - now apply IZR_le.
  - rewrite <- p2_IZR by lia. apply p2_lt. reflexivity.
Qed.

(** An exact result the format holds is the result. *)
Lemma rounded_exact X z :
  rounded64 X z -> representable64 X -> Rabs X < p2 emax ->
  sf_finite z = true /\ SF2R z = X.
Proof.
  intros (Y & HY & H) RX HX.
  apply (rounds_to_exact prec _ prec_pos X Y RX) in HY. subst Y.
  destruct H as [ (_ & F & E) | [ [H _] | [H _] ] ]; [auto | | ];
    apply Rabs_def2 in HX; lra.
Qed.

Lemma value_opp x : value (- x)%float = - value x.
Proof.
  unfold value. rewrite opp_spec.
  destruct (Prim2SF x) as [ s | s | | s m e ]; cbn [SFopp SF2R]; try ring.
  destruct s; cbn [negb cond_Zopp]; rewrite ?opp_IZR; ring.
Qed.

Lemma finite_opp x : finite (- x)%float = finite x.
Proof.
  unfold finite. rewrite opp_spec. now destruct (Prim2SF x).
Qed.

Lemma of_uint63_value z :
  (0 <= z <= 2 ^ 53)%Z ->
  finite (of_uint63 (Uint63.of_Z z)) = true /\
  value (of_uint63 (Uint63.of_Z z)) = IZR z.
Proof.
  intros Hz. unfold finite, value.
  rewrite of_uint63_spec, Uint63.of_Z_spec.
  rewrite Z.mod_small by (change Uint63.wB with (2 ^ 63)%Z; lia).
  apply rounded_exact.
  - replace (IZR z) with (IZR z * p2 0) by (rewrite p2_0; ring).
    apply (binary_normalize_correct prec emax prec_pos prec_lt_emax).
  - apply representable_int. lia.
  - apply int_below_emax. lia.
Qed.

Theorem of_Z_value z :
  (Z.abs z <= 2 ^ 53)%Z ->
  finite (of_Z z) = true /\ value (of_Z z) = IZR z.
Proof.
  intros Hz. unfold of_Z. destruct (Z.ltb_spec z 0) as [Hneg | Hpos].
  - rewrite finite_opp, value_opp.
    destruct (of_uint63_value (- z) ltac:(lia)) as [F V].
    split; [exact F | ]. rewrite V, opp_IZR. ring.
  - apply of_uint63_value. lia.
Qed.

(** ** Equal values, equal numbers *)

Lemma SFcompare_same s1 m1 e1 s2 m2 e2 :
  SFcompare (S754_finite s1 m1 e1) (S754_finite s2 m2 e2) = Some Eq ->
  S754_finite s1 m1 e1 = S754_finite s2 m2 e2.
Proof.
  cbn [SFcompare]. destruct s1, s2; try discriminate;
    destruct (Z.compare_spec e1 e2) as [-> | H | H]; try discriminate;
    intros H; injection H as H.
  - apply CompOpp_iff in H. cbn [CompOpp] in H.
    change (Pos.compare_cont Eq m1 m2) with (m1 ?= m2)%positive in H.
    apply Pos.compare_eq in H. now subst.
  - change (Pos.compare_cont Eq m1 m2) with (m1 ?= m2)%positive in H.
    apply Pos.compare_eq in H. now subst.
Qed.

Lemma nonzero_mantissa x :
  finite x = true -> value x <> 0 ->
  exists s m e, Prim2SF x = S754_finite s m e.
Proof.
  unfold finite, value. destruct (Prim2SF x) as [ s | s | | s m e ];
    try discriminate; cbn [SF2R]; intros _ H; [now elim H | eauto].
Qed.

Theorem value_inj x y :
  finite x = true -> finite y = true -> value x = value y -> value x <> 0 ->
  x = y.
Proof.
  intros Fx Fy E NZ. apply Prim2SF_inj.
  pose proof (compare_value x y Fx Fy) as H.
  destruct (nonzero_mantissa x Fx NZ) as (s1 & m1 & e1 & E1).
  destruct (nonzero_mantissa y Fy ltac:(congruence)) as (s2 & m2 & e2 & E2).
  rewrite E1, E2 in *.
  destruct (SFcompare (S754_finite s1 m1 e1) (S754_finite s2 m2 e2))
    as [ [ | | ] | ] eqn:C; try contradiction; try lra.
  now apply SFcompare_same.
Qed.

(** A number with an integer value is the conversion of the integer. *)
Lemma value_of_Z x z :
  finite x = true -> value x = IZR z -> z <> 0%Z -> (Z.abs z <= 2 ^ 53)%Z ->
  x = of_Z z.
Proof.
  intros F V NZ B. destruct (of_Z_value z B) as [F' V'].
  apply value_inj; try assumption; [congruence | ].
  rewrite V. intros H. apply eq_IZR in H. contradiction.
Qed.

(** ** Error bounds in binary64 *)

Lemma rounds64_error X Y :
  rounds64 X Y -> Rabs (Y - X) <= p2 (-53) * Rabs X + p2 (-1075).
Proof.
  intros H. pose proof (p2_pos (-53)). pose proof (p2_pos (-1075)).
  destruct (Req_dec X 0) as [-> | NZ].
  - apply (rounds_to_0 prec) in H. subst Y.
    rewrite Rminus_0_r, Rabs_R0. lra.
  - destruct (binade_exists X NZ) as [k Hk].
    pose proof (Rabs_pos X).
    destruct (Z_le_gt_dec (SpecFloat.emin prec emax) (k - prec)) as [Hn | Hs].
    + pose proof (rounds_to_relative prec _ X Y k Hk Hn H) as E.
      change (- prec)%Z with (-53)%Z in E. lra.
    + pose proof (rounds_to_error prec _ X Y k Hk H) as E.
      replace (grid prec (SpecFloat.emin prec emax) k - 1)%Z with (-1075)%Z
        in E by (unfold grid; change (SpecFloat.emin prec emax) with (-1074)%Z in *; lia).
      nra.
Qed.


(** ** [Math.round] *)

Lemma finite_value_cases x :
  finite x = true ->
  (value x = 0 /\ exists s, Prim2SF x = S754_zero s) \/
  (exists s m e, Prim2SF x = S754_finite s m e /\
                 value x = IZR (cond_Zopp s (Z.pos m)) * p2 e).
Proof.
  unfold finite, value. destruct (Prim2SF x) as [ s | s | | s m e ];
    try discriminate; intros _; [left | right]; cbn [SF2R]; eauto.
Qed.

Lemma valid_mantissa64 x s m e :
  Prim2SF x = S754_finite s m e ->
  (Z.pos m < 2 ^ 53)%Z /\ (-1074 <= e <= 971)%Z.
Proof.
  intros E. pose proof (Prim2SF_valid x) as V. rewrite E in V.
  destruct (valid_mantissa prec emax _ _ _ V) as (Hm & He & _).
  apply valid_finite in V. destruct V as [_ Hhi].
  change (SpecFloat.emin prec emax) with (-1074)%Z in He.
  change (emax - prec)%Z with 971%Z in Hhi. change prec with 53%Z in Hm.
  auto.
Qed.

Theorem Math_round_value x :
  finite x = true ->
  finite (NoteMathDouble.Math_round x) = true /\
  value (NoteMathDouble.Math_round x) = IZR (Zfloor (value x + / 2)).
Proof.
  intros F. unfold NoteMathDouble.Math_round.
  destruct (finite_value_cases x F) as [ [V (s & E)] | (s & m & e & E & V) ].
  { rewrite E. split; [exact F | ]. rewrite V, Rplus_0_l.
    symmetry. f_equal. apply Zfloor_eq. cbn. lra. }
  rewrite E. destruct (valid_mantissa64 x s m e E) as [Hm He].
  destruct (Z.leb_spec 0 e) as [Hp | Hn].
  - split; [exact F | ]. rewrite V.
    rewrite p2_IZR, <- mult_IZR by lia.
    symmetry. f_equal. apply Zfloor_eq. lra.
  - set (k := (- e)%Z). set (n := cond_Zopp s (Z.pos m)).
    replace (if s then Z.neg m else Z.pos m) with n
      by (unfold n; now destruct s).
    rewrite Z.shiftr_div_pow2 by (unfold k; lia).
    set (z := ((n + 2 ^ (k - 1)) / 2 ^ k)%Z).
    assert (0 < 2 ^ k)%Z as Hk by (apply Z.pow_pos_nonneg; unfold k; lia).
    assert (2 ^ k = 2 * 2 ^ (k - 1))%Z as Hk2.
    { replace k with (Z.succ (k - 1)) at 1 by lia.
      rewrite Z.pow_succ_r by (unfold k; lia). reflexivity. }
    assert (Zfloor (value x + / 2) = z) as Ez.
    { apply Zfloor_eq. rewrite V. fold n.
      replace e with (- k)%Z by (unfold k; lia).
      pose proof (Z.div_mod (n + 2 ^ (k - 1)) (2 ^ k) ltac:(lia)) as Hd.
      pose proof (Z.mod_pos_bound (n + 2 ^ (k - 1)) (2 ^ k) Hk) as Hr.
      fold z in Hd.
      set (r := ((n + 2 ^ (k - 1)) mod 2 ^ k)%Z) in *.
      assert (IZR n = IZR (2 ^ k) * IZR z + IZR r - IZR (2 ^ (k - 1))) as En.
      { rewrite <- mult_IZR, <- plus_IZR, <- minus_IZR. f_equal. lia. }
      assert (IZR (2 ^ k) = 2 * IZR (2 ^ (k - 1))) as Ek
        by (rewrite Hk2 at 1; now rewrite mult_IZR).
      assert (p2 (- k) = / IZR (2 ^ k)) as Ep.
      { unfold p2. rewrite powerRZ_neg'. f_equal.
        change (powerRZ 2 k) with (p2 k). apply p2_IZR. unfold k; lia. }
      rewrite Ep, En.
      assert (0 < IZR (2 ^ (k - 1))) as Hq by (apply IZR_lt; lia).
      destruct Hr as [Hr0 Hr1]. apply IZR_le in Hr0. apply IZR_lt in Hr1.
      rewrite Ek in *.
      split.
      + apply Rmult_le_reg_r with (r := 2 * IZR (2 ^ (k - 1))); [lra | ].
        field_simplify; lra.
      + apply Rmult_lt_reg_r with (r := 2 * IZR (2 ^ (k - 1))); [lra | ].
        field_simplify; lra. }
    rewrite Ez.
    destruct (Z.eqb_spec z 0) as [-> | NZ].
    + split; [now destruct s | now destruct s].
    + apply of_Z_value.
      assert (Z.abs n < 2 ^ 53)%Z by (unfold n; destruct s; cbn; lia).
      assert (- 2 ^ 53 <= z <= 2 ^ 53)%Z; [ | lia].
      assert (0 < 2 ^ (k - 1))%Z by (apply Z.pow_pos_nonneg; unfold k; lia).
      split.
      * apply Z.div_le_lower_bound; lia.
      * apply Z.div_le_upper_bound; nia.
Qed.

Corollary Math_round_int x z :
  finite x = true -> IZR z - / 2 <= value x < IZR z + / 2 ->
  z <> 0%Z -> (Z.abs z <= 2 ^ 53)%Z ->
  NoteMathDouble.Math_round x = of_Z z.
Proof.
  intros F H NZ B. destruct (Math_round_value x F) as [F' V'].
  apply value_of_Z; try assumption.
  rewrite V'. f_equal. apply Zfloor_eq. lra.
Qed.

(** ** One operation, with its error *)

Lemma representable_p2 b :
  (-1074 <= b)%Z -> representable64 (p2 b).
Proof.
  intros H. exists 1%Z, b. split; [ring | ]. split; [reflexivity | exact H].
Qed.

Lemma rounded_step X z b :
  rounded64 X z -> (-1074 <= b <= 1023)%Z -> Rabs X <= p2 b ->
  sf_finite z = true /\ Rabs (SF2R z) <= p2 b /\
  Rabs (SF2R z - X) <= p2 (-53) * Rabs X + p2 (-1075).
Proof.
  intros R Hb HX.
  assert (p2 b < p2 emax) as Hlt by (apply p2_lt; change emax with 1024%Z; lia).
  destruct (rounded_finite X z (p2 b) R (representable_p2 b ltac:(lia)) Hlt HX)
    as [F H].
  split; [exact F | ]. split; [ | now apply rounds64_error].
  apply Rabs_le_both in HX. apply Rabs_le_of.
  assert (representable64 (- p2 b)) as RB'.
  { exists (-1)%Z, b. split; [ring | ]. split; [reflexivity | ].
    change (SpecFloat.emin prec emax) with (-1074)%Z. lia. }
  split.
  - apply (rounds_to_above prec (SpecFloat.emin prec emax) prec_pos (- p2 b) X);
      [exact RB' | lra | exact H].
  - apply (rounds_to_below prec (SpecFloat.emin prec emax) prec_pos (p2 b) X);
      [apply representable_p2; lia | lra | exact H].
Qed.

Lemma mul_step x y b :
  finite x = true -> finite y = true -> (-1074 <= b <= 1023)%Z ->
  Rabs (value x * value y) <= p2 b ->
  finite (x * y) = true /\ Rabs (value (x * y)) <= p2 b /\
  Rabs (value (x * y) - value x * value y)
    <= p2 (-53) * Rabs (value x * value y) + p2 (-1075).
Proof.
  intros Fx Fy Hb H. apply rounded_step; [now apply mul_rounded | lia | exact H].
Qed.

Lemma add_step x y b :
  finite x = true -> finite y = true -> (-1074 <= b <= 1023)%Z ->
  Rabs (value x + value y) <= p2 b ->
  finite (x + y) = true /\ Rabs (value (x + y)) <= p2 b /\
  Rabs (value (x + y) - (value x + value y))
    <= p2 (-53) * Rabs (value x + value y) + p2 (-1075).
Proof.
  intros Fx Fy Hb H. apply rounded_step; [now apply add_rounded | lia | exact H].
Qed.

Lemma div_step x y b :
  finite x = true -> finite y = true -> value y <> 0 ->
  (-1074 <= b <= 1023)%Z -> Rabs (value x / value y) <= p2 b ->
  finite (x / y) = true /\ Rabs (value (x / y)) <= p2 b /\
  Rabs (value (x / y) - value x / value y)
    <= p2 (-53) * Rabs (value x / value y) + p2 (-1075).
Proof.
  intros Fx Fy NZ Hb H.
  apply rounded_step; [now apply div_rounded | lia | exact H].
Qed.




(** An integer result is exact. *)
Lemma sub_int x y a b :
  finite x = true -> finite y = true ->
  value x = IZR a -> value y = IZR b -> (Z.abs (a - b) <= 2 ^ 53)%Z ->
  finite (x - y) = true /\ value (x - y) = IZR (a - b).
Proof.
  intros Fx Fy Vx Vy H.
  pose proof (sub_rounded x y Fx Fy) as R. rewrite Vx, Vy, <- minus_IZR in R.
  apply (rounded_exact _ _ R); [now apply representable_int | ].
  now apply int_below_emax.
Qed.

Lemma literal_value z :
  (Z.abs z <= 2 ^ 53)%Z -> finite (of_Z z) = true /\ value (of_Z z) = IZR z.
Proof. apply of_Z_value. Qed.

End IntegerFacts.

(** * The smoother *)

Module SmootherFacts.

Import JSFloat Estimator Smoother FloatFacts.
Open Scope float_scope.

(** A frequency within the search range is a positive finite number, and
    not a tiny one. *)
Lemma in_range_finite f :
  in_range (Some f) = true ->
  exists m e, Prim2SF f = S754_finite false m e /\ (-46 <= e)%Z.
Proof.
  unfold in_range, MIN_FREQUENCY, MAX_FREQUENCY. rewrite !leb_spec.
  change (Prim2SF 80) with (S754_finite false 5629499534213120 (-46)).
  change (Prim2SF 1500) with (S754_finite false 6597069766656000 (-42)).
  intros H. apply andb_prop in H. destruct H as [Hlo Hhi].
  destruct (Prim2SF f) as [ [ | ] | [ | ] | | [ | ] m e ];
    try discriminate.
  exists m, e. split; [reflexivity | ].
  unfold SFleb, SFcompare in Hlo.
  destruct (Z.compare_spec (-46) e); try lia; discriminate.
Qed.

Lemma in_range_pos f :
  in_range (Some f) = true -> sf_pos (Prim2SF f) = true.
Proof.
  intros H. destruct (in_range_finite f H) as (m & e & Hf & _).
  now rewrite Hf.
Qed.

Lemma smooth_first f :
  in_range (Some f) = true -> smooth initial (Some f) = f.
Proof.
  intros H. unfold smooth.
  pose proof (pos_truthy f (in_range_pos f H)) as Ht.
  unfold truthy in Ht. apply negb_true_iff in Ht. rewrite Ht.
  reflexivity.
Qed.

Lemma blend_pos f s :
  in_range (Some f) = true -> sf_pos (Prim2SF s) = true ->
  sf_pos (Prim2SF (0.2 * f + 0.8 * s)) = true.
Proof.
  intros Hf Hs. destruct (in_range_finite f Hf) as (m & e & Hm & He).
  apply add_pos.
  - apply (mul_pos 0.2 f 7205759403792794 (-55) m e);
      [reflexivity | exact Hm | unfold SpecFloat.emin, prec, emax; lia].
  - apply (mul_nonneg 0.8 s 7205759403792794 (-53)); [reflexivity | exact Hs].
Qed.

Lemma smooth_later f s :
  in_range (Some f) = true -> sf_pos (Prim2SF s) = true ->
  smooth s (Some f) = 0.2 * f + 0.8 * s.
Proof.
  intros Hf Hs. unfold smooth.
  pose proof (pos_truthy f (in_range_pos f Hf)) as Ht.
  unfold truthy in Ht. apply negb_true_iff in Ht. rewrite Ht.
  rewrite (pos_truthy s Hs). reflexivity.
Qed.

Lemma run_snoc estimates e :
  run (estimates ++ [e]) = smooth (run estimates) e.
Proof. unfold run. now rewrite fold_left_app. Qed.

Lemma heard_snoc estimates e :
  heard (estimates ++ [e]) =
  heard estimates || match e with Some _ => true | None => false end.
Proof. unfold heard. rewrite existsb_app. simpl. now rewrite orb_false_r. Qed.

(** The state is [initial] until an estimate arrives, and a positive
    number ever after. *)
Lemma run_invariant estimates :
  forallb in_range estimates = true ->
  if heard estimates then sf_pos (Prim2SF (run estimates)) = true
  else run estimates = initial.
Proof.
  induction estimates as [ | e estimates IH ] using rev_ind; intros H.
  - reflexivity.
  - rewrite forallb_app in H. apply andb_prop in H. destruct H as [H He].
    simpl in He. rewrite andb_true_r in He. specialize (IH H).
    rewrite heard_snoc, run_snoc.
    destruct e as [ f | ].
    + rewrite orb_true_r.
      destruct (heard estimates).
      * rewrite smooth_later by assumption. now apply blend_pos.
      * rewrite IH, smooth_first by assumption. now apply in_range_pos.
    + rewrite orb_false_r. exact IH.
Qed.

Lemma spec_run_snoc estimates e :
  spec_run (estimates ++ [e]) = spec_step (spec_run estimates) e.
Proof. unfold spec_run. now rewrite fold_left_app. Qed.

(** The specified state is defined exactly when an estimate was heard,
    and then it is the number [smoothedFreq] holds. *)
Lemma spec_run_tracks estimates :
  forallb in_range estimates = true ->
  spec_run estimates =
  if heard estimates then Some (run estimates) else None.
Proof.
  induction estimates as [ | e estimates IH ] using rev_ind; intros H.
  - reflexivity.
  - rewrite forallb_app in H. apply andb_prop in H. destruct H as [H He].
    simpl in He. rewrite andb_true_r in He.
    pose proof (run_invariant estimates H) as Inv. specialize (IH H).
    rewrite spec_run_snoc, heard_snoc, run_snoc, IH.
    destruct e as [ f | ]; simpl spec_step.
    + rewrite orb_true_r. destruct (heard estimates).
      * now rewrite smooth_later.
      * now rewrite Inv, smooth_first.
    + rewrite orb_false_r. now destruct (heard estimates).
Qed.

(** X2. The run of [loop] refines the specified smoother: what the
    orchestrator reads is the specified state, 0 while it is undefined. *)
Theorem run_refines_spec (estimates : list (option float)) :
  forallb in_range estimates = true ->
  run estimates = exposed (spec_run estimates).
Proof.
  intros H. rewrite (spec_run_tracks estimates H).
  pose proof (run_invariant estimates H) as Inv.
  destruct (heard estimates); [reflexivity | exact Inv].
Qed.

Lemma run_refines_spec_witness :
  forallb in_range [Some 100; None; Some 200] = true /\
  run [Some 100; None; Some 200] = exposed (spec_run [Some 100; None; Some 200]).
Proof.
  split; [reflexivity | apply (run_refines_spec [Some 100; None; Some 200]); reflexivity].
Defined.

End SmootherFacts.

(** * The estimator *)

Module EstimatorFacts.

Import JSFloat Estimator FloatFacts.
Open Scope float_scope.

Lemma interpolate_range_test c maxPos sampleRate :
  exists freq, interpolate c maxPos sampleRate = range_test freq /\
    freq = sampleRate /
      (of_Z maxPos +
       (or_else (get c (maxPos + 1)) (num (get c maxPos))
          - num (get c (maxPos - 1))) /
       (2 * denominator (num (get c (maxPos - 1))) (num (get c maxPos))
              (or_else (get c (maxPos + 1)) (num (get c maxPos))))).
Proof. eexists. split; reflexivity. Qed.

Lemma nan_unique x : Prim2SF x = S754_nan -> x = nan.
Proof. intros H. apply Prim2SF_inj. now rewrite H. Qed.

Lemma range_test_some freq f :
  range_test freq = Some f ->
  f = freq /\ (f <? MIN_FREQUENCY) = false /\ (MAX_FREQUENCY <? f) = false.
Proof.
  unfold range_test. intros H.
  destruct (freq <? MIN_FREQUENCY) eqn:Hlo; [discriminate | ].
  destruct (MAX_FREQUENCY <? freq) eqn:Hhi; [discriminate | ].
  simpl in H. injection H as <-. auto.
Qed.

(** Failing both comparisons leaves the range or [NaN]. *)
Lemma not_outside f :
  (f <? MIN_FREQUENCY) = false -> (MAX_FREQUENCY <? f) = false ->
  (MIN_FREQUENCY <=? f) && (f <=? MAX_FREQUENCY) = true \/
  PrimFloat.is_nan f = true.
Proof.
  unfold MIN_FREQUENCY, MAX_FREQUENCY, PrimFloat.is_nan.
  rewrite !ltb_spec, !leb_spec, eqb_spec.
  change (Prim2SF 80) with (S754_finite false 5629499534213120 (-46)).
  change (Prim2SF 1500) with (S754_finite false 6597069766656000 (-42)).
  generalize 5629499534213120%positive (-46)%Z
             6597069766656000%positive (-42)%Z.
  intros mlo elo mhi ehi Hlo Hhi.
  destruct (SFleb_of_not_ltb _ _ Hlo) as [H1 | N1].
  - destruct (SFleb_of_not_ltb _ _ Hhi) as [H2 | N2].
    + left. now rewrite H1, H2.
    + right. now rewrite (SFcompare_none_r _ _ _ _ N2).
  - right. now rewrite (SFcompare_none_l _ _ _ _ N1).
Qed.

Lemma range_test_nan_or_zero freq :
  sf_nan_or_zero (Prim2SF freq) = true ->
  range_test freq = None \/ range_test freq = Some nan.
Proof.
  unfold range_test, MIN_FREQUENCY, MAX_FREQUENCY. rewrite !ltb_spec.
  change (Prim2SF 80) with (S754_finite false 5629499534213120 (-46)).
  change (Prim2SF 1500) with (S754_finite false 6597069766656000 (-42)).
  generalize 5629499534213120%positive (-46)%Z
             6597069766656000%positive (-42)%Z.
  intros mlo elo mhi ehi.
  destruct (Prim2SF freq) as [ s | s | | s m e ] eqn:E; try discriminate;
    intros _.
  - left. reflexivity.
  - right. cbn. now rewrite (nan_unique freq E).
Qed.

Lemma range_test_finite freq f :
  range_test freq = Some f -> PrimFloat.is_infinity f = false.
Proof.
  intros H. apply range_test_some in H. destruct H as (_ & Hlo & Hhi).
  revert Hlo Hhi.
  unfold MIN_FREQUENCY, MAX_FREQUENCY, PrimFloat.is_infinity.
  rewrite !ltb_spec, eqb_spec, abs_spec.
  change (Prim2SF 80) with (S754_finite false 5629499534213120 (-46)).
  change (Prim2SF 1500) with (S754_finite false 6597069766656000 (-42)).
  change (Prim2SF infinity) with (S754_infinity false).
  generalize 5629499534213120%positive (-46)%Z
             6597069766656000%positive (-42)%Z.
  intros mlo elo mhi ehi.
  destruct (Prim2SF f) as [ [ | ] | [ | ] | | [ | ] m e ]; cbn;
    try discriminate; auto.
Qed.

(** Division by a zero is an infinity or [NaN]; adding an infinity or
    [NaN] gives one of them again; dividing by one gives a zero or
    [NaN]. *)
Lemma div_by_zero a b :
  sf_zero (Prim2SF b) = true -> sf_nan_or_inf (Prim2SF (a / b)) = true.
Proof.
  rewrite div_spec.
  destruct (Prim2SF b) as [ sb | | | ]; try discriminate; intros _.
  now destruct (Prim2SF a).
Qed.

Lemma add_nan_or_inf a b :
  sf_nan_or_inf (Prim2SF b) = true -> sf_nan_or_inf (Prim2SF (a + b)) = true.
Proof.
  rewrite add_spec.
  destruct (Prim2SF b) as [ | [ | ] | | ]; try discriminate; intros _;
    now destruct (Prim2SF a) as [ [ | ] | [ | ] | | ].
Qed.

Lemma div_by_nan_or_inf a b :
  sf_nan_or_inf (Prim2SF b) = true -> sf_nan_or_zero (Prim2SF (a / b)) = true.
Proof.
  rewrite div_spec.
  destruct (Prim2SF b) as [ | sb | | ]; try discriminate; intros _;
    now destruct (Prim2SF a).
Qed.

Lemma div_of_zero a b :
  sf_zero (Prim2SF a) = true -> sf_nan_or_zero (Prim2SF (a / b)) = true.
Proof.
  rewrite div_spec.
  destruct (Prim2SF a) as [ sa | | | ]; try discriminate; intros _.
  now destruct (Prim2SF b).
Qed.

Lemma twice_zero b :
  sf_zero (Prim2SF b) = true -> sf_zero (Prim2SF (2 * b)) = true.
Proof.
  rewrite mul_spec.
  change (Prim2SF 2) with (S754_finite false 4503599627370496 (-51)).
  generalize 4503599627370496%positive (-51)%Z. intros m e.
  now destruct (Prim2SF b).
Qed.

Lemma is_zero_sf x : PrimFloat.is_zero x = true -> sf_zero (Prim2SF x) = true.
Proof.
  unfold PrimFloat.is_zero. rewrite eqb_spec.
  change (Prim2SF 0) with (S754_zero false).
  now destruct (Prim2SF x) as [ | [ | ] | | [ | ] m e ].
Qed.

Lemma interpolate_finite c maxPos sampleRate f :
  interpolate c maxPos sampleRate = Some f -> PrimFloat.is_infinity f = false.
Proof.
  destruct (interpolate_range_test c maxPos sampleRate) as (freq & -> & _).
  apply range_test_finite.
Qed.

Lemma detect_cases buf sampleRate :
  detectPitchAutoCorr buf sampleRate = None \/
  exists maxPos,
    detectPitchAutoCorr buf sampleRate =
    interpolate (autocorr buf) maxPos sampleRate.
Proof.
  unfold detectPitchAutoCorr.
  destruct (rms buf <? MIN_RMS); [now left | ].
  destruct (snd (find_max (autocorr buf) (skip_descent (autocorr buf) 0)) <=? 0)%Z;
    [now left | right; eexists; reflexivity].
Qed.


(** A negative sample rate on an ordinary frame: the frequency comes out
    negative and [None] is returned. *)
Example negative_rate_no_pitch :
  detectPitchAutoCorr square_frame (-2000) = None.
Proof. vm_compute. reflexivity. Qed.


Lemma detect_passed_range_test buf sampleRate f :
  detectPitchAutoCorr buf sampleRate = Some f ->
  (f <? MIN_FREQUENCY) = false /\ (MAX_FREQUENCY <? f) = false.
Proof.
  intros H. destruct (detect_cases buf sampleRate) as [E | [p E] ];
    rewrite E in H; [discriminate | ].
  destruct (interpolate_range_test (autocorr buf) p sampleRate)
    as (freq & Hi & _).
  rewrite Hi in H. apply range_test_some in H. tauto.
Qed.



(** X6. The cursor stops at the first index from which the curve no
    longer descends: every step before it went down, and the step at it, if
    there is one, does not. *)
Theorem skip_descent_stops (c : list float) (k : Z) :
  exists n : nat,
    skip_descent c k = (k + Z.of_nat n)%Z /\
    (c <> [] -> (n < length c)%nat) /\
    (forall i, (i < n)%nat ->
       exists x y, nth_error c i = Some x /\ nth_error c (S i) = Some y /\
                   (y <? x) = true) /\
    (forall x y, nth_error c n = Some x -> nth_error c (S n) = Some y ->
                 (y <? x) = false).
Proof.
  revert k. induction c as [ | x c IH ]; intros k.
  - exists 0%nat. split; [simpl; lia | ]. split; [congruence | ].
    split; [intros i Hi; lia | discriminate].
  - destruct c as [ | y c ].
    + exists 0%nat. split; [simpl; lia | ]. split; [simpl; lia | ].
      split; [intros i Hi; lia | discriminate].
    + change (skip_descent (x :: y :: c) k)
        with (if y <? x then skip_descent (y :: c) (k + 1) else k).
      destruct (y <? x) eqn:E.
      * destruct (IH (k + 1)%Z) as (n & Hn & Hlen & Hdown & Hstop).
        exists (S n). split; [rewrite Hn; lia | ].
        split; [intros _; specialize (Hlen ltac:(discriminate)); simpl in *; lia | ].
        split; [ | intros a b; apply Hstop].
        intros [ | i ] Hi; [exists x, y; auto | apply Hdown; lia].
      * exists 0%nat. split; [lia | ]. split; [simpl; lia | ].
        split; [intros i Hi; lia | ].
        intros a b Ha Hb. simpl in Ha, Hb. congruence.
Qed.

Lemma fold_max_step_pos c indices : forall st,
  snd (fold_left (max_step c) indices st) = snd st \/
  In (snd (fold_left (max_step c) indices st)) indices.
Proof.
  induction indices as [ | i indices IH ]; intros st; [now left | ].
  cbn [fold_left]. destruct (IH (max_step c st i)) as [H | H].
  - rewrite H. unfold max_step.
    destruct (fst st <? num (get c i)); [right; now left | now left].
  - right. now right.
Qed.

(** X7. The search leaves [maxPos] at -1 or at an index of [c] from [d]
    on. *)
Theorem find_max_within (c : list float) (d : Z) :
  (0 <= d)%Z ->
  snd (find_max c d) = (-1)%Z \/
  (d <= snd (find_max c d) < Z.of_nat (length c))%Z.
Proof.
  intros Hd. unfold find_max.
  destruct (fold_max_step_pos c
              (map Z.of_nat (seq (Z.to_nat d) (length c - Z.to_nat d)))
              (-1, (-1)%Z)) as [H | H]; [now left | right].
  apply in_map_iff in H. destruct H as (i & <- & Hi).
  apply in_seq in Hi. lia.
Qed.

Lemma find_max_within_witness :
  (0 <= 1)%Z /\
  (snd (find_max (autocorr square_frame) 1) = (-1)%Z \/
   (1 <= snd (find_max (autocorr square_frame) 1)
      < Z.of_nat (length (autocorr square_frame)))%Z).
Proof.
  assert (0 <= 1)%Z as H by lia.
  split; [exact H | exact (find_max_within (autocorr square_frame) 1 H)].
Defined.

Lemma gate_closes buf sampleRate :
  (rms buf <? MIN_RMS) = true -> detectPitchAutoCorr buf sampleRate = None.
Proof. intros H. unfold detectPitchAutoCorr. now rewrite H. Qed.

Lemma sum_squares_zero n : sum_squares (repeat 0 n) = 0.
Proof.
  unfold sum_squares. induction n as [ | n IH ]; [reflexivity | exact IH].
Qed.

(** X1. An all-zero frame, of any length an array can have, is silent:
    its RMS is 0 and [None] is returned. *)
Theorem all_zero_frame_is_silent (n : nat) (sampleRate : float) :
  (0 < n)%nat -> (Z.of_nat n < 2 ^ 63)%Z ->
  detectPitchAutoCorr (repeat 0 n) sampleRate = None.
Proof.
  intros Hn Hb. apply gate_closes. unfold rms.
  rewrite sum_squares_zero, repeat_length.
  assert (sf_pos (Prim2SF (of_Z (Z.of_nat n))) = true) as Hp
    by (apply of_Z_pos; lia).
  unfold MIN_RMS. rewrite ltb_spec, sqrt_spec, div_spec.
  change (Prim2SF 0) with (S754_zero false).
  change (Prim2SF 0.01) with (S754_finite false 5764607523034235 (-59)).
  generalize 5764607523034235%positive (-59)%Z. intros m e.
  destruct (Prim2SF (of_Z (Z.of_nat n))) as [ | [ | ] | | [ | ] mn en ];
    try discriminate; reflexivity.
Qed.

Lemma all_zero_frame_is_silent_witness :
  (0 < 4096)%nat /\ (Z.of_nat 4096 < 2 ^ 63)%Z /\
  detectPitchAutoCorr (repeat 0 4096) 44100 = None.
Proof.
  assert (0 < 4096)%nat as H1 by lia.
  assert (Z.of_nat 4096 < 2 ^ 63)%Z as H2 by (vm_compute; reflexivity).
  split; [exact H1 | split; [exact H2 | ] ].
  exact (all_zero_frame_is_silent 4096 44100 H1 H2).
Defined.

End EstimatorFacts.

(** * The loop, frame after frame *)

Module LoopFacts.

Import JSFloat Estimator Smoother FloatFacts SmootherFacts EstimatorFacts.
Open Scope float_scope.

(** [loop] skips a [NaN] estimate as it skips [null]: [!freq] holds of
    both. *)
Lemma smooth_clean s e : smooth s (clean e) = smooth s e.
Proof.
  destruct e as [ f | ]; [ | reflexivity]. unfold clean, smooth, falsy.
  destruct (PrimFloat.is_nan f) eqn:E; [ | now rewrite E].
  now rewrite orb_true_r.
Qed.

Lemma fold_smooth_clean estimates : forall s,
  fold_left smooth (map clean estimates) s = fold_left smooth estimates s.
Proof.
  induction estimates as [ | e estimates IH ]; intros s; [reflexivity | ].
  cbn [map fold_left]. now rewrite smooth_clean, IH.
Qed.

Lemma ticks_run frames sampleRate :
  ticks frames sampleRate
  = run (map (fun buf => detectPitchAutoCorr buf sampleRate) frames).
Proof.
  unfold ticks, run, loop. generalize initial.
  induction frames as [ | buf frames IH ]; intros s; [reflexivity | ].
  cbn [map fold_left]. apply IH.
Qed.

Lemma clean_estimate_in_range buf sampleRate :
  in_range (clean (detectPitchAutoCorr buf sampleRate)) = true.
Proof.
  destruct (detectPitchAutoCorr buf sampleRate) as [ f | ] eqn:E;
    [ | reflexivity].
  apply detect_passed_range_test in E. destruct E as [Hlo Hhi].
  destruct (not_outside f Hlo Hhi) as [H | H]; unfold clean.
  - destruct (PrimFloat.is_nan f); [reflexivity | exact H].
  - now rewrite H.
Qed.

(** X5. Whatever frames the analyser delivers, [smoothedFreq] is the
    state of the specified smoother fed the estimates that are
    frequencies. *)
Theorem loop_refines_spec (frames : list (list float)) (sampleRate : float) :
  ticks frames sampleRate
  = exposed (spec_run
      (map clean
         (map (fun buf => detectPitchAutoCorr buf sampleRate) frames))).
Proof.
  rewrite ticks_run. unfold run at 1.
  rewrite <- fold_smooth_clean.
  assert (forallb in_range
            (map clean
               (map (fun buf => detectPitchAutoCorr buf sampleRate) frames))
          = true) as H.
  { rewrite map_map, forallb_forall. intros e He.
    apply in_map_iff in He. destruct He as (buf & <- & _).
    apply clean_estimate_in_range. }
  rewrite (spec_run_tracks _ H).
  pose proof (run_invariant _ H) as Inv. unfold run in *.
  now destruct (heard _).
Qed.

End LoopFacts.

(** * The smoothing, tick by tick *)

Module SmoothingFacts.

Import JSFloat Estimator Smoother SmootherInput FloatFacts SmootherFacts EstimatorFacts LoopFacts.
Open Scope float_scope.

Lemma heard_clean estimates :
  heard (map clean estimates) = existsb is_number estimates.
Proof.
  unfold heard. induction estimates as [ | e estimates IH ]; [reflexivity | ].
  cbn [map existsb]. now rewrite IH.
Qed.

Lemma run_clean estimates : run (map clean estimates) = run estimates.
Proof. apply fold_smooth_clean. Qed.

Lemma estimates_in_range frames sampleRate :
  forallb in_range (map clean (estimates_of frames sampleRate)) = true.
Proof.
  unfold estimates_of. rewrite map_map, forallb_forall. intros e He.
  apply in_map_iff in He. destruct He as (buf & <- & _).
  apply clean_estimate_in_range.
Qed.

Lemma ticks_snoc frames buf sampleRate :
  ticks (frames ++ [buf]) sampleRate
  = smooth (ticks frames sampleRate) (detectPitchAutoCorr buf sampleRate).
Proof. unfold ticks. now rewrite fold_left_app. Qed.

(** C5, as stated, fails: the estimator hands [loop] a [NaN] on a frame
    whose lag sums overflow the [Float32Array]; it is the first estimate
    other than [null], and [smoothedFreq] stays 0. *)
Lemma nan_estimate_counterexample :
  exists f, detectPitchAutoCorr loud_frame 44100 = Some f /\
            ticks [loud_frame] 44100 = 0 /\ ticks [loud_frame] 44100 <> f.
Proof.
  exists nan. split; [vm_compute; reflexivity | ].
  split; [vm_compute; reflexivity | ].
  intros E. apply (f_equal PrimFloat.is_nan) in E. vm_compute in E.
  discriminate E.
Qed.

(** C5, amended. Whatever frames the analyser delivers, [smoothedFreq]
    changes only on the ticks whose estimate is a number: an estimate that
    is [null] or [NaN] leaves it as it was; the first estimate that is a
    number is taken as is; every later one, [f], makes it
    [0.2 * f + 0.8 * previous]. *)
Theorem smoothing_updates_only_on_numbers
  (frames : list (list float)) (buf : list float) (sampleRate : float) :
  ticks (frames ++ [buf]) sampleRate =
  match clean (detectPitchAutoCorr buf sampleRate) with
  | None => ticks frames sampleRate
  | Some f =>
      if existsb is_number (estimates_of frames sampleRate)
      then 0.2 * f + 0.8 * ticks frames sampleRate
      else f
  end.
Proof.
  rewrite ticks_snoc, <- smooth_clean.
  pose proof (clean_estimate_in_range buf sampleRate) as Hf.
  destruct (clean (detectPitchAutoCorr buf sampleRate)) as [ f | ];
    [ | reflexivity].
  pose proof (run_invariant _ (estimates_in_range frames sampleRate)) as Inv.
  rewrite heard_clean, run_clean in Inv.
  rewrite ticks_run. fold (estimates_of frames sampleRate).
  destruct (existsb is_number (estimates_of frames sampleRate)).
  - now apply smooth_later.
  - rewrite Inv. now apply smooth_first.
Qed.

(** The three cases on frames: a silent tick, the first pitch, a [NaN]
    tick, a second pitch. *)
Example smoothing_by_cases :
  ticks [faint_frame] 2000 = 0 /\
  ticks [faint_frame; square_frame] 2000 = 444.44444444444446 /\
  ticks [faint_frame; square_frame; loud_frame] 2000 = 444.44444444444446 /\
  ticks [faint_frame; square_frame; loud_frame; square_frame] 2000
    = 0.2 * 444.44444444444446 + 0.8 * 444.44444444444446.
Proof. repeat split; vm_compute; reflexivity. Qed.

End SmoothingFacts.

(** * The note arithmetic on doubles *)

Module NoteMathDoubleFacts.

Import JSFloat NoteMathDouble FloatFacts.
Open Scope float_scope.

Lemma leb_zero_nonpos f : (f <=? 0) = true -> sf_nonpos (Prim2SF f) = true.
Proof.
  rewrite leb_spec. change (Prim2SF 0) with (S754_zero false).
  now destruct (Prim2SF f) as [ [ | ] | [ | ] | | [ | ] m e ].
Qed.

Lemma ltb_zero_pos t : (0 <? t) = true -> sf_pos (Prim2SF t) = true.
Proof.
  rewrite ltb_spec. change (Prim2SF 0) with (S754_zero false).
  now destruct (Prim2SF t) as [ [ | ] | [ | ] | | [ | ] m e ].
Qed.

(** Rounding keeps the sign it is given. *)
Lemma binary_round_aux_sign s m e l :
  match binary_round_aux prec emax s m e l with
  | S754_zero s' | S754_infinity s' | S754_finite s' _ _ => s' = s
  | S754_nan => True
  end.
Proof.
  unfold binary_round_aux.
  destruct (shr_fexp prec emax m e l) as [mrs' e'].
  destruct (shr_fexp prec emax _ e' loc_Exact) as [mrs'' e''].
  destruct (shr_m mrs''); auto.
  now destruct (e'' <=? emax - prec)%Z.
Qed.

(** A number that is not positive, divided by a positive one, is not
    positive: a zero (also by underflow), a negative number or [NaN]. *)
Lemma div_nonpos f t :
  sf_nonpos (Prim2SF f) = true -> sf_pos (Prim2SF t) = true ->
  sf_nonpos_or_nan (Prim2SF (f / t)) = true.
Proof.
  rewrite div_spec. unfold SF64div, SFdiv.
  destruct (Prim2SF f) as [ sf | [ | ] | | [ | ] mf ef ]; try discriminate;
    destruct (Prim2SF t) as [ | [ | ] | | [ | ] mt et ]; try discriminate;
    intros _ _; try reflexivity.
  destruct (SFdiv_core_binary prec emax (Z.pos mf) ef (Z.pos mt) et)
    as [ [mz ez] lz ].
  pose proof (binary_round_aux_sign (xorb true false) mz ez lz) as H.
  destruct (binary_round_aux prec emax (xorb true false) mz ez lz);
    simpl in H; subst; reflexivity.
Qed.

Lemma log2_nonpos x :
  sf_nonpos_or_nan (Prim2SF x) = true ->
  Math_log2 x = Some nan \/ Math_log2 x = Some neg_infinity.
Proof.
  unfold Math_log2, PrimFloat.is_nan, PrimFloat.is_zero.
  rewrite ltb_spec, !eqb_spec.
  change (Prim2SF 0) with (S754_zero false).
  destruct (Prim2SF x) as [ s | [ | ] | | [ | ] m e ]; try discriminate;
    intros _; cbn; auto.
  left. now destruct (negb _).
Qed.

(** C7, as stated, fails: a negative frequency gets [NaN] and a zero
    one [-Infinity]; nothing is raised. *)
Lemma invalid_frequency_counterexample :
  freqToMidi (-440) = Some nan /\ centsOff 0 440 = Some neg_infinity.
Proof. split; vm_compute; reflexivity. Qed.

(** The logarithm of a number that is not positive: [-Infinity] at a
    zero, [NaN] at a negative number and at [NaN]. *)
Lemma log2_of_nonpos x :
  sf_nonpos_or_nan (Prim2SF x) = true ->
  Math_log2 x = Some (if PrimFloat.is_zero x then neg_infinity else nan).
Proof.
  unfold Math_log2, PrimFloat.is_nan, PrimFloat.is_zero.
  rewrite ltb_spec, !eqb_spec.
  change (Prim2SF 0) with (S754_zero false).
  destruct (Prim2SF x) as [ s | [ | ] | | [ | ] m e ]; try discriminate;
    intros _; cbn; try reflexivity.
  now destruct (negb _).
Qed.

(** C7, amended. [freqToMidi] and [centsOff] reject nothing. For a
    frequency that is not positive (and a positive target) they return
    [-Infinity] when the quotient [freq / A4] (or [freq / target]) is a
    zero, and [NaN] when it is not, in every engine. *)
Theorem nonpositive_frequency_is_not_rejected (f target : float) :
  (f <=? 0) = true -> (0 <? target) = true ->
  freqToMidi f =
    Some (if PrimFloat.is_zero (f / A4) then neg_infinity else nan) /\
  centsOff f target =
    Some (if PrimFloat.is_zero (f / target) then neg_infinity else nan).
Proof.
  intros Hf Ht. apply leb_zero_nonpos in Hf.
  unfold freqToMidi, centsOff. split.
  - rewrite (log2_of_nonpos (f / A4))
      by (apply div_nonpos; [exact Hf | reflexivity]).
    now destruct (PrimFloat.is_zero (f / A4)).
  - rewrite (log2_of_nonpos (f / target))
      by (apply div_nonpos; [exact Hf | now apply ltb_zero_pos]).
    now destruct (PrimFloat.is_zero (f / target)).
Qed.

Lemma nonpositive_frequency_is_not_rejected_witness :
  (-1 <=? 0) = true /\ (0 <? 440) = true /\
  freqToMidi (-1) = Some nan /\ centsOff (-1) 440 = Some nan.
Proof.
  assert ((-1 <=? 0) = true) as H1 by reflexivity.
  assert ((0 <? 440) = true) as H2 by reflexivity.
  split; [exact H1 | split; [exact H2 | ] ].
  exact (nonpositive_frequency_is_not_rejected (-1) 440 H1 H2).
Defined.

(** Which of the two it is, case by case. *)
Example zero_frequency :
  freqToMidi 0 = Some neg_infinity /\ freqToMidi (-0) = Some neg_infinity.
Proof. split; vm_compute; reflexivity. Qed.

(** A negative frequency so small that its quotient by 440 underflows
    gets [-Infinity], not [NaN]. *)
Example freqToMidi_tiny_negative : freqToMidi (-5e-324) = Some neg_infinity.
Proof. vm_compute. reflexivity. Qed.

(** The two pinned values of [Math.log2] and [Math.pow] carry note 69
    to 440 Hz and back, in every engine. *)
Example round_trip_A4 :
  midiToFreq 69 = Some 440 /\ freqToMidi 440 = Some 69.
Proof. split; vm_compute; reflexivity. Qed.


End NoteMathDoubleFacts.

(** * What the standard fixes holds in every engine *)

Module ConformFacts.

Import JSFloat NoteEngine.
Open Scope float_scope.

Lemma conforms_freqToMidi E f v :
  conforms E -> NoteMathDouble.freqToMidi f = Some v -> freqToMidi E f = v.
Proof.
  intros [HL _]. unfold NoteMathDouble.freqToMidi, freqToMidi.
  destruct (NoteMathDouble.Math_log2 (f / NoteMathDouble.A4)) as [ l | ] eqn:L;
    [ | discriminate].
  cbn [option_map]. intros [= <-].
  change NoteMathDouble.A4 with A4 in L. now rewrite (HL _ _ L).
Qed.

Lemma conforms_midiToFreq E m v :
  conforms E -> NoteMathDouble.midiToFreq m = Some v -> midiToFreq E m = v.
Proof.
  intros [_ HP]. unfold NoteMathDouble.midiToFreq, midiToFreq.
  destruct (NoteMathDouble.Math_pow2 ((m - 69) / 12)) as [ p | ] eqn:P;
    [ | discriminate].
  cbn [option_map]. intros [= <-]. now rewrite (HP _ _ P).
Qed.

Lemma conforms_centsOff E f t v :
  conforms E -> NoteMathDouble.centsOff f t = Some v -> centsOff E f t = v.
Proof.
  intros [HL _]. unfold NoteMathDouble.centsOff, centsOff.
  destruct (NoteMathDouble.Math_log2 (f / t)) as [ l | ] eqn:L;
    [ | discriminate].
  cbn [option_map]. intros [= <-]. now rewrite (HL _ _ L).
Qed.

Lemma conforms_display_cents E f v :
  conforms E -> NoteMathDouble.display_cents f = Some v ->
  display_cents E f = v.
Proof.
  intros HC. unfold NoteMathDouble.display_cents, display_cents.
  destruct (NoteMathDouble.freqToMidi f) as [ m | ] eqn:M; [ | discriminate].
  destruct (NoteMathDouble.midiToFreq m) as [ t | ] eqn:T; [ | discriminate].
  intros C. cbv zeta.
  rewrite (conforms_freqToMidi E f m HC M),
          (conforms_midiToFreq E m t HC T).
  now apply conforms_centsOff.
Qed.

Lemma pinned_conforms : conforms pinned.
Proof.
  split.
  - intros x v H. cbn [pinned Math_log2]. now rewrite H.
  - intros y v H. cbn [pinned Math_pow]. rewrite H. reflexivity.
Qed.

(** In every engine the least positive double is shown [Infinity] cents
    off, and a frequency that is not positive gets no note. *)
Example cents_underflow_everywhere E :
  conforms E -> display_cents E 5e-324 = infinity.
Proof.
  intros HC. apply conforms_display_cents; [exact HC | ].
  vm_compute. reflexivity.
Qed.

End ConformFacts.

(** * The note arithmetic, in any engine *)

Module EngineFacts.

Import JSFloat RealValue RealValueFacts RoundingFacts DoubleFacts IntegerFacts.
Import NoteEngine.
Local Open Scope R_scope.

(** ** Logarithms near 1 *)

Lemma ln2_bounds : / 2 < ln 2 < 1.
Proof.
  split; [exact ln_lt_2 | ].
  rewrite <- (ln_exp 1). apply ln_increasing; [lra | ].
  pose proof (exp_ineq1 1 ltac:(lra)). lra.
Qed.

Lemma ln_le_sub x : 0 < x -> ln x <= x - 1.
Proof.
  intros Hx. destruct (Req_dec x 1) as [-> | NE]; [rewrite ln_1; lra | ].
  left. rewrite <- (ln_exp (x - 1)). apply ln_increasing; [exact Hx | ].
  pose proof (exp_ineq1 (x - 1) ltac:(lra)). lra.
Qed.

Lemma ln_near_1 eps c :
  Rabs eps <= c -> c <= / 2 -> Rabs (ln (1 + eps)) <= 2 * c.
Proof.
  intros H Hc. apply Rabs_le_both in H. apply Rabs_le_of. split.
  - assert (0 < 1 + eps) as Hp by lra.
    pose proof (ln_le_sub (/ (1 + eps)) (Rinv_0_lt_compat _ Hp)) as Hl.
    rewrite ln_Rinv in Hl by exact Hp.
    assert (/ (1 + eps) <= 1 + 2 * c); [ | lra].
    apply Rmult_le_reg_r with (r := 1 + eps); [exact Hp | ].
    rewrite Rinv_l by lra. nra.
  - pose proof (ln_le_sub (1 + eps) ltac:(lra)). lra.
Qed.

Lemma Rpower_2_IZR k : Rpower 2 (IZR k) = p2 k.
Proof. unfold p2. now rewrite powerRZ_Rpower by lra. Qed.

Lemma Rpower_2_bounds y lo hi :
  IZR lo <= y <= IZR hi -> p2 lo <= Rpower 2 y <= p2 hi.
Proof.
  intros [H1 H2]. rewrite <- !Rpower_2_IZR. split; apply Rle_Rpower; lra.
Qed.





(** ** Small numbers *)

Lemma p2_neg_le k c :
  (0 < c <= 2 ^ k)%Z -> (0 <= k)%Z -> p2 (- k) <= / IZR c.
Proof.
  intros Hc Hk. unfold p2. rewrite powerRZ_neg'.
  change (powerRZ 2 k) with (p2 k). rewrite p2_IZR by lia.
  apply Rinv_le_contravar; [apply IZR_lt; lia | apply IZR_le; lia].
Qed.

Lemma ulp_small : p2 (-53) <= / 1000000000000000.
Proof. apply (p2_neg_le 53 1000000000000000); [split; [lia | ] | lia ]. vm_compute. discriminate. Qed.

Lemma eta_small : p2 (-1075) <= / 1000000000000000.
Proof.
  apply Rle_trans with (p2 (-53)); [apply p2_le; lia | exact ulp_small].
Qed.

Lemma engine_small : p2 (-20) <= / 1000000.
Proof. apply (p2_neg_le 20 1000000); [split; [lia | ] | lia ]. vm_compute. discriminate. Qed.

(** The error of one operation on a result bounded by [B]. *)
Lemma step_error Y X B :
  Rabs (Y - X) <= p2 (-53) * Rabs X + p2 (-1075) -> Rabs X <= B ->
  Rabs (Y - X) <= (B + 1) / 1000000000000000.
Proof.
  intros H HB. pose proof ulp_small. pose proof eta_small.
  pose proof (p2_pos (-53)). pose proof (Rabs_pos X).
  assert (p2 (-53) * Rabs X <= / 1000000000000000 * B); [ | lra].
  apply Rmult_le_compat; lra.
Qed.

(** ** The literals of the code *)

Ltac small := vm_compute; discriminate.

Lemma value_69 : finite 69 = true /\ value 69 = 69.
Proof. change 69%float with (of_Z 69). apply of_Z_value. small. Qed.

Lemma value_12 : finite 12 = true /\ value 12 = 12.
Proof. change 12%float with (of_Z 12). apply of_Z_value. small. Qed.

Lemma value_440 : finite 440 = true /\ value 440 = 440.
Proof. change 440%float with (of_Z 440). apply of_Z_value. small. Qed.


(** ** From a note to its frequency and back *)

(** The frequency of note [n], and how far the engine's power may be
    off. *)
Lemma midiToFreq_value (E : engine) (n : Z) :
  (21 <= n <= 108)%Z ->
  pow_accurate E ((of_Z n - 69) / 12) ->
  exists y P : R,
    Rabs (y - IZR (n - 69) / 12) <= 5 / 1000000000000000 /\
    P = Rpower 2 y /\
    finite (midiToFreq E (of_Z n) / A4) = true /\
    Rabs (value (midiToFreq E (of_Z n) / A4) - P) <= 2 / 1000000 * P.
Proof.
  intros Hn [Fp Hp].
  destruct (of_Z_value n ltac:(lia)) as [F0 V0].
  destruct value_69 as [F69 V69]. destruct value_12 as [F12 V12].
  destruct value_440 as [F440 V440].
  unfold midiToFreq, A4.
  assert (Z.abs (n - 69) <= 2 ^ 53)%Z as Hd by lia.
  destruct (sub_int (of_Z n) 69 n 69 F0 F69 V0 V69 Hd) as [Fd Vd].
  set (d := (of_Z n - 69)%float) in *.
  assert (Rabs (IZR (n - 69) / 12) <= 4) as Ha.
  { assert (-48 <= n - 69 <= 39)%Z as H by lia. destruct H as [H1 H2].
    apply IZR_le in H1, H2. apply Rabs_le_of. lra. }
  destruct (div_step d 12 3 Fd F12 ltac:(lra) ltac:(lia)) as (Fy & By & Ey).
  { rewrite Vd, V12. rewrite (p2_nat 3 8) by (lia || reflexivity). lra. }
  rewrite Vd, V12 in Ey.
  set (y := (d / 12)%float) in *.
  apply step_error with (B := 4) in Ey; [ | exact Ha].
  exists (value y), (Rpower 2 (value y)).
  split; [lra | ]. split; [reflexivity | ].
  set (P := Rpower 2 (value y)) in *.
  assert (/ 32 <= P <= 32) as HP.
  { apply Rabs_le_both in Ey, Ha.
    destruct (Rpower_2_bounds (value y) (-5) 5 ltac:(lra)) as [H1 H2].
    rewrite (p2_neg (-5) 32) in H1 by (lia || reflexivity).
    rewrite (p2_nat 5 32) in H2 by (lia || reflexivity). unfold P. lra. }
  set (p := Math_pow E 2 y) in *.
  pose proof engine_small as He.
  assert (Rabs (value p - P) <= / 1000000 * P) as Hp'.
  { eapply Rle_trans; [exact Hp | ]. apply Rmult_le_compat_r; lra. }
  apply Rabs_le_both in Hp'.
  assert (0 < value p <= 33) as Bp by lra.
  destruct (mul_step 440 p 14 F440 Fp ltac:(lia)) as (FF & BF & EF).
  { rewrite V440. rewrite (p2_nat 14 16384) by (lia || reflexivity).
    apply Rabs_le_of. lra. }
  rewrite V440 in EF.
  apply step_error with (B := 14520) in EF; [ | apply Rabs_le_of; lra].
  set (F := (440 * p)%float) in *.
  apply Rabs_le_both in EF.
  destruct (div_step F 440 6 FF F440 ltac:(lra) ltac:(lia)) as (Fq & Bq & Eq).
  { rewrite V440. rewrite (p2_nat 6 64) by (lia || reflexivity).
    apply Rabs_le_of. lra. }
  rewrite V440 in Eq.
  apply step_error with (B := 34) in Eq; [ | apply Rabs_le_of; lra].
  split; [exact Fq | ].
  apply Rabs_le_both in Eq. apply Rabs_le_of. lra.
Qed.

(** C6. In every engine whose [Math.pow] and [Math.log2] are accurate
    to [2^-20] at the two arguments the code hands them, the index of the
    frequency of note [n] is [n], for every [n] from 21 to 108. *)
Theorem round_trip (E : engine) (n : Z) :
  (21 <= n <= 108)%Z ->
  pow_accurate E ((of_Z n - 69) / 12) ->
  log2_accurate E (midiToFreq E (of_Z n) / A4) ->
  freqToMidi E (midiToFreq E (of_Z n)) = of_Z n.
Proof.
  intros Hn Hpow [FL HL].
  destruct (midiToFreq_value E n Hn Hpow) as (y & P & Hy & EP & Fq & Hq).
  unfold freqToMidi.
  set (q := (midiToFreq E (of_Z n) / A4)%float) in *.
  set (L := Math_log2 E q) in *.
  destruct value_69 as [F69 V69]. destruct value_12 as [F12 V12].
  assert (0 < P) as HP by (rewrite EP; apply exp_pos).
  (* the logarithm the engine is asked for *)
  set (eps := value q / P - 1).
  assert (Rabs eps <= 2 / 1000000) as Heps.
  { apply Rabs_le_both in Hq. apply Rabs_le_of. unfold eps.
    split.
    - apply Rmult_le_reg_r with (r := P); [exact HP | ].
      replace ((value q / P - 1) * P) with (value q - P) by (field; lra). lra.
    - apply Rmult_le_reg_r with (r := P); [exact HP | ].
      replace ((value q / P - 1) * P) with (value q - P) by (field; lra). lra. }
  assert (value q = P * (1 + eps)) as Eq by (unfold eps; field; lra).
  pose proof (ln_near_1 eps (2 / 1000000) Heps ltac:(lra)) as Hln.
  assert (ln (value q) / ln 2 = y + ln (1 + eps) / ln 2) as Elog.
  { apply Rabs_le_both in Heps.
    rewrite Eq, ln_mult by lra. rewrite EP, ln_Rpower. field.
    pose proof ln2_bounds. lra. }
  assert (Rabs (ln (1 + eps) / ln 2) <= 8 / 1000000) as Hl2.
  { pose proof ln2_bounds as [Hlo _]. apply Rabs_le_both in Hln.
    apply Rabs_le_of. split.
    - apply Rmult_le_reg_r with (r := ln 2); [lra | ].
      replace (ln (1 + eps) / ln 2 * ln 2) with (ln (1 + eps)) by (field; lra).
      nra.
    - apply Rmult_le_reg_r with (r := ln 2); [lra | ].
      replace (ln (1 + eps) / ln 2 * ln 2) with (ln (1 + eps)) by (field; lra).
      nra. }
  rewrite Elog in HL. pose proof engine_small as He.
  apply Rabs_le_both in HL, Hl2, Hy.
  assert (-48 <= n - 69 <= 39)%Z as Ha by lia. destruct Ha as [Ha1 Ha2].
  apply IZR_le in Ha1, Ha2.
  set (a := IZR (n - 69)) in *.
  assert (Rabs (value L - a / 12) <= 1 / 100000) as HLa
    by (apply Rabs_le_of; lra).
  apply Rabs_le_both in HLa.
  destruct (mul_step 12 L 6 F12 FL ltac:(lia)) as (Ft & Bt & Et).
  { rewrite V12. rewrite (p2_nat 6 64) by (lia || reflexivity).
    apply Rabs_le_of. lra. }
  rewrite V12 in Et.
  apply step_error with (B := 50) in Et; [ | apply Rabs_le_of; lra].
  set (t := (12 * L)%float) in *. apply Rabs_le_both in Et.
  destruct (add_step t 69 7 Ft F69 ltac:(lia)) as (Fu & Bu & Eu).
  { rewrite V69. rewrite (p2_nat 7 128) by (lia || reflexivity).
    apply Rabs_le_of. lra. }
  rewrite V69 in Eu.
  apply step_error with (B := 120) in Eu; [ | apply Rabs_le_of; lra].
  apply Rabs_le_both in Eu.
  apply Math_round_int; [exact Fu | | lia | lia].
  assert (IZR n = a + 69) as En
    by (unfold a; rewrite minus_IZR; ring).
  rewrite En. lra.
Qed.

Lemma value_0 : value 0 = 0.
Proof. reflexivity. Qed.

Lemma value_1 : finite 1 = true /\ value 1 = 1.
Proof. change 1%float with (of_Z 1). apply of_Z_value. small. Qed.

Lemma round_trip_witness :
  (21 <= 69 <= 108)%Z /\
  pow_accurate pinned ((of_Z 69 - 69) / 12) /\
  log2_accurate pinned (midiToFreq pinned (of_Z 69) / A4) /\
  freqToMidi pinned (midiToFreq pinned (of_Z 69)) = of_Z 69.
Proof.
  assert (21 <= 69 <= 108)%Z as H1 by lia.
  assert (pow_accurate pinned ((of_Z 69 - 69) / 12)) as H2.
  { unfold pow_accurate.
    change ((of_Z 69 - 69) / 12)%float with 0%float.
    change (Math_pow pinned 2 0) with 1%float.
    destruct value_1 as [F V]. split; [exact F | ].
    rewrite V, value_0, Rpower_O by lra.
    replace (1 - 1) with 0 by ring. rewrite Rabs_R0.
    pose proof (p2_pos (-20)). lra. }
  assert (log2_accurate pinned (midiToFreq pinned (of_Z 69) / A4)) as H3.
  { unfold log2_accurate.
    change (midiToFreq pinned (of_Z 69) / A4)%float with 1%float.
    change (Math_log2 pinned 1) with 0%float.
    destruct value_1 as [_ V]. split; [reflexivity | ].
    rewrite V, value_0, ln_1.
    replace (0 - 0 / ln 2) with 0 by (unfold Rdiv; ring). rewrite Rabs_R0.
    pose proof (p2_pos (-20)). lra. }
  split; [exact H1 | split; [exact H2 | split; [exact H3 | ] ] ].
  exact (round_trip pinned 69 H1 H2 H3).
Defined.

End EngineFacts.

Module CentsFacts.

Import JSFloat RealValue RealValueFacts RoundingFacts DoubleFacts IntegerFacts.
Import NoteEngine EngineFacts.
Local Open Scope R_scope.

Local Abbreviation lg x := (ln x / ln 2).









Lemma leb_finite_l x y :
  (x <=? y)%float = true -> finite y = true ->
  finite x = true \/ Prim2SF x = S754_infinity true.
Proof.
  rewrite leb_spec. unfold finite, SFleb.
  destruct (Prim2SF x) as [ sx | [ | ] | | sx mx ex ];
    destruct (Prim2SF y) as [ sy | [ | ] | | sy my ey ];
    cbn; try discriminate; auto.
Qed.












End CentsFacts.

(** * The order of doubles through the operations *)

Module MonotoneFacts.

Import JSFloat RealValue RealValueFacts RoundingFacts DoubleFacts IntegerFacts.
Import NoteEngine EngineFacts.
Local Open Scope R_scope.

Local Abbreviation rounded64 := (rounded prec emax).

(** [<=] on two numbers: the left one is [-Infinity], or the right one
    [Infinity], or both are finite and so ordered. *)
Lemma SFleb_cases x y :
  SpecFloat.valid_binary prec emax x = true ->
  SpecFloat.valid_binary prec emax y = true ->
  SFleb x y = true <->
  (x = S754_infinity true /\ y <> S754_nan) \/
  (y = S754_infinity false /\ x <> S754_nan) \/
  (sf_finite x = true /\ sf_finite y = true /\ SF2R x <= SF2R y).
Proof.
  intros Vx Vy.
  destruct (sf_finite x) eqn:Fx; [destruct (sf_finite y) eqn:Fy | ].
  - pose proof (SFcompare_finite prec emax prec_pos x y Vx Vy Fx Fy) as H.
    unfold SFleb.
    destruct (SFcompare x y) as [ [ | | ] | ]; try contradiction; split;
      try (intros _; right; right; split; [reflexivity | ];
           split; [reflexivity | lra]);
      try reflexivity.
    + discriminate.
    + intros [ [-> _] | [ [-> _] | (_ & _ & H') ] ]; try discriminate. lra.
  - destruct x as [ sx | sx | | sx mx ex ]; try discriminate;
      destruct y as [ sy | [ | ] | | sy my ey ]; try discriminate;
      unfold SFleb; cbn [SFcompare]; split;
      try (intros _; right; left; split; [reflexivity | discriminate]);
      try reflexivity; try discriminate;
      try (intros [ [H _] | [ [H _] | (_ & H & _) ] ]; discriminate);
      try (intros [ [_ H] | [ [_ H] | (_ & H & _) ] ];
           try discriminate; now elim H);
      destruct sx; try discriminate;
      try (intros [ [H _] | [ [H _] | (_ & H & _) ] ]; discriminate).
  - destruct x as [ sx | [ | ] | | sx mx ex ]; try discriminate;
      destruct y as [ sy | [ | ] | | sy my ey ];
      unfold SFleb; cbn [SFcompare]; split;
      try (intros _; left; split; [reflexivity | discriminate]);
      try (intros _; right; left; split; [reflexivity | discriminate]);
      try reflexivity; try discriminate;
      try (intros [ [H _] | [ [H _] | (H & _) ] ]; discriminate);
      try (intros [ [_ H] | [ [H _] | (H & _) ] ];
           try discriminate; now elim H);
      try (intros [ [H _] | [ [_ H] | (H & _) ] ];
           try discriminate; now elim H).
Qed.

Lemma leb_cases x y :
  (x <=? y)%float = true <->
  (Prim2SF x = S754_infinity true /\ Prim2SF y <> S754_nan) \/
  (Prim2SF y = S754_infinity false /\ Prim2SF x <> S754_nan) \/
  (finite x = true /\ finite y = true /\ value x <= value y).
Proof.
  pose proof (FloatAxioms.leb_spec x y) as E. rewrite E.
  apply SFleb_cases; apply Prim2SF_valid.
Qed.

(** Rounding keeps the order, overflow included. *)
Lemma rounded_leb X1 X2 z1 z2 :
  rounded64 X1 z1 -> rounded64 X2 z2 -> X1 <= X2 ->
  SpecFloat.valid_binary prec emax z1 = true ->
  SpecFloat.valid_binary prec emax z2 = true ->
  SFleb z1 z2 = true.
Proof.
  intros (Y1 & R1 & H1) (Y2 & R2 & H2) HX V1 V2.
  pose proof (rounds_to_monotone prec _ prec_pos X1 X2 Y1 Y2 HX R1 R2) as HY.
  pose proof (p2_pos emax) as Hp.
  apply SFleb_cases; try assumption.
  destruct H1 as [ (B1 & F1 & E1) | [ [B1 ->] | [B1 ->] ] ];
    destruct H2 as [ (B2 & F2 & E2) | [ [B2 ->] | [B2 ->] ] ];
    try apply Rabs_def2 in B1; try apply Rabs_def2 in B2; try lra.
  - right. right. rewrite E1, E2. auto.
  - right. left. split; [reflexivity | ]. intros ->. discriminate.
  - right. left. split; [reflexivity | discriminate].
  - left. split; [reflexivity | ]. intros ->. discriminate.
  - left. split; [reflexivity | discriminate].
  - left. split; [reflexivity | discriminate].
Qed.

Lemma not_nan_cases x :
  Prim2SF x <> S754_nan ->
  finite x = true \/ Prim2SF x = S754_infinity true \/
  Prim2SF x = S754_infinity false.
Proof.
  unfold finite. destruct (Prim2SF x) as [ s | [ | ] | | s m e ]; auto;
    intros H; now elim H.
Qed.

(** *** [Math.round] *)




(** *** Multiplying by a positive constant, dividing by a positive
    number *)







End MonotoneFacts.

(** * The name of a note *)

Module NoteNameFacts.

Import JSFloat RealValue RealValueFacts RoundingFacts DoubleFacts IntegerFacts.
Import NoteName.
Local Open Scope R_scope.

Local Abbreviation rounded64 := (rounded prec emax).
Local Abbreviation rounds64 := (rounds_to prec (SpecFloat.emin prec emax)).
Local Abbreviation representable64 :=
  (representable prec (SpecFloat.emin prec emax)).

(** ** A number given by mantissa and exponent *)

Lemma representable_finite (s : bool) m e :
  (Z.pos m < 2 ^ 53)%Z -> (-1074 <= e <= 971)%Z ->
  representable64 (SF2R (S754_finite s m e)) /\
  Rabs (SF2R (S754_finite s m e)) < p2 emax.
Proof.
  intros Hm He. cbn [SF2R]. split.
  - exists (cond_Zopp s (Z.pos m)), e. split; [reflexivity | ].
    split; [destruct s; cbn [cond_Zopp]; change prec with 53%Z; lia | ].
    change (SpecFloat.emin prec emax) with (-1074)%Z. lia.
  - pose proof (p2_pos e) as Hpe.
    assert (Rabs (IZR (cond_Zopp s (Z.pos m)) * p2 e) = IZR (Z.pos m) * p2 e)
      as ->.
    { rewrite Rabs_mult, (Rabs_pos_eq (p2 e)) by lra. f_equal.
      destruct s; cbn [cond_Zopp]; rewrite ?opp_IZR, ?Rabs_Ropp;
        apply Rabs_pos_eq; apply IZR_le; lia. }
    assert (Z.pos m + 1 <= 2 ^ 53)%Z as Hm' by lia.
    apply IZR_le in Hm'. rewrite plus_IZR, <- p2_IZR in Hm' by lia.
    assert (p2 (53 + e) <= p2 emax) as Hle
      by (apply p2_le; change emax with 1024%Z; lia).
    rewrite p2_add in Hle. pose proof (p2_pos 53). nra.
Qed.

Theorem SF2Prim_value s m e :
  (Z.pos m < 2 ^ 53)%Z -> (-1074 <= e <= 971)%Z ->
  finite (SF2Prim (S754_finite s m e)) = true /\
  value (SF2Prim (S754_finite s m e)) = SF2R (S754_finite s m e).
Proof.
  intros Hm He.
  destruct (representable_finite false m e Hm He) as [Rp Bp].
  cbn [SF2Prim]. unfold Z.ldexp.
  replace (Z.max (Z.min e (emax - emin)) (emin - emax - 1)) with e
    by (change (emax - emin)%Z with 2098%Z;
        change (emin - emax - 1)%Z with (-2099)%Z; lia).
  set (pm := of_uint63 (Uint63.of_Z (Z.pos m))).
  destruct (of_uint63_value (Z.pos m) ltac:(lia)) as [Fpm Vpm]. fold pm in Fpm, Vpm.
  set (f := ldshiftexp pm (Uint63.of_Z (e + shift))).
  assert (finite f = true /\ value f = IZR (Z.pos m) * p2 e) as [Ff Vf].
  { unfold finite, value, f. rewrite ldshiftexp_spec, Uint63.of_Z_spec.
    rewrite Z.mod_small
      by (change Uint63.wB with (2 ^ 63)%Z; change shift with 2101%Z; lia).
    replace (e + shift - shift)%Z with e by lia.
    assert (0 < IZR (Z.pos m)) as Hmp by (apply IZR_lt; lia).
    destruct (finite_value_cases pm Fpm)
      as [ [V0 _] | (s1 & m1 & e1 & E1 & V1) ]; [lra | ].
    rewrite E1. cbn [SFldexp].
    pose proof (binary_round_correct prec emax prec_pos prec_lt_emax
                  s1 m1 (e1 + e)) as R.
    assert (SF2R (S754_finite s1 m1 (e1 + e)) = IZR (Z.pos m) * p2 e) as EV.
    { cbn [SF2R]. rewrite p2_add, <- Rmult_assoc, <- V1, Vpm. reflexivity. }
    rewrite EV in R. apply (rounded_exact _ _ R); assumption. }
  destruct s.
  - rewrite finite_opp, value_opp, Vf. split; [exact Ff | ].
    cbn [SF2R cond_Zopp]. rewrite opp_IZR. ring.
  - split; [exact Ff | exact Vf].
Qed.

(** ** Integers *)

Lemma to_integer_value x z :
  finite x = true -> value x = IZR z -> to_integer x = Some z.
Proof.
  intros F V. unfold to_integer.
  destruct (finite_value_cases x F) as [ [V0 (s & E)] | (s & m & e & E & V1) ];
    rewrite E.
  - f_equal. apply eq_IZR. congruence.
  - rewrite V in V1. destruct (Z.leb_spec 0 e) as [Hp | Hn].
    + f_equal. apply eq_IZR. rewrite V1, p2_IZR by lia.
      destruct s; cbn [cond_Zopp]; rewrite ?opp_IZR, ?mult_IZR, ?opp_IZR; ring.
    + set (k := (- e)%Z) in *.
      assert (0 < 2 ^ k)%Z as Hk by (apply Z.pow_pos_nonneg; unfold k; lia).
      assert (cond_Zopp s (Z.pos m) = z * 2 ^ k)%Z as Em.
      { apply eq_IZR. rewrite mult_IZR, <- p2_IZR by (unfold k; lia).
        rewrite V1. replace e with (- k)%Z by (unfold k; lia).
        rewrite Rmult_assoc, <- p2_add. replace (- k + k)%Z with 0%Z by lia.
        rewrite p2_0. ring. }
      assert (Z.pos m = Z.abs z * 2 ^ k)%Z as Ea.
      { destruct s; cbn [cond_Zopp] in Em; nia. }
      rewrite Ea, Z.mod_mul, Z.eqb_refl, Z.div_mul by lia.
      f_equal. destruct s; cbn [cond_Zopp] in *; nia.
Qed.

Theorem Math_floor_value x :
  finite x = true ->
  finite (Math_floor x) = true /\
  value (Math_floor x) = IZR (Zfloor (value x)).
Proof.
  intros F. unfold Math_floor.
  destruct (finite_value_cases x F) as [ [V (s & E)] | (s & m & e & E & V) ].
  { rewrite E. split; [exact F | ]. rewrite V.
    symmetry. f_equal. apply Zfloor_eq. cbn. lra. }
  rewrite E. destruct (valid_mantissa64 x s m e E) as [Hm He].
  destruct (Z.leb_spec 0 e) as [Hp | Hn].
  - split; [exact F | ]. rewrite V.
    rewrite p2_IZR, <- mult_IZR by lia.
    symmetry. f_equal. apply Zfloor_eq. lra.
  - set (k := (- e)%Z). set (n := cond_Zopp s (Z.pos m)) in *.
    rewrite Z.shiftr_div_pow2 by (unfold k; lia).
    set (z := (n / 2 ^ k)%Z).
    assert (0 < 2 ^ k)%Z as Hk by (apply Z.pow_pos_nonneg; unfold k; lia).
    assert (Zfloor (value x) = z) as Ez.
    { apply Zfloor_eq. rewrite V.
      replace e with (- k)%Z by (unfold k; lia).
      pose proof (Z.div_mod n (2 ^ k) ltac:(lia)) as Hd.
      pose proof (Z.mod_pos_bound n (2 ^ k) Hk) as Hr.
      fold z in Hd. set (r := (n mod 2 ^ k)%Z) in *.
      assert (IZR n = IZR (2 ^ k) * IZR z + IZR r) as En
        by (rewrite <- mult_IZR, <- plus_IZR; f_equal; lia).
      assert (p2 (- k) = / IZR (2 ^ k)) as Ep.
      { unfold p2. rewrite powerRZ_neg'. f_equal.
        change (powerRZ 2 k) with (p2 k). apply p2_IZR. unfold k; lia. }
      rewrite Ep, En.
      assert (0 < IZR (2 ^ k)) as Hq by (apply IZR_lt; lia).
      destruct Hr as [Hr0 Hr1]. apply IZR_le in Hr0. apply IZR_lt in Hr1.
      split.
      + apply Rmult_le_reg_r with (r := IZR (2 ^ k)); [lra | ].
        field_simplify; lra.
      + apply Rmult_lt_reg_r with (r := IZR (2 ^ k)); [lra | ].
        field_simplify; lra. }
    rewrite Ez.
    destruct (Z.eqb_spec z 0) as [-> | NZ].
    + split; reflexivity.
    + apply of_Z_value.
      assert (Z.abs n < 2 ^ 53)%Z by (unfold n; destruct s; cbn; lia).
      assert (- 2 ^ 53 <= z <= 2 ^ 53)%Z; [ | lia].
      split.
      * apply Z.div_le_lower_bound; nia.
      * apply Z.div_le_upper_bound; nia.
Qed.

(** The error of one rounding, below [2^b]. *)
Lemma rounds64_error_abs X Y b :
  rounds64 X Y -> Rabs X < p2 b -> (-1021 <= b)%Z ->
  Rabs (Y - X) <= p2 (b - 54).
Proof.
  intros H HX Hb.
  destruct (Req_dec X 0) as [-> | NZ].
  - apply (rounds_to_0 prec) in H. subst Y.
    rewrite Rminus_0_r, Rabs_R0. left. apply p2_pos.
  - destruct (binade_exists X NZ) as [k Hk].
    pose proof (rounds_to_error prec (SpecFloat.emin prec emax) X Y k Hk H) as E.
    eapply Rle_trans; [exact E | ]. apply p2_le.
    destruct Hk as [Hk _].
    assert (k - 1 < b)%Z by (apply p2_lt_inv; lra).
    unfold grid. change (SpecFloat.emin prec emax) with (-1074)%Z.
    change prec with 53%Z. lia.
Qed.

(** ** [midi % 12] *)

Lemma rem_abs a :
  Z.rem a 12 = (if (a <? 0)%Z then - (Z.abs a mod 12) else Z.abs a mod 12)%Z.
Proof.
  destruct (Z.ltb_spec a 0) as [Hn | Hp].
  - replace a with (- (- a))%Z at 1 by lia.
    rewrite Z.rem_opp_l by lia. rewrite Z.rem_mod_nonneg by lia.
    f_equal. f_equal. lia.
  - rewrite Z.rem_mod_nonneg by lia. f_equal. lia.
Qed.

Theorem remainder_value x a :
  finite x = true -> value x = IZR a ->
  finite (Number_remainder x 12) = true /\
  value (Number_remainder x 12) = IZR (Z.rem a 12).
Proof.
  intros F V. unfold Number_remainder.
  change (Prim2SF 12) with (S754_finite false 6755399441055744 (-49)).
  destruct (finite_value_cases x F) as [ [V0 (s & E)] | (s & m & e & E & V1) ];
    rewrite E.
  { split; [exact F | ]. rewrite V0. f_equal.
    assert (a = 0%Z) as -> by (apply eq_IZR; congruence). reflexivity. }
  destruct (valid_mantissa64 x s m e E) as [Hm He].
  set (e' := Z.min e (-49)). set (k := (- e')%Z).
  assert (49 <= k <= 1074)%Z as Hk by (unfold k, e'; lia).
  assert (0 < 2 ^ k)%Z as Hpk by (apply Z.pow_pos_nonneg; lia).
  set (N := (Z.pos m * 2 ^ (e - e'))%Z).
  set (D := (6755399441055744 * 2 ^ (-49 - e'))%Z).
  assert (D = 12 * 2 ^ k)%Z as ED.
  { unfold D. change 6755399441055744%Z with (12 * 2 ^ 49)%Z.
    rewrite <- Z.mul_assoc, <- Z.pow_add_r by (unfold k in *; lia).
    do 2 f_equal. unfold k. lia. }
  assert (N = Z.abs a * 2 ^ k)%Z as EN.
  { apply eq_IZR. unfold N.
    rewrite !mult_IZR, <- !p2_IZR by (unfold e', k in *; lia).
    rewrite abs_IZR, <- V, V1, Rabs_mult, (Rabs_pos_eq (p2 e))
      by (left; apply p2_pos).
    assert (Rabs (IZR (cond_Zopp s (Z.pos m))) = IZR (Z.pos m)) as ->.
    { destruct s; cbn [cond_Zopp]; rewrite ?opp_IZR, ?Rabs_Ropp;
        apply Rabs_pos_eq; apply IZR_le; lia. }
    replace (e - e')%Z with (e + k)%Z by (unfold k; lia).
    rewrite p2_add. ring. }
  assert (N mod D = (Z.abs a mod 12) * 2 ^ k)%Z as Er
    by (rewrite EN, ED; apply Z.mul_mod_distr_r; lia).
  assert (a <> 0%Z) as NZ.
  { intros ->. rewrite V in V1. pose proof (p2_pos e).
    assert (0 < IZR (Z.pos m)) by (apply IZR_lt; lia).
    destruct s; cbn [cond_Zopp] in V1; rewrite ?opp_IZR in V1; nra. }
  assert (s = (a <? 0)%Z) as Es.
  { rewrite V in V1. pose proof (p2_pos e).
    assert (0 < IZR (Z.pos m)) by (apply IZR_lt; lia).
    destruct (Z.ltb_spec a 0) as [Hn | Hp0].
    - apply IZR_lt in Hn. destruct s; [reflexivity | ].
      cbn [cond_Zopp] in V1. nra.
    - apply IZR_le in Hp0. destruct s; [ | reflexivity].
      cbn [cond_Zopp] in V1. rewrite opp_IZR in V1. nra. }
  pose proof (Z.mod_pos_bound (Z.abs a) 12 ltac:(lia)) as Hmod.
  rewrite rem_abs, <- Es.
  destruct (N mod D)%Z as [ | r | r ] eqn:Emod.
  - assert (Z.abs a mod 12 = 0)%Z as -> by nia.
    destruct s; split; reflexivity.
  - assert (Z.pos r < 2 ^ 53)%Z as Hr.
    { pose proof (Z.mod_pos_bound N D ltac:(lia)) as H1.
      pose proof (Z.mod_le N D ltac:(lia) ltac:(lia)) as H2.
      rewrite Emod in H1, H2.
      destruct (Z_le_gt_dec e (-49)) as [Hle | Hgt].
      - assert (N = Z.pos m) as EN'.
        { unfold N. replace (e - e')%Z with 0%Z by (unfold e'; lia). lia. }
        lia.
      - assert (D = 6755399441055744)%Z as ED'.
        { unfold D. replace (-49 - e')%Z with 0%Z by (unfold e'; lia). lia. }
        lia. }
    destruct (SF2Prim_value s r e' Hr ltac:(unfold e'; lia)) as [Fr Vr].
    split; [exact Fr | ]. rewrite Vr. cbn [SF2R].
    assert (IZR (Z.pos r) * p2 e' = IZR (Z.abs a mod 12)) as EV.
    { rewrite Er, mult_IZR, <- p2_IZR, Rmult_assoc, <- p2_add by lia.
      replace (k + e')%Z with 0%Z by (unfold k; lia). rewrite p2_0. ring. }
    destruct s; cbn [cond_Zopp]; rewrite ?opp_IZR; lra.
  - pose proof (Z.mod_pos_bound N D ltac:(lia)) as H1. lia.
Qed.

(** ** [Math.floor(midi / 12) - 1] *)


Theorem octave_value x (a : Z) :
  finite x = true -> value x = IZR a -> (Z.abs a <= 2 ^ 53)%Z ->
  finite (Math_floor (x / 12) - 1) = true /\
  value (Math_floor (x / 12) - 1) = IZR (a / 12 - 1).
Proof.
  intros F V B. destruct EngineFacts.value_12 as [F12 V12]. destruct EngineFacts.value_1 as [F1 V1].
  pose proof (div_rounded x 12 F F12 ltac:(lra)) as R.
  rewrite V, V12 in R.
  assert (Rabs (IZR a / 12) < p2 50) as Ha.
  { apply IZR_le in B. rewrite abs_IZR, <- p2_IZR in B by lia.
    assert (p2 53 = 8 * p2 50) as E.
    { replace 53%Z with (3 + 50)%Z by lia. rewrite p2_add.
      f_equal. now rewrite (p2_IZR 3) by lia. }
    pose proof (p2_pos 50).
    unfold Rdiv. rewrite Rabs_mult, (Rabs_pos_eq (/ 12)) by lra. lra. }
  destruct (rounded_finite _ _ (p2 50) R (representable_p2 50 ltac:(lia))
              ltac:(apply p2_lt; reflexivity) ltac:(lra)) as [Fq Hq].
  fold (finite (x / 12)) in Fq. fold (value (x / 12)) in Hq.
  pose proof (rounds64_error_abs _ _ 50 Hq Ha ltac:(lia)) as Herr.
  replace (50 - 54)%Z with (-4)%Z in Herr by lia.
  assert (p2 (-4) = / 16) as E4.
  { apply (p2_neg (-4) 16); [lia | reflexivity]. }
  rewrite E4 in Herr. apply Rabs_le_both in Herr.
  (* the quotient and the remainder of [a] by 12 *)
  pose proof (Z.div_mod a 12 ltac:(lia)) as Hd.
  pose proof (Z.mod_pos_bound a 12 ltac:(lia)) as Hr.
  set (q := (a / 12)%Z) in *. set (r := (a mod 12)%Z) in *.
  assert (IZR a / 12 = IZR q + IZR r / 12) as Ea.
  { rewrite Hd, plus_IZR, mult_IZR. field. }
  assert (Z.abs q <= 2 ^ 53)%Z as Bq.
  { assert (- 2 ^ 53 <= q <= 2 ^ 53)%Z; [ | lia]. unfold q. split.
    - apply Z.div_le_lower_bound; lia.
    - apply Z.div_le_upper_bound; lia. }
  assert (Zfloor (value (x / 12)) = q) as Efl.
  { apply Zfloor_eq. destruct (Z.eq_dec r 0) as [E0 | NZ].
    - assert (IZR a / 12 = IZR q) as Eq0 by (rewrite Ea, E0; field).
      rewrite Eq0 in Hq.
      rewrite (rounds_to_exact prec (SpecFloat.emin prec emax) prec_pos
                 (IZR q) _ (representable_int q Bq) Hq). lra.
    - assert (1 <= r <= 11)%Z as [H1 H2] by lia.
      apply IZR_le in H1, H2. lra. }
  destruct (Math_floor_value (x / 12) Fq) as [Ff Vf]. rewrite Efl in Vf.
  apply (sub_int _ 1 q 1 Ff F1 Vf V1).
  assert (- 2 ^ 53 <= q - 1 <= 2 ^ 53)%Z; [ | lia]. unfold q. split.
  - assert (- 2 ^ 53 / 12 <= a / 12)%Z by (apply Z.div_le_mono; lia).
    assert (- 2 ^ 53 + 1 <= - 2 ^ 53 / 12)%Z by (vm_compute; discriminate).
    lia.
  - assert (a / 12 <= 2 ^ 53 / 12)%Z by (apply Z.div_le_mono; lia).
    assert (2 ^ 53 / 12 <= 2 ^ 53)%Z by (vm_compute; discriminate).
    lia.
Qed.

Lemma finite_not_special x :
  finite x = true ->
  match Prim2SF x with
  | S754_nan | S754_infinity _ => False
  | _ => True
  end.
Proof. unfold finite. now destruct (Prim2SF x). Qed.

Lemma Number_toString_int x z :
  finite x = true -> value x = IZR z -> (Z.abs z <= 2 ^ 53)%Z ->
  Number_toString x = Some (NoteMath.string_of_Z z).
Proof.
  intros F V B. unfold Number_toString.
  rewrite (to_integer_value x z F V).
  apply Z.leb_le in B. rewrite B.
  pose proof (finite_not_special x F) as H.
  destruct (Prim2SF x); try contradiction; reflexivity.
Qed.

(** The name as [midiToNoteName] builds it: the remainder is the one
    that takes the sign of [n]. *)
Theorem midiToNoteName_of_Z (n : Z) :
  (Z.abs n <= 2 ^ 53)%Z ->
  midiToNoteName (of_Z n)
  = Some (NoteMath.to_string (NoteMath.element NoteMath.NOTE_NAMES (Z.rem n 12))
          ++ NoteMath.string_of_Z (n / 12 - 1))%string.
Proof.
  intros B. destruct (of_Z_value n B) as [F V].
  destruct (remainder_value (of_Z n) n F V) as [Fr Vr].
  destruct (octave_value (of_Z n) n F V B) as [Fo Vo].
  unfold midiToNoteName, element_at.
  rewrite (to_integer_value _ _ Fr Vr).
  rewrite (Number_toString_int _ _ Fo Vo); [reflexivity | ].
  assert (- 2 ^ 53 <= n / 12 - 1 <= 2 ^ 53)%Z; [ | lia]. split.
  - assert (- 2 ^ 53 / 12 <= n / 12)%Z by (apply Z.div_le_mono; lia).
    assert (- 2 ^ 53 + 1 <= - 2 ^ 53 / 12)%Z by (vm_compute; discriminate).
    lia.
  - assert (n / 12 <= 2 ^ 53 / 12)%Z by (apply Z.div_le_mono; lia).
    assert (2 ^ 53 / 12 <= 2 ^ 53)%Z by (vm_compute; discriminate).
    lia.
Qed.

Lemma element_in_range r :
  (0 <= r < 12)%Z ->
  NoteMath.element NoteMath.NOTE_NAMES r
  = Some (nth (Z.to_nat r) NoteMath.NOTE_NAMES ""%string).
Proof.
  intros H. unfold NoteMath.element.
  destruct (Z.ltb_spec r 0); [lia | ].
  apply nth_error_nth'. change (length NoteMath.NOTE_NAMES) with 12%nat. lia.
Qed.

Lemma element_negative r :
  (r < 0)%Z -> NoteMath.element NoteMath.NOTE_NAMES r = None.
Proof.
  intros H. unfold NoteMath.element. destruct (Z.ltb_spec r 0); [reflexivity | lia].
Qed.

(** C9, as stated, fails: below zero the remainder is negative, no name
    is found, and the string says so. *)
Lemma negative_index_counterexample :
  midiToNoteName (of_Z (-1)) = Some "undefined-2"%string /\
  nth_error NoteMath.NOTE_NAMES (Z.to_nat ((-1) mod 12)) = Some "Si"%string.
Proof. split; vm_compute; reflexivity. Qed.

(** C9, amended. For every integer [n] of magnitude up to [2^53],
    [midiToNoteName] appends the octave [floor(n / 12) - 1] to the name at
    position [n mod 12] when [n] is not negative or is a multiple of 12,
    and to [undefined] when [n] is negative and no multiple of 12. *)
Theorem note_name_of_index (n : Z) :
  (Z.abs n <= 2 ^ 53)%Z ->
  midiToNoteName (of_Z n)
  = Some ((if (0 <=? n)%Z || (n mod 12 =? 0)%Z
           then nth (Z.to_nat (n mod 12)) NoteMath.NOTE_NAMES ""
           else "undefined")
          ++ NoteMath.string_of_Z (n / 12 - 1))%string.
Proof.
  intros B. rewrite (midiToNoteName_of_Z n B). do 2 f_equal.
  pose proof (Z.mod_pos_bound n 12 ltac:(lia)) as Hmod.
  destruct (Z.leb_spec 0 n) as [Hp | Hn]; cbn [orb].
  - rewrite Z.rem_mod_nonneg by lia.
    now rewrite element_in_range.
  - destruct (Z.eqb_spec (n mod 12) 0) as [E0 | NZ].
    + assert (Z.rem n 12 = 0)%Z as ->.
      { apply Z.rem_divide; [lia | ]. apply Z.mod_divide; lia. }
      rewrite E0. reflexivity.
    + assert (Z.rem n 12 < 0)%Z as Hr.
      { pose proof (Z.rem_nonpos n 12 ltac:(lia) ltac:(lia)) as H1.
        assert (Z.rem n 12 <> 0)%Z; [ | lia].
        intros E. apply NZ. apply Z.mod_divide; [lia | ].
        apply Z.rem_divide; lia. }
      now rewrite element_negative.
Qed.

Lemma note_name_of_index_witness :
  (Z.abs 69 <= 2 ^ 53)%Z /\ midiToNoteName (of_Z 69) = Some "La4"%string.
Proof.
  assert (Z.abs 69 <= 2 ^ 53)%Z as H by (vm_compute; discriminate).
  split; [exact H | exact (note_name_of_index 69 H)].
Defined.

(** Past [2^53] the octave itself is off: the subtraction rounds. *)
Example octave_rounds :
  (Math_floor (of_Z (12 * 2 ^ 54) / 12) - 1)%float = of_Z (2 ^ 54).
Proof. vm_compute. reflexivity. Qed.

End NoteNameFacts.

(** * The display *)

Module PresentationFacts.

Import JSFloat Presentation FloatFacts.
Open Scope float_scope.

Lemma SFleb_of_ltb x y : SFltb x y = true -> SFleb x y = true.
Proof. unfold SFltb, SFleb. now destruct (SFcompare x y) as [ [ | | ] | ]. Qed.

Lemma SFcompare_none x y :
  SFcompare x y = None -> x = S754_nan \/ y = S754_nan.
Proof.
  destruct x as [ | [ | ] | | [ | ] mx ex ], y as [ | [ | ] | | [ | ] my ey ];
    simpl; try discriminate; auto.
Qed.

Lemma is_nan_false x : PrimFloat.is_nan x = false -> Prim2SF x <> S754_nan.
Proof.
  unfold PrimFloat.is_nan. rewrite eqb_spec. intros H E. now rewrite E in H.
Qed.

(** Of two numbers neither of which is below the other, each is at
    most the other. *)
Lemma leb_of_not_ltb x y :
  PrimFloat.is_nan x = false -> PrimFloat.is_nan y = false ->
  (x <? y) = false -> (y <=? x) = true.
Proof.
  rewrite ltb_spec, leb_spec. intros Hx Hy H.
  destruct (SFleb_of_not_ltb _ _ H) as [ | N]; [assumption | ].
  destruct (SFcompare_none _ _ N) as [E | E];
    [now apply is_nan_false in Hx | now apply is_nan_false in Hy].
Qed.

Lemma leb_of_ltb x y : (x <? y) = true -> (x <=? y) = true.
Proof. rewrite ltb_spec, leb_spec. apply SFleb_of_ltb. Qed.

Lemma or_else_number cents :
  PrimFloat.is_nan (or_else (Some cents) 0) = false.
Proof.
  unfold or_else, truthy, falsy.
  destruct (PrimFloat.is_zero cents); [reflexivity | ].
  destruct (PrimFloat.is_nan cents) eqn:E; [reflexivity | exact E].
Qed.

Lemma min_50 x :
  PrimFloat.is_nan x = false ->
  PrimFloat.is_nan (Math_min 50 x) = false /\ (Math_min 50 x <=? 50) = true.
Proof.
  intros Hx. unfold Math_min. rewrite Hx.
  change (PrimFloat.is_nan 50 || false) with false.
  change (get_sign 50) with false. cbv iota.
  destruct (50 <? x) eqn:H1; [split; reflexivity | ].
  split; [now destruct (x <? 50) | ].
  destruct (x <? 50); now apply leb_of_not_ltb.
Qed.

(** X4. The needle never leaves [-50, 50], whatever [cents] is. *)
Theorem needle_is_clamped (cents : float) :
  (-50 <=? clamped cents) && (clamped cents <=? 50) = true.
Proof.
  unfold clamped.
  destruct (min_50 _ (or_else_number cents)) as [Hn Hle].
  set (m := Math_min 50 (or_else (Some cents) 0)) in *.
  unfold Math_max. rewrite Hn.
  change (PrimFloat.is_nan (-50) || false) with false.
  change (get_sign (-50)) with true. cbv iota.
  destruct (-50 <? m) eqn:H1.
  - now rewrite (leb_of_ltb _ _ H1), Hle.
  - destruct (m <? -50) eqn:H2; [reflexivity | ].
    rewrite Hle, andb_true_r. now apply leb_of_not_ltb.
Qed.

Lemma tl_skipn {A : Type} (l : list A) : tl l = skipn 1 l.
Proof. now destruct l. Qed.

Lemma pushHistory_window {A : Type} (l : list A) (x : A) :
  pushHistory (skipn (length l - HISTORY_MAX) l) x
  = skipn (length (l ++ [x]) - HISTORY_MAX) (l ++ [x]).
Proof.
  unfold pushHistory. rewrite !length_app, length_skipn. cbn [length].
  assert (0 < HISTORY_MAX)%nat as Hcap by (unfold HISTORY_MAX; lia).
  revert Hcap. generalize HISTORY_MAX. intros cap Hcap.
  destruct (Nat.ltb_spec cap (length l - (length l - cap) + 1))
    as [Hfull | Hroom].
  - rewrite tl_skipn, skipn_app, length_skipn, skipn_skipn.
    replace (1 + (length l - cap))%nat with (length l + 1 - cap)%nat by lia.
    replace (1 - (length l - (length l - cap)))%nat with 0%nat by lia.
    rewrite skipn_app.
    replace (length l + 1 - cap - length l)%nat with 0%nat by lia.
    reflexivity.
  - replace (length l - cap)%nat with 0%nat by lia.
    replace (length l + 1 - cap)%nat with 0%nat by lia. reflexivity.
Qed.

(** X3. The history holds the last [HISTORY_MAX] samples pushed, in the
    order they came. *)
Theorem history_keeps_last (A : Type) (samples : list A) :
  fold_left pushHistory samples []
  = skipn (length samples - HISTORY_MAX) samples.
Proof.
  induction samples as [ | x samples IH ] using rev_ind; [reflexivity | ].
  rewrite fold_left_app. cbn [fold_left]. rewrite IH.
  apply pushHistory_window.
Qed.

End PresentationFacts.

(** * The estimator at the edges of the lag curve *)

Module EstimatorEdgeFacts.

Import JSFloat Estimator FloatFacts EstimatorFacts.
Open Scope float_scope.

Lemma autocorr_length buf : length (autocorr buf) = length buf.
Proof. unfold autocorr. now rewrite length_map, length_seq. Qed.

Lemma skip_descent_short c k :
  (length c <= 1)%nat -> skip_descent c k = k.
Proof.
  destruct c as [ | x [ | y c ] ]; simpl; intros H; lia || reflexivity.
Qed.

(** X8. A frame of fewer than two samples has no lag but 0 to offer:
    the estimator answers [None], whatever the sample and the rate. *)
Theorem short_frame_no_pitch (buf : list float) (sampleRate : float) :
  (length buf <= 1)%nat -> detectPitchAutoCorr buf sampleRate = None.
Proof.
  intros Hlen. unfold detectPitchAutoCorr.
  destruct (rms buf <? MIN_RMS); [reflexivity | ].
  cbv zeta.
  rewrite skip_descent_short by (now rewrite autocorr_length).
  destruct (find_max_within (autocorr buf) 0 ltac:(lia)) as [H | H].
  - now rewrite H.
  - rewrite autocorr_length in H.
    destruct (Z.leb_spec (snd (find_max (autocorr buf) 0)) 0);
      [reflexivity | lia].
Qed.

Lemma short_frame_no_pitch_witness :
  (length [1] <= 1)%nat /\ detectPitchAutoCorr [1] 44100 = None.
Proof.
  assert (length [1] <= 1)%nat as H by (simpl; lia).
  split; [exact H | exact (short_frame_no_pitch [1] 44100 H)].
Defined.

Lemma get_firstn c i n :
  (i < Z.of_nat n)%Z -> get (firstn n c) i = get c i.
Proof.
  intros H. unfold get. destruct (i <? 0)%Z eqn:E; [reflexivity | ].
  apply Z.ltb_ge in E. rewrite nth_error_firstn.
  destruct (Nat.ltb_spec (Z.to_nat i) n); [reflexivity | lia].
Qed.

Lemma get_firstn_out c i n :
  (Z.of_nat n <= i)%Z -> get (firstn n c) i = None.
Proof.
  intros H. unfold get. destruct (i <? 0)%Z; [reflexivity | ].
  apply nth_error_None. rewrite length_firstn. lia.
Qed.

(** X9. A right neighbour of the peak that is [0], [-0] or [NaN] counts
    as missing: the refinement gives what it gives on the curve cut
    after the peak. *)
Theorem zero_neighbour_is_missing
  (c : list float) (maxPos : Z) (sampleRate v : float) :
  (0 <= maxPos)%Z ->
  get c (maxPos + 1) = Some v -> falsy v = true ->
  interpolate c maxPos sampleRate
  = interpolate (firstn (Z.to_nat maxPos + 1) c) maxPos sampleRate.
Proof.
  intros Hp Hv Hf. unfold interpolate.
  rewrite (get_firstn c (maxPos - 1)), (get_firstn c maxPos) by lia.
  rewrite (get_firstn_out c (maxPos + 1)) by lia.
  rewrite Hv. unfold or_else, truthy. now rewrite Hf.
Qed.

Lemma zero_neighbour_is_missing_witness :
  (0 <= 1)%Z /\ get [3; 2; 0; 1] (1 + 1) = Some 0 /\ falsy 0 = true /\
  interpolate [3; 2; 0; 1] 1 44100
  = interpolate (firstn (Z.to_nat 1 + 1) [3; 2; 0; 1]) 1 44100.
Proof.
  assert (0 <= 1)%Z as H1 by lia.
  assert (get [3; 2; 0; 1] (1 + 1) = Some 0) as H2 by reflexivity.
  assert (falsy 0 = true) as H3 by reflexivity.
  split; [exact H1 | split; [exact H2 | split; [exact H3 | ] ] ].
  exact (zero_neighbour_is_missing [3; 2; 0; 1] 1 44100 0 H1 H2 H3).
Defined.

End EstimatorEdgeFacts.

(** * The order of doubles *)

Module OrderFacts.

Import JSFloat RealValue RealValueFacts RoundingFacts DoubleFacts IntegerFacts.
Import MonotoneFacts.
Local Open Scope R_scope.

Lemma SFltb_cases x y :
  SpecFloat.valid_binary prec emax x = true ->
  SpecFloat.valid_binary prec emax y = true ->
  SFltb x y = true <->
  (x = S754_infinity true /\ sf_finite y = true) \/
  (x = S754_infinity true /\ y = S754_infinity false) \/
  (y = S754_infinity false /\ sf_finite x = true) \/
  (sf_finite x = true /\ sf_finite y = true /\ SF2R x < SF2R y).
Proof.
  intros Vx Vy.
  destruct (sf_finite x) eqn:Fx; [destruct (sf_finite y) eqn:Fy | ].
  - pose proof (SFcompare_finite prec emax prec_pos x y Vx Vy Fx Fy) as H.
    unfold SFltb.
    destruct (SFcompare x y) as [ [ | | ] | ]; try contradiction; split;
      try discriminate; try reflexivity;
      try (intros _; right; right; right; split; [reflexivity | ];
           split; [reflexivity | lra]);
      intros [ [-> _] | [ [-> _] | [ [-> _] | (_ & _ & H') ] ] ];
      try discriminate; lra.
  - destruct x as [ sx | sx | | sx mx ex ]; try discriminate;
      destruct y as [ sy | [ | ] | | sy my ey ]; try discriminate;
      try destruct sx; unfold SFltb; cbn [SFcompare]; split; intros H;
      try reflexivity; try discriminate;
      try (right; right; left; split; reflexivity);
      intuition (try discriminate; try congruence).
  - destruct x as [ sx | [ | ] | | sx mx ex ]; try discriminate;
      destruct y as [ sy | [ | ] | | [ | ] my ey ];
      unfold SFltb; cbn [SFcompare]; split; intros H;
      try reflexivity; try discriminate;
      try (left; split; reflexivity);
      try (right; left; split; reflexivity);
      intuition (try discriminate; try congruence).
Qed.

Lemma ltb_cases x y :
  (x <? y)%float = true <->
  (Prim2SF x = S754_infinity true /\ finite y = true) \/
  (Prim2SF x = S754_infinity true /\ Prim2SF y = S754_infinity false) \/
  (Prim2SF y = S754_infinity false /\ finite x = true) \/
  (finite x = true /\ finite y = true /\ value x < value y).
Proof.
  pose proof (FloatAxioms.ltb_spec x y) as E. rewrite E.
  apply SFltb_cases; apply Prim2SF_valid.
Qed.

Lemma is_nan_spec x : PrimFloat.is_nan x = true <-> Prim2SF x = S754_nan.
Proof.
  unfold PrimFloat.is_nan. pose proof (FloatAxioms.eqb_spec x x) as E.
  rewrite E. unfold SFeqb.
  pose proof (Prim2SF_valid x) as V.
  destruct (Prim2SF x) as [ s | [ | ] | | s m e ] eqn:Ex.
  - cbn. split; discriminate.
  - cbn. split; discriminate.
  - cbn. split; discriminate.
  - cbn. split; reflexivity.
  - pose proof (SFcompare_finite prec emax prec_pos _ _ V V eq_refl eq_refl) as H.
    destruct (SFcompare (S754_finite s m e) (S754_finite s m e))
      as [ [ | | ] | ]; try contradiction; try lra.
    cbn. split; discriminate.
Qed.

Lemma is_nan_false_spec x :
  PrimFloat.is_nan x = false <-> Prim2SF x <> S754_nan.
Proof.
  rewrite <- is_nan_spec. destruct (PrimFloat.is_nan x); split; congruence.
Qed.

Ltac clash :=
  match goal with
  | F : finite ?x = true, E : Prim2SF ?x = S754_infinity _ |- _ =>
      exfalso; unfold finite in F; rewrite E in F; discriminate F
  | F : finite ?x = true, E : Prim2SF ?x = S754_nan |- _ =>
      exfalso; unfold finite in F; rewrite E in F; discriminate F
  | E1 : Prim2SF ?x = S754_infinity true,
    E2 : Prim2SF ?x = S754_infinity false |- _ =>
      exfalso; rewrite E1 in E2; discriminate E2
  | E1 : Prim2SF ?x = S754_infinity _, E2 : Prim2SF ?x = S754_nan |- _ =>
      exfalso; rewrite E1 in E2; discriminate E2
  | E : Prim2SF ?x = S754_nan, N : Prim2SF ?x <> S754_nan |- _ =>
      exfalso; exact (N E)
  end.

Lemma finite_not_nan x : finite x = true -> Prim2SF x <> S754_nan.
Proof. intros F E. clash. Qed.

Lemma inf_not_nan x s : Prim2SF x = S754_infinity s -> Prim2SF x <> S754_nan.
Proof. intros E N. clash. Qed.

Ltac pick_lt :=
  first [ solve [left; split; assumption]
        | solve [right; left; split; assumption]
        | solve [right; right; left; split; assumption]
        | solve [right; right; right; repeat split; (assumption || lra)] ].

Lemma leb_ltb_trans a b c :
  (a <=? b)%float = true -> (b <? c)%float = true -> (a <? c)%float = true.
Proof.
  intros H1 H2. apply leb_cases in H1. apply ltb_cases in H2. apply ltb_cases.
  destruct H1 as [ [Ea Nb] | [ [Eb Na] | (Fa & Fb & Hab) ] ];
    destruct H2 as [ [Eb' Fc] | [ [Eb' Ec] | [ [Ec Fb'] | (Fb' & Fc & Hbc) ] ] ];
    try clash; try pick_lt;
    try (destruct (not_nan_cases a Na) as [Fa | [Ea | Ea] ]; try clash; pick_lt).
Qed.

Lemma ltb_leb a b : (a <? b)%float = true -> (a <=? b)%float = true.
Proof.
  intros H. apply ltb_cases in H. apply leb_cases.
  destruct H as [ [Ea Fb] | [ [Ea Eb] | [ [Eb Fa] | (Fa & Fb & H) ] ] ].
  - left. split; [exact Ea | now apply finite_not_nan].
  - left. split; [exact Ea | now apply (inf_not_nan b false)].
  - right. left. split; [exact Eb | now apply finite_not_nan].
  - right. right. split; [exact Fa | split; [exact Fb | lra] ].
Qed.

Lemma leb_refl a : Prim2SF a <> S754_nan -> (a <=? a)%float = true.
Proof.
  intros N. apply leb_cases.
  destruct (not_nan_cases a N) as [F | [E | E] ].
  - right. right. split; [exact F | split; [exact F | lra] ].
  - left. auto.
  - right. left. auto.
Qed.

Lemma ltb_not_nan a b :
  (a <? b)%float = true -> Prim2SF a <> S754_nan /\ Prim2SF b <> S754_nan.
Proof.
  intros H. apply ltb_cases in H.
  destruct H as [ [Ea Fb] | [ [Ea Eb] | [ [Eb Fa] | (Fa & Fb & H) ] ] ];
    split; intros N; clash.
Qed.

Lemma leb_not_nan a b :
  (a <=? b)%float = true -> Prim2SF a <> S754_nan /\ Prim2SF b <> S754_nan.
Proof.
  intros H. apply leb_cases in H.
  destruct H as [ [Ea Nb] | [ [Eb Na] | (Fa & Fb & H) ] ];
    split; try assumption; intros N; clash.
Qed.

(** A failed [<] between two numbers is [>=]. *)
Lemma ltb_false a b :
  (a <? b)%float = false ->
  Prim2SF a <> S754_nan -> Prim2SF b <> S754_nan -> (b <=? a)%float = true.
Proof.
  intros H Na Nb. apply leb_cases.
  assert (~ ((a <? b)%float = true)) as H' by congruence.
  rewrite ltb_cases in H'.
  destruct (not_nan_cases a Na) as [Fa | [Ea | Ea] ];
    destruct (not_nan_cases b Nb) as [Fb | [Eb | Eb] ]; auto.
  - right. right. split; [exact Fb | split; [exact Fa | ] ].
    destruct (Rle_lt_dec (value b) (value a)); [assumption | ].
    exfalso. apply H'. right. right. right. auto.
  - exfalso. apply H'. right. right. left. auto.
  - exfalso. apply H'. left. auto.
  - exfalso. apply H'. right. left. auto.
Qed.

End OrderFacts.

(** * What the search for the peak leaves *)

Module SearchFacts.

Import JSFloat Estimator RealValue RealValueFacts RoundingFacts DoubleFacts.
Import IntegerFacts MonotoneFacts OrderFacts.
Open Scope float_scope.

Local Abbreviation entry c i := (num (get c (Z.of_nat i))).

Lemma minus_one_not_nan : Prim2SF (-1) <> S754_nan.
Proof. discriminate. Qed.

(** The state of the scan after the indices [a], ..., [a + n - 1]:
    nothing seen reaches above [max]; what came before [maxPos] is below
    it, strictly; what came after is not above it. *)
Lemma scan_invariant c a n :
  let st := fold_left (max_step c) (map Z.of_nat (seq a n)) (-1, (-1)%Z) in
  Prim2SF (fst st) <> S754_nan /\
  (-1 <=? fst st) = true /\
  (forall i, (a <= i < a + n)%nat ->
     Prim2SF (entry c i) = S754_nan \/ (entry c i <=? fst st) = true) /\
  ((snd st = (-1)%Z /\ fst st = -1) \/
   exists p, snd st = Z.of_nat p /\ (a <= p < a + n)%nat /\
     fst st = entry c p /\ (-1 <? fst st) = true /\
     (forall i, (a <= i < p)%nat ->
        Prim2SF (entry c i) = S754_nan \/ (entry c i <? fst st) = true) /\
     (forall i, (p < i < a + n)%nat -> (fst st <? entry c i) = false)).
Proof.
  induction n as [ | n IH ]; cbv zeta.
  - cbn [seq map fold_left fst snd].
    split; [exact minus_one_not_nan | ]. split; [reflexivity | ].
    split; [intros i Hi; lia | left; auto].
  - rewrite seq_S, map_app, fold_left_app. cbn [map fold_left].
    cbv zeta in IH.
    set (st := fold_left (max_step c) (map Z.of_nat (seq a n)) (-1, (-1)%Z))
      in *.
    destruct IH as (Nn & Hm1 & Q & Hpos).
    destruct (fst st <? entry c (a + n)) eqn:T.
    + assert (max_step c st (Z.of_nat (a + n))
              = (entry c (a + n), Z.of_nat (a + n))) as ->
        by (unfold max_step; cbv zeta; now rewrite T).
      cbn [fst snd].
      destruct (ltb_not_nan _ _ T) as [_ Nc].
      assert (forall i, (a <= i < a + n)%nat ->
                Prim2SF (entry c i) = S754_nan \/
                (entry c i <? entry c (a + n)) = true) as P1.
      { intros i Hi. destruct (Q i Hi) as [H | H]; [now left | right].
        now apply (leb_ltb_trans _ (fst st)). }
      split; [exact Nc | ].
      split; [apply ltb_leb; now apply (leb_ltb_trans _ (fst st)) | ].
      split.
      * intros i Hi. destruct (Nat.eq_dec i (a + n)) as [-> | NE].
        -- right. now apply leb_refl.
        -- destruct (P1 i ltac:(lia)) as [H | H]; [now left | right].
           now apply ltb_leb.
      * right. exists (a + n)%nat. split; [reflexivity | ].
        split; [lia | ]. split; [reflexivity | ].
        split; [now apply (leb_ltb_trans _ (fst st)) | ].
        split; [intros i Hi; apply P1; lia | intros i Hi; lia].
    + assert (max_step c st (Z.of_nat (a + n)) = st) as ->
        by (unfold max_step; cbv zeta; now rewrite T).
      split; [exact Nn | ]. split; [exact Hm1 | ]. split.
      * intros i Hi. destruct (Nat.eq_dec i (a + n)) as [-> | NE].
        -- destruct (PrimFloat.is_nan (entry c (a + n))) eqn:En.
           ++ left. now apply is_nan_spec.
           ++ right. apply ltb_false; [exact T | exact Nn | ].
              now apply is_nan_false_spec.
        -- apply Q. lia.
      * destruct Hpos as [ [Hs Hf] | (p & Hs & Hp & Hf & Hgt & P1 & P2) ];
          [left; auto | right].
        exists p. split; [exact Hs | ]. split; [lia | ].
        split; [exact Hf | ]. split; [exact Hgt | ]. split; [exact P1 | ].
        intros i Hi. destruct (Nat.eq_dec i (a + n)) as [-> | NE];
          [exact T | apply P2; lia].
Qed.

Lemma ltb_irrefl a : (a <? a) = false.
Proof.
  destruct (a <? a) eqn:E; [ | reflexivity]. exfalso.
  apply ltb_cases in E.
  destruct E as [ [Ea Fb] | [ [Ea Eb] | [ [Eb Fa] | (Fa & Fb & H) ] ] ];
    try clash. apply (Rlt_irrefl _ H).
Qed.

Lemma get_nat c i : get c (Z.of_nat i) = nth_error c i.
Proof.
  unfold get. destruct (Z.ltb_spec (Z.of_nat i) 0); [lia | ].
  now rewrite Nat2Z.id.
Qed.

Lemma get_some_lt c i v : get c (Z.of_nat i) = Some v -> (i < length c)%nat.
Proof.
  rewrite get_nat. intros H. apply nth_error_Some. congruence.
Qed.

Import Refinement.

(** Where the descent stops: every step before went down, the step at
    it, if there is one, does not. *)
Lemma descent_stops (c : list float) (k : Z) :
  exists n : nat,
    skip_descent c k = (k + Z.of_nat n)%Z /\
    (c <> [] -> (n < length c)%nat) /\
    (forall i, (i < n)%nat ->
       exists x y, nth_error c i = Some x /\ nth_error c (S i) = Some y /\
                   (y <? x) = true) /\
    (forall x y, nth_error c n = Some x -> nth_error c (S n) = Some y ->
                 (y <? x) = false).
Proof.
  revert k. induction c as [ | x c IH ]; intros k.
  - exists 0%nat. split; [simpl; lia | ]. split; [congruence | ].
    split; [intros i Hi; lia | discriminate].
  - destruct c as [ | y c ].
    + exists 0%nat. split; [simpl; lia | ]. split; [simpl; lia | ].
      split; [intros i Hi; lia | discriminate].
    + change (skip_descent (x :: y :: c) k)
        with (if y <? x then skip_descent (y :: c) (k + 1) else k).
      destruct (y <? x) eqn:E.
      * destruct (IH (k + 1)%Z) as (n & Hn & Hlen & Hdown & Hstop).
        exists (S n). split; [rewrite Hn; lia | ].
        split; [intros _; specialize (Hlen ltac:(discriminate)); simpl in *; lia | ].
        split; [ | intros a b; apply Hstop].
        intros [ | i ] Hi; [exists x, y; auto | apply Hdown; lia].
      * exists 0%nat. split; [lia | ]. split; [simpl; lia | ].
        split; [intros i Hi; lia | ].
        intros a b Ha Hb. simpl in Ha, Hb. congruence.
Qed.

(** What lies around the selected lag: [y2] is a number above -1, [y3]
    a number that is not above it, and [y1] is below [y2] (or [NaN]) when
    the peak was found past the start of the scan, above it when the
    peak is the start, and then [y3] is not below [y2] either. *)
Lemma peak_neighbours c :
  let maxPos := snd (find_max c (skip_descent c 0)) in
  (0 < maxPos)%Z ->
  (maxPos < Z.of_nat (length c))%Z /\
  (-1 <? y2_at c maxPos) = true /\
  Prim2SF (y3_at c maxPos) <> S754_nan /\
  (y2_at c maxPos <? y3_at c maxPos) = false /\
  ((Prim2SF (y1_at c maxPos) = S754_nan \/
    (y1_at c maxPos <? y2_at c maxPos) = true) \/
   ((y2_at c maxPos <? y1_at c maxPos) = true /\
    (y3_at c maxPos <? y2_at c maxPos) = false)).
Proof.
  cbv zeta. intros Hpos.
  destruct (descent_stops c 0)
    as (n & Hn & Hlen & Hdown & Hstop).
  rewrite Hn in *. rewrite Z.add_0_l in *. unfold find_max in *.
  rewrite Nat2Z.id in *.
  pose proof (scan_invariant c n (length c - n)) as Inv. cbv zeta in Inv.
  set (st := fold_left (max_step c) (map Z.of_nat (seq n (length c - n)))
               (-1, (-1)%Z)) in *.
  destruct Inv as (Nn & Hm1 & Q & [ [Hs _] | (p & Hs & Hp & Hf & Hgt & P1 & P2) ]);
    [lia | ].
  rewrite Hs in *. unfold y3_at, y1_at, y2_at. rewrite <- Hf.
  split; [lia | ]. split; [exact Hgt | ].
  destruct (ltb_not_nan _ _ Hgt) as [_ N2].
  (* the right neighbour *)
  assert (Prim2SF (or_else (get c (Z.of_nat p + 1)) (fst st)) <> S754_nan /\
          (fst st <? or_else (get c (Z.of_nat p + 1)) (fst st)) = false /\
          (p = n -> (or_else (get c (Z.of_nat p + 1)) (fst st) <? fst st)
                    = false)) as (N3 & H3 & H3').
  { replace (Z.of_nat p + 1)%Z with (Z.of_nat (S p)) by lia.
    unfold or_else. destruct (get c (Z.of_nat (S p))) as [ x | ] eqn:G;
      [destruct (truthy x) eqn:Tx | ];
      try (split; [exact N2 | split; [apply ltb_irrefl | ] ];
           intros _; apply ltb_irrefl).
    pose proof (get_some_lt _ _ _ G) as Hlt.
    split.
    - unfold truthy, falsy in Tx. apply negb_true_iff in Tx.
      apply orb_false_iff in Tx. now apply is_nan_false_spec.
    - split.
      + specialize (P2 (S p) ltac:(lia)). now rewrite G in P2.
      + intros ->. rewrite get_nat in G. rewrite Hf, get_nat.
        destruct (nth_error c n) as [ y | ] eqn:Gn.
        * cbn [num]. now apply (Hstop y x).
        * apply nth_error_None in Gn. lia. }
  split; [exact N3 | ]. split; [exact H3 | ].
  (* the left neighbour *)
  destruct (Nat.eq_dec p n) as [-> | NE].
  - right. split; [ | now apply H3'].
    assert (0 < n)%nat as Hn0 by lia.
    destruct (Hdown (n - 1)%nat ltac:(lia)) as (x & y & Gx & Gy & Hxy).
    replace (S (n - 1)) with n in Gy by lia.
    replace (Z.of_nat n - 1)%Z with (Z.of_nat (n - 1)) by lia.
    rewrite Hf, !get_nat, Gx, Gy. exact Hxy.
  - left. replace (Z.of_nat p - 1)%Z with (Z.of_nat (p - 1)) by lia.
    apply P1. lia.
Qed.

End SearchFacts.

(** * The refinement on numbers of any kind *)

Module RefinementFacts.

Import JSFloat Estimator RealValue RealValueFacts RoundingFacts DoubleFacts.
Import IntegerFacts MonotoneFacts OrderFacts SearchFacts Refinement.
Local Open Scope R_scope.

Local Abbreviation rounds64 := (rounds_to prec (SpecFloat.emin prec emax)).
Local Abbreviation representable64 :=
  (representable prec (SpecFloat.emin prec emax)).

Lemma finite_dec x : finite x = true \/ finite x = false.
Proof. destruct (finite x); auto. Qed.

Lemma sub_nonfinite_l a b :
  finite a = false -> finite (a - b) = false.
Proof.
  unfold finite. rewrite sub_spec.
  destruct (Prim2SF a) as [ sa | [ | ] | | sa ma ea ]; try discriminate;
    intros _; destruct (Prim2SF b) as [ sb | [ | ] | | sb mb eb ]; reflexivity.
Qed.

Lemma sub_nonfinite_r a b :
  finite b = false -> finite (a - b) = false.
Proof.
  unfold finite. rewrite sub_spec.
  destruct (Prim2SF b) as [ sb | [ | ] | | sb mb eb ]; try discriminate;
    intros _; destruct (Prim2SF a) as [ sa | [ | ] | | sa ma ea ]; reflexivity.
Qed.

Lemma add_nonfinite_r a b :
  finite b = false -> finite (a + b) = false.
Proof.
  unfold finite. rewrite add_spec.
  destruct (Prim2SF b) as [ sb | [ | ] | | sb mb eb ]; try discriminate;
    intros _; destruct (Prim2SF a) as [ sa | [ | ] | | sa ma ea ]; reflexivity.
Qed.

Lemma twice_nonfinite b : finite b = false -> finite (2 * b) = false.
Proof.
  unfold finite. rewrite mul_spec.
  change (Prim2SF 2) with (S754_finite false 4503599627370496 (-51)).
  destruct (Prim2SF b) as [ sb | [ | ] | | sb mb eb ]; try discriminate;
    reflexivity.
Qed.

Lemma div_of_nonfinite a b : finite a = false -> finite (a / b) = false.
Proof.
  unfold finite. rewrite div_spec.
  destruct (Prim2SF a) as [ sa | sa | | sa ma ea ]; try discriminate;
    intros _; destruct (Prim2SF b) as [ sb | sb | | sb mb eb ]; reflexivity.
Qed.

(** Dividing by [NaN] or an infinity gives [NaN] or a zero. *)
Lemma div_by_nonfinite a b :
  finite b = false -> finite (a / b) = false \/ value (a / b) = 0.
Proof.
  unfold finite, value. rewrite div_spec.
  destruct (Prim2SF b) as [ sb | sb | | sb mb eb ]; try discriminate;
    intros _; destruct (Prim2SF a) as [ sa | sa | | sa ma ea ]; auto.
Qed.

Lemma div_by_zero_value a b :
  finite b = true -> value b = 0 -> finite (a / b) = false.
Proof.
  unfold finite, value. rewrite div_spec.
  destruct (Prim2SF b) as [ sb | sb | | sb mb eb ]; try discriminate;
    intros _ V.
  - now destruct (Prim2SF a).
  - exfalso. cbn [SF2R] in V. pose proof (p2_pos eb).
    assert (0 < IZR (Z.pos mb)) by (apply IZR_lt; lia).
    destruct sb; cbn [cond_Zopp] in V; rewrite ?opp_IZR in V; nra.
Qed.

(** A finite result is the exact one, rounded. *)
Lemma sub_finite a b :
  finite (a - b) = true ->
  finite a = true /\ finite b = true /\
  rounds64 (value a - value b) (value (a - b)).
Proof.
  intros F.
  destruct (finite_dec a) as [Fa | Fa];
    [ | rewrite (sub_nonfinite_l a b Fa) in F; discriminate].
  destruct (finite_dec b) as [Fb | Fb];
    [ | rewrite (sub_nonfinite_r a b Fb) in F; discriminate].
  split; [exact Fa | split; [exact Fb | ] ].
  exact (rounded_value _ _ _ (sub_rounded a b Fa Fb) eq_refl F).
Qed.

Lemma value_2 : finite 2 = true /\ value 2 = 2.
Proof. change 2%float with (of_Z 2). apply of_Z_value. vm_compute. discriminate. Qed.

Lemma representable_twice X : representable64 X -> representable64 (2 * X).
Proof.
  intros (M & E & -> & HM & HE). exists M, (E + 1)%Z.
  split; [rewrite p2_add, p2_1; ring | ]. split; [exact HM | lia].
Qed.

Lemma twice_finite b :
  finite (2 * b) = true -> finite b = true /\ value (2 * b) = 2 * value b.
Proof.
  intros F. destruct value_2 as [F2 V2].
  destruct (finite_dec b) as [Fb | Fb];
    [ | rewrite (twice_nonfinite b Fb) in F; discriminate].
  split; [exact Fb | ].
  pose proof (rounded_value _ _ _ (mul_rounded 2 b F2 Fb) eq_refl F) as R.
  rewrite V2 in R.
  apply (rounds_to_exact prec _ prec_pos _ _
           (representable_twice _ (proj1 (value_representable b))) R).
Qed.

Lemma div_at_least a b lo :
  finite a = true -> finite b = true -> value b <> 0 ->
  representable64 lo -> lo <= value a / value b ->
  at_least lo (a / b).
Proof.
  intros Fa Fb NZ Rlo H. unfold at_least.
  destruct (finite_dec (a / b)) as [F | F]; [right | now left].
  pose proof (rounded_value _ _ _ (div_rounded a b Fa Fb NZ) eq_refl F) as R.
  exact (rounds_to_above prec _ prec_pos lo _ _ Rlo H R).
Qed.

Lemma representable_half : representable64 (- / 2).
Proof.
  exists (-1)%Z, (-1)%Z. split; [ | split; [reflexivity | discriminate] ].
  rewrite (p2_neg (-1) 2) by (lia || reflexivity). lra.
Qed.

Lemma ltb_false_value a b :
  (a <? b)%float = false -> finite a = true -> finite b = true ->
  value b <= value a.
Proof.
  intros H Fa Fb. destruct (Rle_lt_dec (value b) (value a)) as [ | Hlt];
    [assumption | ].
  apply (ltb_value a b Fa Fb) in Hlt. congruence.
Qed.

(** The shift is [NaN], infinite, or at least -1/2. *)
Theorem shift_at_least y1 y2 y3 :
  (y2 <? y3)%float = false ->
  ((Prim2SF y1 = S754_nan \/ (y1 <? y2)%float = true) \/
   ((y2 <? y1)%float = true /\ (y3 <? y2)%float = false)) ->
  at_least (- / 2) (shift_of y1 y2 y3).
Proof.
  intros H23 H12. unfold shift_of, denominator.
  set (P := (2 * y2)%float). set (A := (P - y1)%float).
  set (D := (A - y3)%float). set (Q := (2 * D)%float).
  set (num := (y3 - y1)%float).
  destruct (finite_dec Q) as [FQ | FQ].
  2:{ destruct (div_by_nonfinite num Q FQ) as [H | H]; [now left | right].
      rewrite H. lra. }
  destruct (finite_dec num) as [Fn | Fn];
    [ | left; now apply div_of_nonfinite].
  destruct (Req_dec (value Q) 0) as [Z0 | NZ];
    [left; now apply div_by_zero_value | ].
  destruct (twice_finite D FQ) as [FD VQ].
  destruct (sub_finite A y3 FD) as (FA & F3 & RD).
  destruct (sub_finite P y1 FA) as (FP & F1 & RA).
  destruct (twice_finite y2 FP) as [F2 VP].
  destruct (sub_finite y3 y1 Fn) as (_ & _ & Rn).
  fold D in RD. fold A in RA. fold num in Rn. fold Q in VQ. fold P in VP.
  rewrite VP in RA.
  pose proof (ltb_false_value _ _ H23 F2 F3) as H32.
  destruct (value_representable y2) as [R2 _].
  apply div_at_least; try assumption; [exact representable_half | ].
  destruct H12 as [ [N1 | H12] | [H21 H32'] ].
  - exfalso. clash.
  - apply (ltb_value y1 y2 F1 F2) in H12.
    assert (value y2 <= value A) as HA
      by (apply (rounds_to_above prec (SpecFloat.emin prec emax) prec_pos (value y2)
                   (2 * value y2 - value y1) _ R2); [lra | exact RA]).
    assert (0 <= value D) as HD
      by (apply (rounds_to_nonneg prec (SpecFloat.emin prec emax) (value A - value y3) _);
          [lra | exact RD]).
    assert (- value num <= value D) as HnD.
    { apply rounds_to_opp in Rn.
      replace (- (value y3 - value y1)) with (value y1 - value y3) in Rn by ring.
      apply (rounds_to_monotone prec (SpecFloat.emin prec emax) prec_pos (value y1 - value y3)
               (value A - value y3)); [lra | exact Rn | exact RD]. }
    assert (0 < value Q) as HQ by lra.
    apply Rmult_le_reg_r with (r := value Q); [exact HQ | ].
    replace (value num / value Q * value Q) with (value num) by (field; lra).
    lra.
  - apply (ltb_value y2 y1 F2 F1) in H21.
    pose proof (ltb_false_value _ _ H32' F3 F2) as H23'.
    assert (value A <= value y2) as HA
      by (apply (rounds_to_below prec (SpecFloat.emin prec emax) prec_pos (value y2)
                   (2 * value y2 - value y1) _ R2); [lra | exact RA]).
    assert (value D <= 0) as HD
      by (apply (rounds_to_nonpos prec (SpecFloat.emin prec emax) (value A - value y3) _);
          [lra | exact RD]).
    assert (value num <= 0) as Hn
      by (apply (rounds_to_nonpos prec (SpecFloat.emin prec emax) (value y3 - value y1) _);
          [lra | exact Rn]).
    assert (value Q < 0) as HQ by lra.
    apply Rle_trans with 0; [lra | ].
    replace (value num / value Q) with ((- value num) * / (- value Q))
      by (field; lra).
    apply Rmult_le_pos; [lra | ]. left. apply Rinv_0_lt_compat. lra.
Qed.

Lemma representable_1 : representable64 1.
Proof. apply (representable_int 1). vm_compute. discriminate. Qed.

Lemma representable_pos_half : representable64 (/ 2).
Proof.
  exists 1%Z, (-1)%Z. split; [ | split; [reflexivity | discriminate] ].
  rewrite (p2_neg (-1) 2) by (lia || reflexivity). lra.
Qed.

(** An index of a frame is a number from 1 on. *)
Lemma index_value z :
  (1 <= z < 2 ^ 63)%Z -> finite (of_Z z) = true /\ 1 <= value (of_Z z).
Proof.
  intros Hz. unfold of_Z. destruct (Z.ltb_spec z 0); [lia | ].
  unfold finite, value. rewrite of_uint63_spec, Uint63.of_Z_spec.
  rewrite Z.mod_small by (change Uint63.wB with (2 ^ 63)%Z; lia).
  pose proof (binary_normalize_correct prec emax DoubleFacts.prec_pos
                prec_lt_emax z 0 false) as R.
  rewrite p2_0, Rmult_1_r in R.
  assert (Rabs (IZR z) <= p2 63) as B.
  { rewrite p2_IZR by lia. rewrite Rabs_pos_eq by (apply IZR_le; lia).
    apply IZR_le. lia. }
  destruct (rounded_finite _ _ (p2 63) R (representable_p2 63 ltac:(lia))
              ltac:(apply p2_lt; reflexivity) B) as [F HR].
  split; [exact F | ].
  apply (rounds_to_above prec (SpecFloat.emin prec emax) DoubleFacts.prec_pos
           1 (IZR z) _ representable_1); [apply IZR_le; lia | exact HR].
Qed.

Lemma peak_at_least maxPos shift :
  (1 <= maxPos < 2 ^ 63)%Z -> at_least (- / 2) shift ->
  at_least (/ 2) (of_Z maxPos + shift).
Proof.
  intros Hm Hs. destruct (index_value maxPos Hm) as [Fm Vm].
  unfold at_least in *.
  destruct Hs as [Fs | Hs]; [left; now apply add_nonfinite_r | ].
  destruct (finite_dec shift) as [Fs | Fs];
    [ | left; now apply add_nonfinite_r].
  destruct (finite_dec (of_Z maxPos + shift)) as [F | F]; [right | now left].
  pose proof (rounded_value _ _ _ (add_rounded _ _ Fm Fs) eq_refl F) as R.
  apply (rounds_to_above prec (SpecFloat.emin prec emax) DoubleFacts.prec_pos
           (/ 2) (value (of_Z maxPos) + value shift) _ representable_pos_half);
    [lra | exact R].
Qed.

(** A rate that is not positive, over such a peak, is no frequency. *)
Lemma freq_not_positive rate peak :
  (0 <? rate)%float = false -> at_least (/ 2) peak ->
  PrimFloat.is_nan (rate / peak) = true \/ (rate / peak <=? 0)%float = true.
Proof.
  intros Hr Hp.
  destruct (finite_dec peak) as [Fp | Fp].
  - destruct Hp as [Hp | Hp]; [congruence | ].
    destruct (PrimFloat.is_nan rate) eqn:Nr.
    { left. apply is_nan_spec in Nr. apply is_nan_spec.
      rewrite div_spec, Nr. reflexivity. }
    apply is_nan_false_spec in Nr.
    destruct (not_nan_cases rate Nr) as [Fr | [Er | Er] ].
    + right.
      assert (value rate <= 0) as Vr.
      { pose proof (ltb_false_value 0 rate Hr eq_refl Fr) as H.
        exact H. }
      pose proof (FloatAxioms.leb_spec (rate / peak) 0) as E. rewrite E.
      apply (rounded_leb (value rate / value peak) 0);
        try apply Prim2SF_valid.
      * apply div_rounded; try assumption. lra.
      * apply rounded_zero.
      * apply Rmult_le_reg_r with (r := value peak); [lra | ].
        replace (value rate / value peak * value peak) with (value rate)
          by (field; lra). lra.
    + right. pose proof (FloatAxioms.leb_spec (rate / peak) 0) as E.
      rewrite E, div_spec, Er. unfold finite, value in Fp, Hp.
      destruct (Prim2SF peak) as [ sp | sp | | [ | ] mp ep ];
        try discriminate; cbn [SF2R cond_Zopp] in Hp; try lra.
      * exfalso. pose proof (p2_pos ep).
        assert (0 < IZR (Z.pos mp)) by (apply IZR_lt; lia).
        rewrite opp_IZR in Hp. nra.
      * reflexivity.
    + exfalso. rewrite ltb_spec, Er in Hr. discriminate.
  - unfold finite in Fp.
    pose proof (FloatAxioms.leb_spec (rate / peak) 0) as E. rewrite E.
    rewrite <- (Bool.not_false_iff_true (PrimFloat.is_nan _)).
    rewrite is_nan_false_spec. rewrite div_spec.
    destruct (Prim2SF peak) as [ sp | sp | | sp mp ep ]; try discriminate;
      destruct (Prim2SF rate) as [ sr | sr | | sr mr er ]; cbn;
      try (left; intros H; now apply H);
      try (right; destruct sr, sp; reflexivity).
Qed.

Lemma interpolate_shift c maxPos sampleRate :
  interpolate c maxPos sampleRate =
  range_test (sampleRate /
              (of_Z maxPos +
               shift_of (y1_at c maxPos) (y2_at c maxPos) (y3_at c maxPos))).
Proof. reflexivity. Qed.

Lemma range_test_not_positive freq :
  PrimFloat.is_nan freq = true \/ (freq <=? 0)%float = true ->
  range_test freq = None \/ range_test freq = Some nan.
Proof.
  intros [N | L].
  - right. apply is_nan_spec in N.
    assert (freq = nan) as -> by (apply Prim2SF_inj; rewrite N; reflexivity).
    vm_compute. reflexivity.
  - left. unfold range_test, MIN_FREQUENCY.
    rewrite (leb_ltb_trans freq 0 80 L) by (vm_compute; reflexivity).
    reflexivity.
Qed.

(** The peak the refinement leaves is [NaN], infinite, or at least 1/2. *)
Lemma selected_peak buf :
  (0 < selected buf)%Z -> (Z.of_nat (length buf) < 2 ^ 63)%Z ->
  at_least (/ 2)
    (of_Z (selected buf) +
     shift_of (y1_at (autocorr buf) (selected buf))
       (y2_at (autocorr buf) (selected buf))
       (y3_at (autocorr buf) (selected buf))).
Proof.
  intros Hpos Hlen.
  destruct (peak_neighbours (autocorr buf) Hpos)
    as (Hlt & _ & _ & H23 & H12).
  rewrite EstimatorEdgeFacts.autocorr_length in Hlt.
  apply peak_at_least; [unfold selected in *; lia | ].
  now apply shift_at_least.
Qed.

End RefinementFacts.

Module MalformedInputFacts.

Import JSFloat Estimator Refinement OrderFacts RefinementFacts.
Open Scope float_scope.

(** C2, as stated, fails: an empty frame gets [None], not an error. *)
Lemma empty_frame_counterexample : detectPitchAutoCorr [] 44100 = None.
Proof. vm_compute. reflexivity. Qed.

(** C2, amended. The estimator raises nothing. An empty frame yields
    [None] whatever the sample rate; and a sample rate that is not
    positive (zero, negative or [NaN]) never yields a frequency, whatever
    the frame, of a length below 2^63 as every array is: the answer is
    [None] or [NaN]. *)
Theorem malformed_input_yields_no_pitch
  (buf : list float) (sampleRate : float) :
  detectPitchAutoCorr [] sampleRate = None /\
  ((0 <? sampleRate) = false ->
   (Z.of_nat (length buf) < 2 ^ 63)%Z ->
   detectPitchAutoCorr buf sampleRate = None \/
   detectPitchAutoCorr buf sampleRate = Some nan).
Proof.
  split; [reflexivity | intros Hr Hlen].
  unfold detectPitchAutoCorr.
  destruct (rms buf <? MIN_RMS); [now left | ].
  cbv zeta. fold (selected buf).
  destruct (Z.leb_spec (selected buf) 0) as [ | Hpos]; [now left | ].
  rewrite interpolate_shift.
  apply range_test_not_positive, freq_not_positive; [exact Hr | ].
  now apply selected_peak.
Qed.

Lemma malformed_input_yields_no_pitch_witness :
  (0 <? -44100) = false /\
  (Z.of_nat (length square_frame) < 2 ^ 63)%Z /\
  detectPitchAutoCorr [] (-44100) = None /\
  (detectPitchAutoCorr square_frame (-44100) = None \/
   detectPitchAutoCorr square_frame (-44100) = Some nan).
Proof.
  assert ((0 <? -44100) = false) as Hr by (vm_compute; reflexivity).
  assert (Z.of_nat (length square_frame) < 2 ^ 63)%Z as Hlen
    by (vm_compute; reflexivity).
  destruct (malformed_input_yields_no_pitch square_frame (-44100))
    as [He Hn].
  split; [exact Hr | split; [exact Hlen | split; [exact He | ] ] ].
  exact (Hn Hr Hlen).
Defined.

End MalformedInputFacts.

(** * What a [Float32Array] holds *)

Module Float32Facts.

Import JSFloat RealValue RealValueFacts RoundingFacts DoubleFacts IntegerFacts.
Import NoteNameFacts.
Local Open Scope R_scope.

Local Abbreviation rounds64 := (rounds_to prec (SpecFloat.emin prec emax)).
Local Abbreviation representable64 :=
  (representable prec (SpecFloat.emin prec emax)).
Local Abbreviation representable32 := (representable 24 (-149)).

Lemma representable32_0 : representable32 0.
Proof. exists 0%Z, 0%Z. split; [ring | split; [reflexivity | lia] ]. Qed.

Lemma representable32_opp X : representable32 X -> representable32 (- X).
Proof.
  intros (M & E & -> & HM & HE). exists (- M)%Z, E.
  split; [rewrite opp_IZR; ring | split; [lia | exact HE] ].
Qed.

(** A finite number read from a [Float32Array] is a binary32 number. *)
Lemma fround_binary32 x :
  finite (fround x) = true -> representable32 (value (fround x)).
Proof.
  unfold fround. destruct (Prim2SF x) as [ s | s | | s m e ] eqn:E.
  - intros _. unfold value. rewrite E. apply representable32_0.
  - unfold finite. rewrite E. discriminate.
  - unfold finite. rewrite E. discriminate.
  - pose proof (binary_round_within 24 128 ltac:(lia) ltac:(lia) s m e) as W.
    destruct (binary_round 24 128 s m e) as [ s' | s' | | s' m' e' ].
    + intros _. replace (value (SF2Prim (S754_zero s'))) with 0
        by (destruct s'; reflexivity).
      apply representable32_0.
    + intros F. destruct s'; vm_compute in F; discriminate.
    + intros F. vm_compute in F. discriminate.
    + intros _. cbn [within] in W.
      change (SpecFloat.emin 24 128) with (-149)%Z in W.
      destruct W as [Wm We].
      destruct (SF2Prim_value s' m' e' ltac:(lia) ltac:(lia)) as [_ V].
      rewrite V. cbn [SF2R]. exists (cond_Zopp s' (Z.pos m')), e'.
      split; [reflexivity | split; [destruct s'; cbn; lia | lia] ].
Qed.

(** ** The spacing of binary32 numbers *)

Lemma on_grid M E g : (g <= E)%Z -> exists K, IZR M * p2 E = IZR K * p2 g.
Proof.
  intros H. exists (M * 2 ^ (E - g))%Z.
  rewrite mult_IZR, <- p2_IZR, Rmult_assoc, <- p2_add by lia.
  do 2 f_equal. lia.
Qed.

Lemma grid_gap a b g Ka Kb :
  a = IZR Ka * p2 g -> b = IZR Kb * p2 g -> a < b -> p2 g <= b - a.
Proof.
  intros -> -> H. pose proof (p2_pos g) as Hg.
  assert (Ka < Kb)%Z as HK
    by (apply lt_IZR; apply Rmult_lt_reg_r with (r := p2 g); assumption).
  assert (Ka + 1 <= Kb)%Z as HK' by lia.
  apply IZR_le in HK'. rewrite plus_IZR in HK'. nra.
Qed.

Lemma binary32_magnitude M E :
  (Z.abs M < 2 ^ 24)%Z -> Rabs (IZR M * p2 E) < 16777216 * p2 E.
Proof.
  intros H. pose proof (p2_pos E) as HE.
  rewrite Rabs_mult, (Rabs_pos_eq (p2 E)) by lra.
  rewrite <- abs_IZR. apply Rmult_lt_compat_r; [exact HE | ].
  apply IZR_lt. exact H.
Qed.

Lemma spacing32 a b :
  representable32 a -> representable32 b -> a < b ->
  p2 (-149) <= b - a /\ Rabs b <= 33554432 * (b - a).
Proof.
  intros (Ma & Ea & Ha & HMa & HEa) (Mb & Eb & Hb & HMb & HEb) Hlt.
  destruct (on_grid Ma Ea (Z.min Ea Eb) ltac:(lia)) as [Ka HKa].
  destruct (on_grid Mb Eb (Z.min Ea Eb) ltac:(lia)) as [Kb HKb].
  rewrite <- Ha in HKa. rewrite <- Hb in HKb.
  pose proof (grid_gap a b _ Ka Kb HKa HKb Hlt) as Hgap.
  pose proof (binary32_magnitude Ma Ea HMa) as Ba. rewrite <- Ha in Ba.
  pose proof (binary32_magnitude Mb Eb HMb) as Bb. rewrite <- Hb in Bb.
  pose proof (p2_pos Ea). pose proof (p2_pos Eb).
  split.
  - apply Rle_trans with (p2 (Z.min Ea Eb)); [apply p2_le; lia | exact Hgap].
  - destruct (Z_le_gt_dec Eb Ea) as [Hle | Hgt].
    + rewrite Z.min_r in Hgap by lia. lra.
    + rewrite Z.min_l in Hgap by lia.
      destruct (Rle_lt_dec (Rabs b) (33554432 * p2 Ea)) as [Hs | Hb']; [lra | ].
      revert Ba Hb'. unfold Rabs.
      destruct (Rcase_abs a), (Rcase_abs b); intros; lra.
Qed.

Lemma spacing32_abs a b :
  representable32 a -> representable32 b -> a <> b ->
  p2 (-149) <= Rabs (b - a) /\ Rabs b <= 33554432 * Rabs (b - a).
Proof.
  intros Ra Rb N. destruct (Rtotal_order a b) as [H | [H | H] ];
    [ | contradiction | ].
  - rewrite (Rabs_pos_eq (b - a)) by lra. now apply spacing32.
  - destruct (spacing32 (- a) (- b) (representable32_opp _ Ra)
                (representable32_opp _ Rb) ltac:(lra)) as [H1 H2].
    rewrite Rabs_Ropp in H2.
    rewrite (Rabs_left (b - a)) by lra.
    split; lra.
Qed.

(** [2 * b - a], rounded, stays on the far side of [b] from [a]. *)
Lemma reflect_strict a b Y :
  representable32 a -> representable32 b -> a <> b ->
  rounds64 (2 * b - a) Y ->
  Rabs (Y - (2 * b - a)) < Rabs (b - a).
Proof.
  intros Ra Rb N HY.
  destruct (spacing32_abs a b Ra Rb N) as [H1 H2].
  pose proof (rounds64_error _ _ HY) as HE.
  assert (Rabs (2 * b - a) <= Rabs b + Rabs (b - a)) as HT.
  { replace (2 * b - a) with (b + (b - a)) by ring. apply Rabs_triang. }
  assert (p2 (-1075) < p2 (-150)) as Hs by (apply p2_lt; lia).
  assert (p2 (-149) = 2 * p2 (-150)) as Hd
    by (change (-149)%Z with (-150 + 1)%Z; rewrite p2_add, p2_1; ring).
  rewrite (p2_neg (-53) 9007199254740992) in HE by (lia || reflexivity).
  pose proof (Rabs_pos (2 * b - a)). pose proof (Rabs_pos b).
  lra.
Qed.

Lemma double_gap P Q :
  representable64 P -> representable64 Q -> P <> Q ->
  p2 (-1074) <= Rabs (P - Q).
Proof.
  intros (Mp & Ep & Hp & _ & HEp) (Mq & Eq & Hq & _ & HEq) N.
  change (SpecFloat.emin prec emax) with (-1074)%Z in HEp, HEq.
  destruct (on_grid Mp Ep (-1074) HEp) as [Kp HKp].
  destruct (on_grid Mq Eq (-1074) HEq) as [Kq HKq].
  rewrite <- Hp in HKp. rewrite <- Hq in HKq.
  destruct (Rtotal_order P Q) as [H | [H | H] ]; [ | contradiction | ].
  - rewrite Rabs_left by lra.
    pose proof (grid_gap P Q _ Kp Kq HKp HKq H). lra.
  - rewrite Rabs_pos_eq by lra.
    pose proof (grid_gap Q P _ Kq Kp HKq HKp H). lra.
Qed.

Lemma representable64_opp X : representable64 X -> representable64 (- X).
Proof.
  intros (M & E & -> & HM & HE). exists (- M)%Z, E.
  split; [rewrite opp_IZR; ring | split; [lia | exact HE] ].
Qed.

Lemma rounds_nonzero X Y :
  p2 (-1074) <= Rabs X -> rounds64 X Y -> Y <> 0.
Proof.
  intros HX HY. pose proof (p2_pos (-1074)) as Hp.
  pose proof (representable_p2 (-1074) ltac:(lia)) as Rp.
  destruct (Rle_lt_dec 0 X) as [H | H].
  - rewrite Rabs_pos_eq in HX by lra.
    pose proof (rounds_to_above prec (SpecFloat.emin prec emax) prec_pos
                  _ X Y Rp HX HY). lra.
  - rewrite Rabs_left in HX by lra.
    pose proof (rounds_to_below prec (SpecFloat.emin prec emax) prec_pos
                  _ X Y (representable64_opp _ Rp) ltac:(lra) HY). lra.
Qed.

End Float32Facts.

(** * The flat peak *)

Module FlatPeakFacts.

Import JSFloat Estimator Refinement.
Import RealValue RealValueFacts RoundingFacts DoubleFacts IntegerFacts.
Import OrderFacts SearchFacts RefinementFacts Float32Facts.
Local Open Scope R_scope.

Local Abbreviation rounds64 := (rounds_to prec (SpecFloat.emin prec emax)).
Local Abbreviation representable32 := (representable 24 (-149)).

Lemma is_zero_false_of x :
  finite x = false \/ value x <> 0 -> PrimFloat.is_zero x = false.
Proof.
  intros H. destruct (PrimFloat.is_zero x) eqn:Z; [exfalso | reflexivity].
  apply EstimatorFacts.is_zero_sf in Z. unfold finite, value in H.
  destruct (Prim2SF x); try discriminate.
  destruct H as [H | H]; [discriminate | now apply H].
Qed.

(** Every entry of the lag curve went through the [Float32Array]. *)
Lemma autocorr_entry buf i :
  finite (num (get (autocorr buf) i)) = true ->
  representable32 (value (num (get (autocorr buf) i))).
Proof.
  unfold get. destruct (i <? 0)%Z; [intros F; vm_compute in F; discriminate | ].
  unfold autocorr. rewrite nth_error_map.
  destruct (nth_error (seq 0 (length buf)) (Z.to_nat i)) as [lag | ];
    cbn [option_map num]; [apply fround_binary32 | ].
  intros F. vm_compute in F. discriminate.
Qed.

(** With [y1] and [y2] binary32 numbers placed as the search leaves
    them, the denominator, when it is a number, is not zero. *)
Lemma denominator_value y1 y2 y3 :
  (finite y1 = true -> representable32 (value y1)) ->
  (finite y2 = true -> representable32 (value y2)) ->
  (y2 <? y3)%float = false ->
  ((Prim2SF y1 = S754_nan \/ (y1 <? y2)%float = true) \/
   ((y2 <? y1)%float = true /\ (y3 <? y2)%float = false)) ->
  finite (denominator y1 y2 y3) = true ->
  value (denominator y1 y2 y3) <> 0.
Proof.
  intros R1 R2 H23 H12. unfold denominator.
  set (P := (2 * y2)%float). set (A := (P - y1)%float).
  intros FD.
  destruct (sub_finite A y3 FD) as (FA & F3 & RD).
  destruct (sub_finite P y1 FA) as (FP & F1 & RA).
  destruct (twice_finite y2 FP) as [F2 VP]. fold P in VP. rewrite VP in RA.
  fold A in RA.
  specialize (R1 F1). specialize (R2 F2).
  pose proof (ltb_false_value _ _ H23 F2 F3) as H32.
  assert (value A <> value y3) as NE.
  { destruct H12 as [ [N1 | H12] | [H21 H32'] ].
    - exfalso. now apply (finite_not_nan y1 F1).
    - apply (ltb_value y1 y2 F1 F2) in H12.
      pose proof (reflect_strict _ _ _ R1 R2 ltac:(lra) RA) as HR.
      rewrite (Rabs_pos_eq (value y2 - value y1)) in HR by lra.
      apply Rabs_def2 in HR. destruct HR. lra.
    - apply (ltb_value y2 y1 F2 F1) in H21.
      pose proof (ltb_false_value _ _ H32' F3 F2) as H23'.
      pose proof (reflect_strict _ _ _ R1 R2 ltac:(lra) RA) as HR.
      rewrite (Rabs_left (value y2 - value y1)) in HR by lra.
      apply Rabs_def2 in HR. destruct HR. lra. }
  apply (rounds_nonzero (value A - value y3)); [ | exact RD].
  apply double_gap; [apply value_representable | apply value_representable | exact NE].
Qed.

Lemma denominator_not_zero y1 y2 y3 :
  (finite y1 = true -> representable32 (value y1)) ->
  (finite y2 = true -> representable32 (value y2)) ->
  (y2 <? y3)%float = false ->
  ((Prim2SF y1 = S754_nan \/ (y1 <? y2)%float = true) \/
   ((y2 <? y1)%float = true /\ (y3 <? y2)%float = false)) ->
  PrimFloat.is_zero (denominator y1 y2 y3) = false /\
  PrimFloat.is_zero (2 * denominator y1 y2 y3) = false.
Proof.
  intros R1 R2 H23 H12.
  pose proof (denominator_value y1 y2 y3 R1 R2 H23 H12) as HD.
  split; apply is_zero_false_of.
  - destruct (finite_dec (denominator y1 y2 y3)) as [F | F]; [right | now left].
    now apply HD.
  - destruct (finite_dec (2 * denominator y1 y2 y3)) as [F | F];
      [right | now left].
    destruct (twice_finite _ F) as [FD V]. rewrite V.
    specialize (HD FD). lra.
Qed.

Open Scope float_scope.

(** C1, as stated, fails: no guard exists, and the estimator returns
    [NaN] on a frame whose lag sums overflow the [Float32Array], the
    denominator being [Infinity - Infinity]. *)
Lemma flat_peak_guard_counterexample :
  exists f, detectPitchAutoCorr loud_frame 44100 = Some f /\
            PrimFloat.is_nan f = true.
Proof. exists nan. split; vm_compute; reflexivity. Qed.

(** C1, amended. The refinement has no flat-peak guard: past the silence
    gate and with a lag selected, the estimate is always the range test
    of [sampleRate / (maxPos + (y3 - y1) / (2 * (2 * y2 - y1 - y3)))].
    No guard is needed against a zero divisor: at the lag the search
    selects on the [Float32Array] lag curve, neither the denominator
    [2 * y2 - y1 - y3] nor its double is zero, so the computation never
    divides by zero. And no frame makes the estimator return an infinite
    frequency (it can return [NaN]). *)
Theorem flat_peak_never_divides_by_zero
  (buf : list float) (sampleRate : float) :
  let c := autocorr buf in
  let maxPos := selected buf in
  let y1 := y1_at c maxPos in
  let y2 := y2_at c maxPos in
  let y3 := y3_at c maxPos in
  detectPitchAutoCorr buf sampleRate =
    (if rms buf <? MIN_RMS then None
     else if (maxPos <=? 0)%Z then None
     else range_test
            (sampleRate /
             (of_Z maxPos + (y3 - y1) / (2 * denominator y1 y2 y3)))) /\
  ((0 < maxPos)%Z ->
   PrimFloat.is_zero (denominator y1 y2 y3) = false /\
   PrimFloat.is_zero (2 * denominator y1 y2 y3) = false) /\
  (forall f, detectPitchAutoCorr buf sampleRate = Some f ->
             PrimFloat.is_infinity f = false).
Proof.
  cbv zeta. split; [reflexivity | split].
  - intros Hpos.
    destruct (peak_neighbours (autocorr buf) Hpos)
      as (_ & _ & _ & H23 & H12).
    apply denominator_not_zero; try assumption; apply autocorr_entry.
  - intros f H.
    destruct (EstimatorFacts.detect_cases buf sampleRate) as [E | [p E] ];
      rewrite E in H; [discriminate | ].
    now apply EstimatorFacts.interpolate_finite in H.
Qed.

Lemma flat_peak_never_divides_by_zero_witness :
  (0 < selected square_frame)%Z /\
  PrimFloat.is_zero
    (denominator (y1_at (autocorr square_frame) (selected square_frame))
       (y2_at (autocorr square_frame) (selected square_frame))
       (y3_at (autocorr square_frame) (selected square_frame))) = false /\
  PrimFloat.is_zero
    (2 * denominator (y1_at (autocorr square_frame) (selected square_frame))
           (y2_at (autocorr square_frame) (selected square_frame))
           (y3_at (autocorr square_frame) (selected square_frame))) = false.
Proof.
  assert (0 < selected square_frame)%Z as Hpos by (vm_compute; reflexivity).
  split; [exact Hpos | ].
  exact (proj1 (proj2 (flat_peak_never_divides_by_zero square_frame 2000)) Hpos).
Defined.

(** On a frame whose lag curve stays finite the denominator is a number
    other than zero; on [loud_frame] it is [NaN]. *)
Example square_frame_denominator :
  denominator (y1_at (autocorr square_frame) (selected square_frame))
    (y2_at (autocorr square_frame) (selected square_frame))
    (y3_at (autocorr square_frame) (selected square_frame)) = 6.
Proof. vm_compute. reflexivity. Qed.

Example loud_frame_denominator :
  PrimFloat.is_nan
    (denominator (y1_at (autocorr loud_frame) (selected loud_frame))
       (y2_at (autocorr loud_frame) (selected loud_frame))
       (y3_at (autocorr loud_frame) (selected loud_frame))) = true.
Proof. vm_compute. reflexivity. Qed.

End FlatPeakFacts.

(** * The silence gate against the exact RMS *)

Module SilenceFacts.

Import JSFloat Estimator RealValue ExactRMS.
Import RealValueFacts RoundingFacts DoubleFacts IntegerFacts SqrtFacts.
Local Open Scope R_scope.

Local Abbreviation rounded64 := (rounded prec emax).
Local Abbreviation rounds64 := (rounds_to prec (SpecFloat.emin prec emax)).
Local Abbreviation representable64 :=
  (representable prec (SpecFloat.emin prec emax)).
Local Abbreviation Rsqrt := R_sqrt.sqrt.

(** The value of a literal, as a fraction. *)
Ltac literal x :=
  let v := eval vm_compute in (Prim2SF x) in
  change (value x) with (SF2R v); cbn [SF2R cond_Zopp]; rewrite ?opp_IZR.

Ltac power k :=
  let w := eval vm_compute in (2 ^ (- k))%Z in
  rewrite (p2_neg k w) by (lia || reflexivity).

(** ** The root *)

Theorem sqrt_rounded x :
  finite x = true -> 0 <= value x ->
  rounded64 (Rsqrt (value x)) (Prim2SF (PrimFloat.sqrt x)).
Proof.
  unfold finite, value. rewrite sqrt_spec.
  destruct (Prim2SF x) as [ s | s | | [ | ] m e ]; try discriminate;
    intros _ H.
  - cbn [SF2R SFsqrt]. rewrite sqrt_0. apply rounded_zero.
  - exfalso. cbn [SF2R cond_Zopp] in H. pose proof (p2_pos e).
    assert (0 < IZR (Z.pos m)) by (apply IZR_lt; lia).
    rewrite opp_IZR in H. nra.
  - apply (SFsqrt_finite prec emax prec_pos prec_lt_emax).
Qed.

Lemma rounded_nonneg X z :
  rounded64 X z -> 0 <= X -> 0 <= SF2R z.
Proof.
  intros (Y & HY & H) HX.
  pose proof (rounds_to_nonneg prec _ X Y HX HY) as HY0.
  destruct H as [ (_ & _ & ->) | [ [_ ->] | [_ ->] ] ];
    [exact HY0 | cbn; lra | cbn; lra].
Qed.

(** ** The sum of the squares *)

Lemma exact_sum_squares_nonneg buf : 0 <= exact_sum_squares buf.
Proof.
  induction buf as [ | x buf IH ]; cbn [exact_sum_squares fold_right]; [lra | ].
  fold (exact_sum_squares buf). nra.
Qed.

Lemma upper_of_error X Y :
  0 <= X -> Rabs (Y - X) <= p2 (-53) * Rabs X + p2 (-1075) ->
  Y <= X * (1 + / 9007199254740992) + p2 (-1075).
Proof.
  intros HX H. rewrite (Rabs_pos_eq X) in H by exact HX.
  rewrite (p2_neg (-53) 9007199254740992) in H by (lia || reflexivity).
  apply Rabs_le_both in H. lra.
Qed.

(** After [k] samples the sum carries at most [3 k] rounding errors. *)
Lemma fold_sum_bound buf : forall acc (k : nat) S0,
  Forall (fun x => finite x = true) buf ->
  (Z.of_nat (k + length buf) <= 16777216)%Z ->
  finite acc = true -> 0 <= S0 ->
  S0 + exact_sum_squares buf <= 2048 ->
  0 <= value acc
    <= S0 * (1 + 3 * INR k * / 9007199254740992) + 3 * INR k * p2 (-1075) ->
  finite (fold_left (fun acc x => acc + x * x)%float buf acc) = true /\
  0 <= value (fold_left (fun acc x => acc + x * x)%float buf acc)
    <= (S0 + exact_sum_squares buf)
       * (1 + 3 * INR (k + length buf) * / 9007199254740992)
       + 3 * INR (k + length buf) * p2 (-1075).
Proof.
  pose proof (p2_pos (-1075)) as Heta.
  assert (p2 (-1075) < p2 (-60)) as Heta' by (apply p2_lt; lia).
  rewrite (p2_neg (-60) 1152921504606846976) in Heta' by (lia || reflexivity).
  induction buf as [ | x buf IH ]; intros acc k S0 Hfin Hlen Facc HS0 HS Hacc.
  - cbn [fold_left exact_sum_squares fold_right length].
    rewrite Nat.add_0_r, Rplus_0_r. auto.
  - cbn [fold_left]. cbn [exact_sum_squares fold_right] in HS |- *.
    fold (exact_sum_squares buf) in HS |- *.
    pose proof (exact_sum_squares_nonneg buf) as Hnn.
    inversion Hfin as [ | ? ? Fx Hfin' ]; subst.
    cbn [length] in Hlen.
    assert (0 <= INR k <= 16777215) as HK.
    { split; [apply pos_INR | ].
      rewrite INR_IZR_INZ. apply IZR_le. lia. }
    set (X2 := value x * value x) in *.
    assert (0 <= X2) as HX2 by (unfold X2; nra).
    (* the square *)
    destruct (mul_step x x 11 Fx Fx ltac:(lia)) as (Fp & Bp & Ep).
    { fold X2. rewrite Rabs_pos_eq by exact HX2.
      rewrite (p2_nat 11 2048) by (lia || reflexivity). lra. }
    fold X2 in Ep.
    pose proof (rounded_nonneg _ _ (mul_rounded x x Fx Fx) HX2) as Hp0.
    fold (value (x * x)) in Hp0.
    pose proof (upper_of_error _ _ HX2 Ep) as Hp.
    (* the sum *)
    assert (value acc <= 2049) as Hacc'.
    { destruct Hacc as [_ Hacc]. nra. }
    assert (value (x * x) <= 2049) as Hp'.
    { nra. }
    destruct (add_step acc (x * x) 13 Facc Fp ltac:(lia)) as (Fa & Ba & Ea).
    { rewrite Rabs_pos_eq by lra.
      rewrite (p2_nat 13 8192) by (lia || reflexivity). lra. }
    pose proof (rounded_nonneg _ _ (add_rounded acc (x * x) Facc Fp)
                  ltac:(lra)) as Ha0.
    fold (value (acc + x * x)) in Ha0.
    assert (0 <= value acc + value (x * x)) as Hsum by lra.
    pose proof (upper_of_error _ _ Hsum Ea) as Ha.
    cbn [length].
    replace (k + S (length buf))%nat with (S k + length buf)%nat by lia.
    replace (S0 + (X2 + exact_sum_squares buf))
      with (S0 + X2 + exact_sum_squares buf) by ring.
    apply (IH (acc + x * x)%float (S k) (S0 + X2));
      try assumption; try lia; try lra.
    split; [exact Ha0 | ].
    rewrite S_INR.
    destruct Hacc as [_ Hacc].
    set (K := INR k) in *. set (eta := p2 (-1075)) in *.
    set (a := value acc) in *. set (p := value (x * x)) in *.
    set (a' := value (acc + x * x)) in *.
    assert (0 <= S0 * (2 - 3 * K * / 9007199254740992)) as H1
      by (apply Rmult_le_pos; lra).
    assert (0 <= X2 * (3 * K + 1 - / 9007199254740992)) as H2
      by (apply Rmult_le_pos; lra).
    assert (0 <= eta * (1 - 3 * K * / 9007199254740992 - / 9007199254740992))
      as H3 by (apply Rmult_le_pos; lra).
    clearbody K eta a p a' X2. clear -Hacc Hp Ha H1 H2 H3.
    nra.
Qed.

Theorem sum_squares_bound buf :
  Forall (fun x => finite x = true) buf ->
  (Z.of_nat (length buf) <= 16777216)%Z ->
  exact_sum_squares buf <= 2048 ->
  finite (sum_squares buf) = true /\
  0 <= value (sum_squares buf)
    <= exact_sum_squares buf
       * (1 + 3 * INR (length buf) * / 9007199254740992)
       + 3 * INR (length buf) * p2 (-1075).
Proof.
  intros Hfin Hlen HS.
  pose proof (fold_sum_bound buf 0%float 0%nat 0 Hfin Hlen eq_refl
                ltac:(lra) ltac:(lra)) as H.
  cbn [Nat.add INR] in H. rewrite !Rplus_0_l in H.
  apply H. change (value 0) with 0. lra.
Qed.

(** ** The gate *)

Lemma value_MIN_RMS :
  finite MIN_RMS = true /\
  value MIN_RMS = 5764607523034235 / 576460752303423488.
Proof.
  split; [reflexivity | ]. unfold MIN_RMS. literal 0.01%float.
  power (-59)%Z. lra.
Qed.

Lemma exact_rms_le buf t :
  0 <= t -> exact_sum_squares buf / INR (length buf) <= t * t ->
  exact_rms buf <= t.
Proof.
  intros Ht H. unfold exact_rms. rewrite <- (sqrt_square t Ht).
  now apply sqrt_le_1_alt.
Qed.

Lemma exact_rms_lt buf t :
  0 <= t -> 0 <= exact_sum_squares buf / INR (length buf) < t * t ->
  exact_rms buf < t.
Proof.
  intros Ht H. unfold exact_rms. rewrite <- (sqrt_square t Ht).
  now apply sqrt_lt_1_alt.
Qed.

Lemma mean_square_of_rms buf t :
  buf <> [] -> exact_rms buf <= t ->
  0 <= exact_sum_squares buf / INR (length buf) <= t * t.
Proof.
  intros Hne H. pose proof (exact_sum_squares_nonneg buf) as HS.
  assert (0 < INR (length buf)) as HN.
  { apply lt_0_INR. destruct buf; [contradiction | cbn; lia]. }
  assert (0 <= exact_sum_squares buf / INR (length buf)) as Hq.
  { apply Rmult_le_pos; [exact HS | left; now apply Rinv_0_lt_compat]. }
  split; [exact Hq | ].
  rewrite <- (sqrt_sqrt _ Hq). fold (exact_rms buf).
  pose proof (sqrt_pos (exact_sum_squares buf / INR (length buf))) as H0.
  fold (exact_rms buf) in H0. nra.
Qed.

(** The RMS the code computes stays below [MIN_RMS] when the exact one
    is at most 0.0099999. *)
Lemma rms_below buf :
  buf <> [] -> (Z.of_nat (length buf) <= 16777216)%Z ->
  Forall (fun x => finite x = true) buf ->
  exact_rms buf <= 99999 / 10000000 ->
  (rms buf <? MIN_RMS)%float = true.
Proof.
  intros Hne Hlen Hfin Hrms.
  pose proof (mean_square_of_rms buf _ Hne Hrms) as [Hq0 Hq].
  pose proof (exact_sum_squares_nonneg buf) as HS0.
  assert (1 <= INR (length buf) <= 16777216) as HN.
  { rewrite INR_IZR_INZ. split; apply IZR_le; [ | exact Hlen].
    destruct buf; [contradiction | cbn [length]; lia]. }
  set (S := exact_sum_squares buf) in *. set (N := INR (length buf)) in *.
  set (q := S / N) in *.
  assert (S = q * N) as ES by (unfold q; field; lra).
  assert (S <= 2048) as HS by nra.
  destruct (sum_squares_bound buf Hfin Hlen HS) as (FS & HS1 & HS2).
  fold S N in HS2.
  destruct (of_Z_value (Z.of_nat (length buf))) as [FN VN];
    [rewrite Z.abs_eq by lia; lia | ].
  rewrite <- INR_IZR_INZ in VN. fold N in VN.
  pose proof (p2_pos (-1075)) as Heta.
  assert (p2 (-1075) < p2 (-60)) as Heta' by (apply p2_lt; lia).
  rewrite (p2_neg (-60) 1152921504606846976) in Heta' by (lia || reflexivity).
  set (eta := p2 (-1075)) in *.
  set (vS := value (sum_squares buf)) in *.
  (* the mean *)
  assert (0 <= vS / N <= q * (1 + 3 * N * / 9007199254740992) + 3 * eta) as HV.
  { split; [apply Rmult_le_pos; [lra | left; apply Rinv_0_lt_compat; lra] | ].
    apply Rmult_le_reg_r with (r := N); [lra | ].
    replace (vS / N * N) with vS by (field; lra).
    rewrite ES in HS2. lra. }
  assert (vS / N <= 9999800001 / 100000000000000 * (1 + / 100000000) + 3 * eta)
    as HV'.
  { destruct HV as [_ HV].
    assert (q * (1 + 3 * N * / 9007199254740992)
            <= q * (1 + / 100000000)) as H1
      by (apply Rmult_le_compat_l; lra).
    assert (q * (1 + / 100000000)
            <= 9999800001 / 100000000000000 * (1 + / 100000000)) as H2
      by (apply Rmult_le_compat_r; lra).
    lra. }
  unfold rms.
  set (Q := (sum_squares buf / of_Z (Z.of_nat (length buf)))%float).
  destruct (div_step (sum_squares buf) (of_Z (Z.of_nat (length buf))) 0
              FS FN ltac:(rewrite VN; lra) ltac:(lia)) as (FQ & _ & EQ).
  { rewrite VN. fold vS. rewrite Rabs_pos_eq by lra. rewrite p2_0. lra. }
  fold Q in FQ, EQ. rewrite VN in EQ. fold vS in EQ.
  assert (0 <= value Q) as HQ0.
  { pose proof (rounded_nonneg _ _
                  (div_rounded (sum_squares buf) (of_Z (Z.of_nat (length buf)))
                     FS FN ltac:(rewrite VN; lra))) as H.
    rewrite VN in H. apply H. fold vS. lra. }
  pose proof (upper_of_error _ _ (proj1 HV) EQ) as HQ. fold eta in HQ.
  (* the root *)
  set (G := IZR 10737365 * p2 (-30)).
  assert (G = 10737365 / 1073741824) as EG
    by (unfold G; power (-30)%Z; lra).
  assert (representable64 G) as RG.
  { exists 10737365%Z, (-30)%Z. split; [reflexivity | ].
    split; [reflexivity | discriminate]. }
  assert (Rsqrt (value Q) <= G) as Hroot.
  { rewrite <- (sqrt_square G) by lra. apply sqrt_le_1_alt. rewrite EG. lra. }
  pose proof (sqrt_pos (value Q)) as Hroot0.
  destruct (rounded_finite _ _ G (sqrt_rounded Q FQ HQ0) RG) as [Fr Rr].
  { rewrite EG. apply Rlt_trans with 1; [lra | ].
    rewrite <- p2_0. apply p2_lt. reflexivity. }
  { rewrite Rabs_pos_eq by exact Hroot0. exact Hroot. }
  fold (finite (PrimFloat.sqrt Q)) in Fr. fold (value (PrimFloat.sqrt Q)) in Rr.
  pose proof (rounds_to_below prec (SpecFloat.emin prec emax) prec_pos
                G _ _ RG Hroot Rr) as Hr.
  destruct value_MIN_RMS as [FM VM].
  apply (ltb_value _ _ Fr FM). rewrite VM. lra.
Qed.

Open Scope float_scope.

(** C4, as stated, fails: the frame has an RMS amplitude below 0.01
    (below the [MIN_RMS] the code holds, too), yet the RMS the code
    computes is the double 0.01, the gate stays open and a pitch is
    returned. *)
Lemma silence_gate_counterexample :
  boundary_frame <> [] /\
  (exact_rms boundary_frame < 1 / 100)%R /\
  (1 / 100 < value MIN_RMS)%R /\
  rms boundary_frame = MIN_RMS /\
  detectPitchAutoCorr boundary_frame 2000 = Some 500.00000653674067.
Proof.
  split; [discriminate | ]. split; [ | split; [ | split] ].
  - apply exact_rms_lt; [lra | ].
    change (INR (length boundary_frame)) with (INR 16).
    rewrite (INR_IZR_INZ 16). change (IZR (Z.of_nat 16)) with 16%R.
    split.
    + apply Rmult_le_pos; [apply exact_sum_squares_nonneg | lra].
    + unfold exact_sum_squares, boundary_frame. cbn [fold_right].
      rewrite !value_opp.
      literal 0x1.cf68b6p-7. literal 0x1.df6d08p-16. literal 0x1.30eda8p-27.
      power (-59)%Z. power (-68)%Z. power (-79)%Z. lra.
  - destruct value_MIN_RMS as [_ ->]. lra.
  - vm_compute. reflexivity.
  - vm_compute. reflexivity.
Qed.

(** C4, amended. For every non-empty frame of numbers, of at most 2^24
    samples, whose RMS amplitude is at most 0.0099999 (in particular
    every all-zero frame), the estimator returns [None] at the gate,
    whatever periodic content the frame holds. Between 0.0099999 and the
    threshold the rounding of the sum, the mean and the root decides. *)
Theorem silence_gate (buf : list float) (sampleRate : float) :
  buf <> [] ->
  (Z.of_nat (length buf) <= 16777216)%Z ->
  Forall (fun x => finite x = true) buf ->
  (exact_rms buf <= 99999 / 10000000)%R ->
  (rms buf <? MIN_RMS) = true /\
  detectPitchAutoCorr buf sampleRate = None.
Proof.
  intros Hne Hlen Hfin Hrms.
  pose proof (rms_below buf Hne Hlen Hfin Hrms) as H.
  split; [exact H | ]. unfold detectPitchAutoCorr. now rewrite H.
Qed.

Lemma faint_frame_rms : (exact_rms faint_frame <= 99999 / 10000000)%R.
Proof.
  apply exact_rms_le; [lra | ].
  change (INR (length faint_frame)) with (INR 16).
  rewrite (INR_IZR_INZ 16). change (IZR (Z.of_nat 16)) with 16%R.
  unfold exact_sum_squares, faint_frame, square_frame. cbn [map fold_right].
  literal (0.005 * 1). literal (0.005 * 0). literal (0.005 * -1).
  power (-60)%Z. lra.
Qed.

Lemma silence_gate_witness :
  faint_frame <> [] /\
  (Z.of_nat (length faint_frame) <= 16777216)%Z /\
  Forall (fun x => finite x = true) faint_frame /\
  (exact_rms faint_frame <= 99999 / 10000000)%R /\
  (rms faint_frame <? MIN_RMS) = true /\
  detectPitchAutoCorr faint_frame 2000 = None.
Proof.
  assert (faint_frame <> []) as H1 by discriminate.
  assert (Z.of_nat (length faint_frame) <= 16777216)%Z as H2
    by (vm_compute; discriminate).
  assert (Forall (fun x => finite x = true) faint_frame) as H3
    by (repeat constructor).
  pose proof faint_frame_rms as H4.
  split; [exact H1 | split; [exact H2 | split; [exact H3 | split; [exact H4 | ] ] ] ].
  exact (silence_gate faint_frame 2000 H1 H2 H3 H4).
Defined.

(** An all-zero frame has the RMS 0. *)
Example zero_frame_rms n : exact_rms (repeat 0 n) = 0%R.
Proof.
  unfold exact_rms.
  assert (exact_sum_squares (repeat 0 n) = 0%R) as ->.
  { induction n as [ | n IH ]; [reflexivity | ].
    cbn [repeat exact_sum_squares fold_right].
    fold (exact_sum_squares (repeat 0 n)). rewrite IH.
    change (value 0) with 0%R. ring. }
  unfold Rdiv. rewrite Rmult_0_l. apply sqrt_0.
Qed.

End SilenceFacts.

(** * The loop and its history *)

Module TickFacts.

Import JSFloat Estimator Smoother Presentation Tick.
Import FloatFacts SmootherFacts EstimatorFacts.
Open Scope float_scope.

Lemma pos_above_zero x : sf_pos (Prim2SF x) = true -> (0 <? x) = true.
Proof.
  rewrite ltb_spec. change (Prim2SF 0) with (S754_zero false).
  now destruct (Prim2SF x) as [ [ | ] | [ | ] | | [ | ] m e ].
Qed.

(** An estimate that [loop] takes up is a frequency of the range. *)
Lemma taken_estimate_in_range buf sampleRate f :
  detectPitchAutoCorr buf sampleRate = Some f -> falsy f = false ->
  in_range (Some f) = true.
Proof.
  intros E Hf. apply detect_passed_range_test in E. destruct E as [Hlo Hhi].
  destruct (not_outside f Hlo Hhi) as [H | H]; [exact H | ].
  unfold falsy in Hf. rewrite H, orb_true_r in Hf. discriminate.
Qed.

Lemma smooth_settled s buf sampleRate :
  settled s ->
  settled (smooth s (detectPitchAutoCorr buf sampleRate)) /\
  drawable (sample s (detectPitchAutoCorr buf sampleRate)).
Proof.
  intros Hs. destruct (detectPitchAutoCorr buf sampleRate) as [ f | ] eqn:E;
    [ | now split].
  unfold sample. destruct (falsy f) eqn:Hf.
  - split; [ | exact I]. unfold smooth. now rewrite Hf.
  - pose proof (taken_estimate_in_range _ _ _ E Hf) as Hr.
    assert (sf_pos (Prim2SF (smooth s (Some f))) = true) as Hp.
    { destruct Hs as [-> | Hs].
      - rewrite smooth_first by exact Hr. now apply in_range_pos.
      - rewrite smooth_later by assumption. now apply blend_pos. }
    split; [now right | now apply pos_above_zero].
Qed.

Lemma pushHistory_length {A : Type} (history : list A) (x : A) :
  (length history <= HISTORY_MAX)%nat ->
  length (pushHistory history x) = Nat.min (S (length history)) HISTORY_MAX.
Proof.
  intros H. unfold pushHistory. rewrite length_app. cbn [length].
  destruct (Nat.ltb_spec HISTORY_MAX (length history + 1)).
  - destruct history as [ | y history ]; cbn [app tl length] in *;
      [unfold HISTORY_MAX in *; lia | rewrite length_app; cbn [length]; lia].
  - rewrite length_app. cbn [length]. lia.
Qed.

Lemma pushHistory_Forall {A : Type} (P : A -> Prop) (history : list A) (x : A) :
  Forall P history -> P x -> Forall P (pushHistory history x).
Proof.
  intros Hh Hx. unfold pushHistory.
  assert (Forall P (history ++ [x])) as H
    by (apply Forall_app; split; [exact Hh | now constructor]).
  destruct (HISTORY_MAX <? length (history ++ [x]))%nat; [ | exact H].
  destruct (history ++ [x]); [exact H | now inversion H].
Qed.

Lemma fold_tick frames sampleRate : forall s h,
  settled s -> Forall drawable h -> (length h <= HISTORY_MAX)%nat ->
  fst (fold_left (tick sampleRate) frames (s, h))
  = fold_left (fun s buf => loop s buf sampleRate) frames s /\
  Forall drawable (snd (fold_left (tick sampleRate) frames (s, h))) /\
  length (snd (fold_left (tick sampleRate) frames (s, h)))
  = Nat.min (length h + length frames) HISTORY_MAX.
Proof.
  induction frames as [ | buf frames IH ]; intros s h Hs Hh Hl.
  - cbn. repeat split; [exact Hh | lia].
  - cbn [fold_left length].
    change (tick sampleRate (s, h) buf)
      with (smooth s (detectPitchAutoCorr buf sampleRate),
            pushHistory h (sample s (detectPitchAutoCorr buf sampleRate))).
    change (loop s buf sampleRate)
      with (smooth s (detectPitchAutoCorr buf sampleRate)).
    destruct (smooth_settled s buf sampleRate Hs) as [Hs' Hd].
    pose proof (pushHistory_length h
                  (sample s (detectPitchAutoCorr buf sampleRate)) Hl) as Hlen.
    destruct (IH (smooth s (detectPitchAutoCorr buf sampleRate))
                 (pushHistory h
                    (sample s (detectPitchAutoCorr buf sampleRate)))
                 Hs' (pushHistory_Forall _ _ _ Hh Hd) ltac:(lia))
      as (H1 & H2 & H3).
    split; [exact H1 | split; [exact H2 | ] ].
    rewrite H3, Hlen. lia.
Qed.

(** X10. After [loop] ran on any frames, [smoothedFreq] is what the
    smoothing alone gives, and the history holds one sample per tick up
    to [HISTORY_MAX], each [null] or a number above 0: never 0, a
    negative, or [NaN]. *)
Theorem session_history (frames : list (list float)) (sampleRate : float) :
  fst (session frames sampleRate) = ticks frames sampleRate /\
  Forall drawable (snd (session frames sampleRate)) /\
  length (snd (session frames sampleRate))
  = Nat.min (length frames) HISTORY_MAX.
Proof.
  unfold session, ticks.
  apply (fold_tick frames sampleRate initial []);
    [now left | constructor | cbn; lia].
Qed.

End TickFacts.

(** * The history graph and the needle *)

Module CanvasFacts.

Import JSFloat Estimator Presentation Canvas FloatFacts PresentationFacts.
Open Scope float_scope.

Lemma curve_from_later i history width height :
  forallb is_line (curve_from i false history width height) = true /\
  length (curve_from i false history width height)
  = length (filter is_sample history).
Proof.
  revert i. induction history as [ | f history IH ]; intros i; [now split | ].
  destruct (IH (i + 1)%Z) as [H1 H2].
  destruct f as [ x | ]; cbn [curve_from filter is_sample]; [ | now split].
  cbn [forallb is_line length]. split; [exact H1 | now rewrite H2].
Qed.

(** X11. The curve [drawHistory] traces is one connected line: it has
    a point for every sample that is not [null], it starts with the one
    [moveTo], and every other step is a [lineTo]; a [null] between two
    samples leaves no gap. *)
Theorem curve_is_connected (history : list (option float))
  (width height : float) :
  length (curve history width height) = length (filter is_sample history) /\
  match curve history width height with
  | [] => True
  | c :: rest => is_move c = true /\ forallb is_line rest = true
  end.
Proof.
  unfold curve. generalize 0%Z.
  induction history as [ | f history IH ]; intros i; [now split | ].
  destruct f as [ x | ]; cbn [curve_from filter is_sample].
  - destruct (curve_from_later (i + 1) history width height) as [H1 H2].
    cbn [length]. split; [now rewrite H2 | now split].
  - apply IH.
Qed.

Lemma SFcompare_eq_finite x s m e :
  SFcompare x (S754_finite s m e) = Some Eq -> x = S754_finite s m e.
Proof.
  destruct x as [ | [ | ] | | sx mx ex ]; try (destruct s; discriminate).
  unfold SFcompare.
  destruct sx, s; try discriminate;
    destruct (Z.compare_spec ex e) as [-> | | ]; try discriminate;
    intros H; injection H as H;
    [apply (f_equal CompOpp) in H; rewrite CompOpp_involutive in H | ];
    apply (Pos.compare_eq mx m) in H; now subst.
Qed.

(** A number that a finite one is at most, without being below it, is
    that number. *)
Lemma leb_not_ltb_eq a b s m e :
  Prim2SF a = S754_finite s m e ->
  (a <=? b) = true -> (a <? b) = false -> b = a.
Proof.
  rewrite leb_spec, ltb_spec. intros Ha. rewrite Ha.
  unfold SFleb, SFltb. intros Hle Hlt.
  apply Prim2SF_inj. rewrite Ha.
  apply SFcompare_eq_finite.
  rewrite (SFcompare_antisym (S754_finite s m e) (Prim2SF b)).
  now destruct (SFcompare (S754_finite s m e) (Prim2SF b)) as [ [ | | ] | ].
Qed.

Lemma leb_numbers a b :
  (a <=? b) = true ->
  PrimFloat.is_nan a = false /\ PrimFloat.is_nan b = false.
Proof.
  unfold PrimFloat.is_nan. rewrite leb_spec, !eqb_spec. unfold SFleb, SFeqb.
  destruct (Prim2SF a) as [ | [ | ] | | [ | ] ma ea ];
    destruct (Prim2SF b) as [ | [ | ] | | [ | ] mb eb ];
    cbn -[Z.compare Pos.compare_cont]; try discriminate; intros _;
    rewrite ?Z.compare_refl, ?Pos.compare_cont_refl; now split.
Qed.

Lemma ltb_antisym a b : (a <? b) = true -> (b <? a) = false.
Proof.
  rewrite !ltb_spec. unfold SFltb.
  rewrite (SFcompare_antisym (Prim2SF a) (Prim2SF b)).
  now destruct (SFcompare (Prim2SF a) (Prim2SF b)) as [ [ | | ] | ].
Qed.

(** [Math.min] and [Math.max] of a finite number and one it compares
    with. *)
Lemma min_of_leb_l a b s m e :
  Prim2SF a = S754_finite s m e -> (a <=? b) = true -> Math_min a b = a.
Proof.
  intros Ha H. destruct (leb_numbers _ _ H) as [Na Nb].
  unfold Math_min. rewrite Na, Nb. cbn [orb].
  destruct (a <? b) eqn:E; [reflexivity | ].
  rewrite (leb_not_ltb_eq a b s m e Ha H E).
  destruct (a <? a); [reflexivity | now destruct (get_sign a)].
Qed.

Lemma leb_not_ltb_eq_r a b s m e :
  Prim2SF a = S754_finite s m e ->
  (b <=? a) = true -> (b <? a) = false -> b = a.
Proof.
  rewrite leb_spec, ltb_spec. intros Ha. rewrite Ha.
  unfold SFleb, SFltb. intros Hle Hlt.
  apply Prim2SF_inj. rewrite Ha. apply SFcompare_eq_finite.
  now destruct (SFcompare (Prim2SF b) (S754_finite s m e)) as [ [ | | ] | ].
Qed.

Lemma leb_not_gt a b : (b <=? a) = true -> (a <? b) = false.
Proof.
  rewrite leb_spec, ltb_spec. unfold SFleb, SFltb.
  rewrite (SFcompare_antisym (Prim2SF b) (Prim2SF a)).
  now destruct (SFcompare (Prim2SF b) (Prim2SF a)) as [ [ | | ] | ].
Qed.

Lemma min_of_leb_r a b s m e :
  Prim2SF a = S754_finite s m e -> (b <=? a) = true -> Math_min a b = b.
Proof.
  intros Ha H. destruct (leb_numbers _ _ H) as [Nb Na].
  unfold Math_min. rewrite Na, Nb, (leb_not_gt _ _ H). cbn [orb].
  destruct (b <? a) eqn:E; [reflexivity | ].
  rewrite (leb_not_ltb_eq_r a b s m e Ha H E).
  now destruct (get_sign a).
Qed.

Lemma max_of_leb_l a b s m e :
  Prim2SF a = S754_finite s m e -> (a <=? b) = true -> Math_max a b = b.
Proof.
  intros Ha H. destruct (leb_numbers _ _ H) as [Na Nb].
  unfold Math_max. rewrite Na, Nb. cbn [orb].
  destruct (a <? b) eqn:E; [reflexivity | ].
  rewrite (leb_not_ltb_eq a b s m e Ha H E).
  destruct (a <? a); [reflexivity | now destruct (get_sign a)].
Qed.

Lemma max_of_leb_r a b s m e :
  Prim2SF a = S754_finite s m e -> (b <=? a) = true -> Math_max a b = a.
Proof.
  intros Ha H. destruct (leb_numbers _ _ H) as [Nb Na].
  unfold Math_max. rewrite Na, Nb, (leb_not_gt _ _ H). cbn [orb].
  destruct (b <? a) eqn:E; [reflexivity | ].
  rewrite (leb_not_ltb_eq_r a b s m e Ha H E).
  now destruct (get_sign a).
Qed.

(** A number at least 50 is above -50, one at most -50 below 50, and
    one at least 1500 above 80. *)
Lemma leb_across_zero lo hi x mlo elo mhi ehi :
  Prim2SF lo = S754_finite true mlo elo ->
  Prim2SF hi = S754_finite false mhi ehi ->
  ((hi <=? x) = true -> (lo <=? x) = true) /\
  ((x <=? lo) = true -> (x <=? hi) = true).
Proof.
  intros Hlo Hhi. rewrite !leb_spec, Hlo, Hhi. unfold SFleb.
  split; destruct (Prim2SF x) as [ | [ | ] | | [ | ] m e ]; cbn;
    try discriminate; try reflexivity.
Qed.

Lemma leb_above lo hi x mlo elo mhi ehi :
  Prim2SF lo = S754_finite false mlo elo ->
  Prim2SF hi = S754_finite false mhi ehi ->
  (elo < ehi)%Z ->
  (hi <=? x) = true -> (lo <=? x) = true.
Proof.
  intros Hlo Hhi He. rewrite !leb_spec, Hlo, Hhi. unfold SFleb, SFcompare.
  destruct (Prim2SF x) as [ | [ | ] | | [ | ] m e ]; try discriminate;
    try reflexivity.
  destruct (Z.compare_spec ehi e); try discriminate; intros _;
    (destruct (Z.compare_spec elo e); [lia | reflexivity | lia]).
Qed.

Lemma leb_truthy lo x m e :
  Prim2SF lo = S754_finite false m e -> (lo <=? x) = true -> falsy x = false.
Proof.
  intros Hlo H. destruct (leb_numbers _ _ H) as [_ Nx].
  unfold falsy, PrimFloat.is_zero. rewrite Nx, orb_false_r.
  revert H. rewrite leb_spec, eqb_spec, Hlo.
  change (Prim2SF 0) with (S754_zero false). unfold SFleb, SFeqb.
  now destruct (Prim2SF x) as [ | [ | ] | | [ | ] mx ex ].
Qed.

(** X12. [mapFreq] saturates: a sample that is [null], [NaN] or below
    [MIN_FREQUENCY] goes to 0, the bottom of the graph, and one at or
    above [MAX_FREQUENCY], the infinity included, goes to 1. *)
Theorem mapFreq_saturates (x : float) :
  mapFreq None = 0 /\
  (PrimFloat.is_nan x = true -> mapFreq (Some x) = 0) /\
  ((x <? MIN_FREQUENCY) = true -> mapFreq (Some x) = 0) /\
  ((MAX_FREQUENCY <=? x) = true -> mapFreq (Some x) = 1).
Proof.
  split; [reflexivity | ]. unfold mapFreq, falsy.
  split; [now intros ->; rewrite orb_true_r | ].
  split; [now intros ->; rewrite orb_true_r | ].
  intros H.
  assert ((MIN_FREQUENCY <=? x) = true) as Hmin
    by (apply (leb_above MIN_FREQUENCY MAX_FREQUENCY x
                 5629499534213120 (-46) 6597069766656000 (-42));
        [reflexivity | reflexivity | lia | exact H]).
  pose proof (leb_truthy _ _ _ _ (eq_refl : Prim2SF MAX_FREQUENCY = _) H) as Ht.
  unfold falsy in Ht. rewrite Ht, (leb_not_gt _ _ Hmin). cbn [orb].
  rewrite (max_of_leb_l MIN_FREQUENCY x _ _ _ eq_refl Hmin).
  rewrite (min_of_leb_l MAX_FREQUENCY x _ _ _ eq_refl H).
  reflexivity.
Qed.

(** X13. The needle saturates: [cents] of 50 or more turn it 25
    degrees, [cents] of -50 or less turn it -25 degrees, and 0 or [NaN]
    leave it upright. *)
Theorem needle_saturates (cents : float) :
  ((50 <=? cents) = true -> needle_degrees cents = 25) /\
  ((cents <=? -50) = true -> needle_degrees cents = -25) /\
  (falsy cents = true -> needle_degrees cents = 0).
Proof.
  unfold needle_degrees, clamped, or_else, truthy.
  destruct (leb_across_zero (-50) 50 cents _ _ _ _ eq_refl eq_refl)
    as [Hup Hdown].
  split; [ | split].
  - intros H. rewrite (leb_truthy _ _ _ _ (eq_refl : Prim2SF 50 = _) H).
    cbn [negb]. rewrite (min_of_leb_l 50 cents _ _ _ eq_refl H).
    reflexivity.
  - intros H.
    assert (falsy cents = false) as Ht.
    { destruct (leb_numbers _ _ H) as [Nc _].
      unfold falsy, PrimFloat.is_zero. rewrite Nc, orb_false_r.
      revert H. rewrite leb_spec, eqb_spec.
      change (Prim2SF (-50)) with (S754_finite true 7036874417766400 (-47)).
      change (Prim2SF 0) with (S754_zero false). unfold SFleb, SFeqb.
      now destruct (Prim2SF cents) as [ | [ | ] | | [ | ] mx ex ]. }
    rewrite Ht. cbn [negb].
    rewrite (min_of_leb_r 50 cents _ _ _ eq_refl (Hdown H)).
    rewrite (max_of_leb_r (-50) cents _ _ _ eq_refl H).
    reflexivity.
  - intros ->. reflexivity.
Qed.

End CanvasFacts.

(** * A pitch right on its target, on doubles *)

Module UnisonFacts.

Import JSFloat NoteMathDouble FloatFacts.
Open Scope float_scope.

Lemma div_eucl_shift (m : positive) :
  Z.div_eucl (Z.shiftl (Z.pos m) 53) (Z.pos m) = (2 ^ 53, 0)%Z.
Proof.
  rewrite Z.shiftl_mul_pow2 by lia.
  destruct (Z.div_eucl (Z.pos m * 2 ^ 53) (Z.pos m)) as [q r] eqn:E.
  assert (q = (Z.pos m * 2 ^ 53) / Z.pos m)%Z as ->
    by (unfold Z.div; now rewrite E).
  assert (r = (Z.pos m * 2 ^ 53) mod Z.pos m)%Z as ->
    by (unfold Z.modulo; now rewrite E).
  rewrite Z.mul_comm, Z.div_mul, Z.mod_mul by lia. reflexivity.
Qed.

(** The quotient of a finite number that is not zero by itself is 1. *)
Lemma div_self x s m e : Prim2SF x = S754_finite s m e -> x / x = 1.
Proof.
  intros Hx. apply Prim2SF_inj. rewrite div_spec, Hx.
  unfold SF64div, SFdiv, SFdiv_core_binary.
  rewrite !Z.sub_diag.
  change (IntDef.Z.min (fexp prec emax 0) 0) with (-53)%Z.
  change (0 - -53)%Z with 53%Z. cbv iota.
  change (IntDef.Z.div_eucl (IntDef.Z.shiftl (Z.pos m) 53) (Z.pos m))
    with (Z.div_eucl (Z.shiftl (Z.pos m) 53) (Z.pos m)).
  rewrite div_eucl_shift.
  replace (new_location (Z.pos m) 0) with loc_Exact
    by (unfold new_location, new_location_even, new_location_odd;
        now destruct (IntDef.Z.even (Z.pos m))).
  rewrite xorb_nilpotent. vm_compute. reflexivity.
Qed.

Lemma finite_nonzero x :
  PrimFloat.is_finite x = true -> PrimFloat.is_zero x = false ->
  exists s m e, Prim2SF x = S754_finite s m e.
Proof.
  unfold PrimFloat.is_finite, PrimFloat.is_infinity, PrimFloat.is_nan,
    PrimFloat.is_zero.
  rewrite !eqb_spec, abs_spec.
  change (Prim2SF infinity) with (S754_infinity false).
  change (Prim2SF 0) with (S754_zero false).
  destruct (Prim2SF x) as [ [ | ] | [ | ] | | s m e ]; try discriminate.
  intros _ _. now exists s, m, e.
Qed.

Lemma not_finite_nonzero x :
  PrimFloat.is_finite x = false \/ PrimFloat.is_zero x = true ->
  x / x = nan.
Proof.
  unfold PrimFloat.is_finite, PrimFloat.is_infinity, PrimFloat.is_nan,
    PrimFloat.is_zero.
  rewrite !eqb_spec, abs_spec.
  change (Prim2SF infinity) with (S754_infinity false).
  change (Prim2SF 0) with (S754_zero false).
  intros H. apply Prim2SF_inj. rewrite div_spec.
  destruct (Prim2SF x) as [ [ | ] | [ | ] | | s m e ]; try reflexivity.
  exfalso. cbn in H.
  rewrite Pos.compare_cont_refl, Z.compare_refl in H.
  destruct s; cbn in H; destruct H; discriminate.
Qed.

(** X17. In every engine, a frequency right on its target is 0 cents
    off: [centsOff(f, f)] is 0 for every finite [f] other than zero,
    and [NaN] for the zeros, the infinities and [NaN]. *)
Theorem unison_is_zero_cents (f : float) :
  centsOff f f
  = if PrimFloat.is_finite f && negb (PrimFloat.is_zero f)
    then Some 0 else Some nan.
Proof.
  unfold centsOff.
  destruct (PrimFloat.is_finite f) eqn:F;
    [destruct (PrimFloat.is_zero f) eqn:Z | ]; cbn [andb negb].
  - now rewrite not_finite_nonzero by now right.
  - destruct (finite_nonzero f F Z) as (s & m & e & H).
    now rewrite (div_self f s m e H).
  - now rewrite not_finite_nonzero by now left.
Qed.

End UnisonFacts.

(** * The piano *)

Module PianoFacts.

Import NoteMath Piano.
Open Scope string_scope.

Lemma string_of_Z_inj a b : string_of_Z a = string_of_Z b -> a = b.
Proof.
  unfold string_of_Z. intros H. apply DecimalZ.to_int_inj.
  assert (forall z, NilZero.int_of_string (NilZero.string_of_int (Z.to_int z))
                    = Some (Z.to_int z)) as I.
  { intros z. apply NilZero.isi; destruct z as [ | p | p ]; try discriminate;
      cbn; intros [= E]; now apply DecimalPos.Unsigned.to_uint_nonnil in E. }
  pose proof (I a) as Ia. rewrite H, I in Ia. now injection Ia.
Qed.

Lemma range_In z a n : In z (range a n) <-> (a <= z < a + Z.of_nat n)%Z.
Proof.
  revert a. induction n as [ | n IH ]; intros a; cbn [range In].
  - lia.
  - rewrite IH. lia.
Qed.

Lemma has_class_remove c d k :
  has_class c (remove_class d k)
  = has_class c k && negb (String.eqb d c).
Proof.
  unfold has_class, remove_class. cbn [classList].
  induction (classList k) as [ | x l IH ]; [reflexivity | ].
  cbn [filter existsb].
  destruct (String.eqb_spec d x) as [-> | Hd]; cbn [negb existsb];
    rewrite IH; clear IH.
  - destruct (String.eqb_spec c x) as [-> | Hc]; [ | reflexivity].
    rewrite String.eqb_refl. cbn [negb orb andb].
    now rewrite andb_false_r.
  - destruct (String.eqb_spec c x) as [-> | Hc]; [ | reflexivity].
    destruct (String.eqb_spec d x) as [-> | _]; [contradiction | ].
    reflexivity.
Qed.

Lemma has_class_add c d k :
  has_class c (add_class d k) = has_class c k || String.eqb c d.
Proof.
  unfold add_class. destruct (has_class d k) eqn:E.
  - destruct (String.eqb_spec c d) as [-> | _];
      [now rewrite E | now rewrite orb_false_r].
  - unfold has_class. cbn [classList]. rewrite existsb_app. cbn [existsb].
    now rewrite orb_false_r.
Qed.

(** The first half of [highlightPiano] puts every key out. *)
Lemma cleared_plain (pianoEl : list dom_element) :
  Forall (fun k => has_class "key" k = true) pianoEl ->
  Forall (fun k => plain k = true)
    (map (fun k => if has_class "key" k then remove_class "active" k else k)
       pianoEl).
Proof.
  intros H. apply Forall_map. eapply Forall_impl; [ | exact H].
  intros k Hk. cbn beta. rewrite Hk. unfold plain.
  rewrite !has_class_remove, Hk, String.eqb_refl.
  change ("active" =? "key") with false. cbn [negb andb].
  now rewrite andb_false_r.
Qed.

Lemma cleared_midi (pianoEl : list dom_element) :
  map data_midi
    (map (fun k => if has_class "key" k then remove_class "active" k else k)
       pianoEl)
  = map data_midi pianoEl.
Proof.
  rewrite map_map. apply map_ext. intros k. now destruct (has_class "key" k).
Qed.

Lemma plain_unlit els :
  Forall (fun k => plain k = true) els -> filter (has_class "active") els = [].
Proof.
  induction 1 as [ | k els Hk _ IH ]; [reflexivity | ].
  cbn [filter]. unfold plain in Hk. apply andb_prop in Hk as [_ Hk].
  apply negb_true_iff in Hk. now rewrite Hk.
Qed.

(** The second half lights the first key of the note, if there is one. *)
Lemma add_to_first_lit midi els :
  Forall (fun k => plain k = true) els ->
  lit (add_to_first (matches_midi midi) "active" els)
  = (if existsb (fun v => match v with
                          | Some v => String.eqb v midi
                          | None => false
                          end) (map data_midi els)
     then [Some midi] else []) /\
  Forall (fun k => has_class "key" k = true)
    (add_to_first (matches_midi midi) "active" els) /\
  map data_midi (add_to_first (matches_midi midi) "active" els)
  = map data_midi els.
Proof.
  unfold lit. induction 1 as [ | k els Hk Hels IH ];
    [now repeat split | ].
  destruct IH as (IH1 & IH2 & IH3).
  pose proof Hk as Hk'. unfold plain in Hk'.
  apply andb_prop in Hk' as [Hkey Hact]. apply negb_true_iff in Hact.
  cbn [add_to_first map existsb]. unfold matches_midi at 1 3 5.
  rewrite Hkey. cbn [andb].
  destruct (data_midi k) as [ v | ] eqn:Ev;
    [destruct (String.eqb_spec v midi) as [-> | Hv] | ]; cbn [orb].
  - cbn [filter map]. rewrite has_class_add, String.eqb_refl, orb_true_r.
    rewrite (plain_unlit els Hels). cbn [map].
    assert (data_midi (add_class "active" k) = data_midi k) as E
      by (unfold add_class; now destruct (has_class "active" k)).
    rewrite E, Ev. repeat split.
    constructor.
    + now rewrite has_class_add, Hkey.
    + eapply Forall_impl; [ | exact Hels].
      intros x Hx. unfold plain in Hx. now apply andb_prop in Hx as [-> _].
  - cbn [filter map]. rewrite Hact, Ev. repeat split; auto. now f_equal.
  - cbn [filter map]. rewrite Hact, Ev. repeat split; auto. now f_equal.
Qed.

Lemma highlightPiano_lit midi pianoEl :
  Forall (fun k => has_class "key" k = true) pianoEl ->
  lit (highlightPiano midi pianoEl)
  = match midi with
    | None => []
    | Some m =>
        if existsb (fun v => match v with
                             | Some v => String.eqb v (string_of_Z m)
                             | None => false
                             end) (map data_midi pianoEl)
        then [Some (string_of_Z m)] else []
    end /\
  Forall (fun k => has_class "key" k = true) (highlightPiano midi pianoEl) /\
  map data_midi (highlightPiano midi pianoEl) = map data_midi pianoEl.
Proof.
  intros H. pose proof (cleared_plain pianoEl H) as Hc.
  unfold highlightPiano. destruct midi as [ m | ].
  - destruct (add_to_first_lit (string_of_Z m) _ Hc) as (H1 & H2 & H3).
    rewrite cleared_midi in H1, H3. now repeat split.
  - unfold lit. rewrite (plain_unlit _ Hc), cleared_midi. repeat split.
    eapply Forall_impl; [ | exact Hc].
    intros x Hx. unfold plain in Hx. now apply andb_prop in Hx as [-> _].
Qed.

Lemma highlights_keep calls keys :
  Forall (fun k => has_class "key" k = true) keys ->
  Forall (fun k => has_class "key" k = true)
    (fold_left (fun p c => highlightPiano c p) calls keys) /\
  map data_midi (fold_left (fun p c => highlightPiano c p) calls keys)
  = map data_midi keys.
Proof.
  revert keys. induction calls as [ | c calls IH ]; intros keys H;
    [now split | ].
  cbn [fold_left].
  destruct (highlightPiano_lit c keys H) as (_ & H2 & H3).
  destruct (IH _ H2) as [I1 I2]. split; [exact I1 | now rewrite I2].
Qed.

Lemma on_keyboard m zs :
  existsb (fun v => match v with
                    | Some v => String.eqb v (string_of_Z m)
                    | None => false
                    end) (map (fun z => Some (string_of_Z z)) zs)
  = existsb (Z.eqb m) zs.
Proof.
  induction zs as [ | z zs IH ]; [reflexivity | ].
  cbn [map existsb]. rewrite IH. f_equal.
  destruct (Z.eqb_spec m z) as [-> | Hz]; [apply String.eqb_refl | ].
  apply String.eqb_neq. intros E. apply string_of_Z_inj in E. congruence.
Qed.

Lemma existsb_range m a n :
  existsb (Z.eqb m) (range a n)
  = ((a <=? m) && (m <? a + Z.of_nat n))%Z.
Proof.
  destruct (existsb (Z.eqb m) (range a n)) eqn:E.
  - apply existsb_exists in E as (z & Hz & Hm). apply Z.eqb_eq in Hm as <-.
    apply range_In in Hz. symmetry. apply andb_true_iff.
    split; [apply Z.leb_le | apply Z.ltb_lt]; lia.
  - symmetry. apply andb_false_iff.
    destruct (Z.leb_spec a m) as [H1 | ]; [ | now left ].
    destruct (Z.ltb_spec m (a + Z.of_nat n)) as [H2 | ]; [ | now right ].
    exfalso. apply not_true_iff_false in E. apply E, existsb_exists.
    exists m. split; [apply range_In; lia | apply Z.eqb_refl].
Qed.

(** X18. The piano [buildPiano] makes has the keys of the notes 48 to
    84, and whatever [highlightPiano] was called with before, a call
    with a note lights the key of that note and no other, and none at
    all when the note is off the keyboard or [null]. *)
Theorem one_key_lit (calls : list (option Z)) (midi : option Z) :
  exists keys,
    buildPiano [] = Some keys /\
    map data_midi keys = map (fun z => Some (string_of_Z z)) (range 48 37) /\
    lit (highlightPiano midi
           (fold_left (fun p c => highlightPiano c p) calls keys))
    = match midi with
      | Some m =>
          if ((48 <=? m) && (m <=? 84))%Z then [Some (string_of_Z m)] else []
      | None => []
      end.
Proof.
  destruct (buildPiano []) as [ keys | ] eqn:E; [ | discriminate E].
  exists keys. split; [reflexivity | ].
  assert (Forall (fun k => has_class "key" k = true) keys /\
          map data_midi keys
          = map (fun z => Some (string_of_Z z)) (range 48 37)) as [Hk Hm].
  { injection E as <-. split; [ | reflexivity].
    repeat constructor. }
  split; [exact Hm | ].
  destruct (highlights_keep calls keys Hk) as [H1 H2].
  destruct (highlightPiano_lit midi _ H1) as (-> & _ & _).
  destruct midi as [ m | ]; [ | reflexivity].
  rewrite H2, Hm, on_keyboard, existsb_range.
  replace (m <? 48 + Z.of_nat 37)%Z with (m <=? 84)%Z; [reflexivity | ].
  destruct (Z.leb_spec m 84), (Z.ltb_spec m (48 + Z.of_nat 37)); lia.
Qed.

End PianoFacts.

(** * The controls *)

Module ControlsFacts.

Import JSFloat NoteMath Piano Controls PianoFacts.
Open Scope string_scope.

(** ** The list of microphones *)

Lemma options_value i ds : map value (options_from i ds) = map deviceId ds.
Proof.
  revert i. induction ds as [ | d ds IH ]; intros i; [reflexivity | ].
  cbn [options_from map value]. now rewrite IH.
Qed.

Lemma option_text_nonempty d i : option_text d i <> "".
Proof.
  unfold option_text. destruct (String.eqb_spec (label d) "") as [ | H];
    [discriminate | exact H].
Qed.

Lemma options_text_nonempty i ds :
  Forall (fun o => textContent o <> "") (options_from i ds).
Proof.
  revert i. induction ds as [ | d ds IH ]; intros i; constructor;
    [apply option_text_nonempty | apply IH].
Qed.

Lemma options_unlabelled i ds :
  Forall (fun d => label d = "") ds ->
  map textContent (options_from i ds)
  = map (fun j => "Microphone " ++ string_of_Z (j + 1))
      (range i (length ds)).
Proof.
  intros H. revert i. induction H as [ | d ds Hd _ IH ]; intros i;
    [reflexivity | ].
  cbn [options_from map textContent length range]. rewrite IH.
  unfold option_text. now rewrite Hd.
Qed.

Lemma range_NoDup a n : NoDup (range a n).
Proof.
  revert a. induction n as [ | n IH ]; intros a; constructor; [ | apply IH].
  rewrite range_In. lia.
Qed.

Lemma NoDup_map_injective {A B : Type} (f : A -> B) (l : list A) :
  (forall a b, f a = f b -> a = b) -> NoDup l -> NoDup (map f l).
Proof.
  intros Hf. induction 1 as [ | x l Hx _ IH ]; cbn [map]; constructor;
    [ | exact IH].
  intros H. apply in_map_iff in H as (y & E & Hy).
  apply Hf in E. now subst.
Qed.

Lemma getDevices_micSelect list p :
  micSelect (getDevices list p) = options_from 0 (filter is_audioinput list).
Proof.
  unfold getDevices. cbn.
  now destruct (length (filter is_audioinput list) =? 0)%nat.
Qed.

(** X19. [getDevices] lists the audio inputs and nothing else: the
    options are the audio input devices, in their order; no option has
    an empty text; when no device has a label, as before permission is
    given, the texts are all different; and the error box is written
    only when there is no audio input, and left as it is otherwise. *)
Theorem device_options (list : list device) (p : page) :
  map value (micSelect (getDevices list p))
  = map deviceId (filter is_audioinput list) /\
  Forall (fun o => textContent o <> "") (micSelect (getDevices list p)) /\
  (Forall (fun d => label d = "") (filter is_audioinput list) ->
   NoDup (map textContent (micSelect (getDevices list p)))) /\
  errorBox (getDevices list p)
  = if existsb is_audioinput list then errorBox p
    else {| error_text := "No audio input devices found.";
            error_hidden := false |}.
Proof.
  rewrite getDevices_micSelect.
  split; [apply options_value | ].
  split; [apply options_text_nonempty | ].
  split.
  - intros H. rewrite (options_unlabelled _ _ H).
    apply NoDup_map_injective; [ | apply range_NoDup].
    intros a b E. cbn in E. injection E as E.
    apply string_of_Z_inj in E. lia.
  - unfold getDevices. cbn.
    induction list as [ | d list IH ]; [reflexivity | ].
    cbn [filter existsb]. destruct (is_audioinput d); [reflexivity | ].
    exact IH.
Qed.

(** ** The reference tone *)

Lemma sounding_after_app on cs cs' :
  sounding_after on (cs ++ cs') = sounding_after (sounding_after on cs) cs'.
Proof.
  revert on. induction cs as [ | c cs IH ]; intros on; [reflexivity | ].
  destruct c; cbn [app sounding_after]; apply IH.
Qed.

Lemma sounding_snoc cs c :
  sounding (cs ++ [c]) = sounding_after (sounding cs) [c].
Proof. apply sounding_after_app. Qed.

Ltac fields p :=
  destruct p as [ctx an sn hp lp co osc ms dv rn aid sf hi sel eb act cr cs].

(** Runs a handler on a page whose variables are told apart. *)
Ltac crunch :=
  lazy [calls refOsc audioContext analyser sourceNode hpFilter lpFilter
       compressor mediaStream devices running animationId smoothedFreq
       history micSelect errorBox audioActive created
       set_audioContext set_analyser set_sourceNode set_hpFilter
       set_lpFilter set_compressor set_refOsc set_mediaStream set_devices
       set_running set_animationId set_pitch set_micSelect set_errorBox
       set_created set_calls ask make when pending setError setAudioActive
       page_of held fst snd Nat.eqb
       start_asks start_refused start_granted destroyStream stop buildGraph
       loop setRefTone];
  repeat (rewrite sounding_snoc; cbn [sounding_after]).

Ltac graph_cases p :=
  destruct p as [ctx an [sn | ] [hp | ] [lp | ] [co | ] osc [ms | ] dv rn
                 [ [ | aid ] | ] sf hi sel eb act cr cs].

Lemma start_asks_in_tune deviceId p :
  in_tune p -> in_tune (start_asks deviceId p).
Proof.
  unfold in_tune. fields p. destruct ctx; crunch; intros H; exact H.
Qed.

Lemma start_refused_in_tune name p :
  in_tune p -> in_tune (start_refused name p).
Proof. unfold in_tune. fields p. crunch. intros H. exact H. Qed.

Lemma destroyStream_in_tune p : in_tune p -> in_tune (destroyStream p).
Proof.
  unfold in_tune. graph_cases p; crunch; intros H; exact H.
Qed.

Lemma stop_in_tune p : in_tune p -> in_tune (stop p).
Proof.
  unfold in_tune. graph_cases p; crunch; intros H; exact H.
Qed.

Lemma loop_in_tune sampleRate sampleBuffer p :
  in_tune p -> in_tune (page_of (loop sampleRate sampleBuffer p)).
Proof.
  unfold in_tune. fields p. destruct an; crunch; intros H; exact H.
Qed.

Lemma start_granted_in_tune sampleRate stream sampleBuffer p :
  in_tune p -> in_tune (start_granted sampleRate stream sampleBuffer p).
Proof.
  unfold in_tune. fields p. crunch. intros H. exact H.
Qed.

(** [getDevices] writes [devices], [micSelect] and [errorBox] only. *)
Lemma getDevices_writes list p :
  exists dv sel eb,
    getDevices list p = set_errorBox eb (set_micSelect sel (set_devices dv p)).
Proof.
  exists (filter is_audioinput list),
    (options_from 0 (filter is_audioinput list)),
    (if (length (filter is_audioinput list) =? 0)%nat
     then {| error_text := "No audio input devices found.";
             error_hidden := false |}
     else errorBox p).
  unfold getDevices. fields p.
  cbn [devices micSelect errorBox set_devices set_micSelect set_errorBox
       setError app].
  now destruct (length (filter is_audioinput list) =? 0)%nat.
Qed.

Lemma getDevices_in_tune list p : in_tune p -> in_tune (getDevices list p).
Proof.
  destruct (getDevices_writes list p) as (dv' & sel' & eb' & ->).
  unfold in_tune. fields p. crunch. intros H. exact H.
Qed.

Lemma setRefTone_in_tune on p : in_tune p -> in_tune (setRefTone on p).
Proof.
  unfold in_tune. fields p.
  destruct ctx, on, osc as [ o | ]; crunch; intros H;
    rewrite H; try reflexivity;
    cbn [app filter]; now rewrite Nat.eqb_refl.
Qed.

Lemma handle_in_tune sampleRate p a :
  in_tune p -> in_tune (handle sampleRate p a).
Proof.
  intros H. destruct a; cbn [handle].
  - now apply start_asks_in_tune.
  - now apply stop_in_tune.
  - now apply setRefTone_in_tune.
  - destruct (running p); [ | exact H].
    now apply start_asks_in_tune, destroyStream_in_tune.
  - now apply start_granted_in_tune.
  - now apply start_refused_in_tune.
  - now apply loop_in_tune.
  - now apply getDevices_in_tune.
Qed.

Lemma play_in_tune sampleRate actions p :
  in_tune p -> in_tune (play sampleRate actions p).
Proof.
  unfold play. revert p. induction actions as [ | a actions IH ]; intros p H;
    [exact H | ].
  cbn [fold_left]. now apply IH, handle_in_tune.
Qed.

Lemma setRefTone_refOsc on p :
  match refOsc (setRefTone on p) with
  | Some _ => on = true
  | None => on = false
  end.
Proof.
  fields p. destruct ctx, on, osc; crunch; reflexivity.
Qed.

Lemma stop_refOsc p : refOsc (stop p) = refOsc p.
Proof. graph_cases p; crunch; reflexivity. Qed.

(** X20. The reference tone, whatever happens to the page and in
    whatever order: the oscillators that sound are the one [refOsc]
    holds, so there is never more than one; after the box is toggled,
    a tone sounds exactly when it is checked; and Stop does not silence
    it. *)
Theorem reference_tone (sampleRate : float) (actions : list action)
  (micSelect : list option_element) (errorBox : error_box)
  (audioActive checked : bool) :
  let p := play sampleRate actions (loaded micSelect errorBox audioActive) in
  sounding (calls p) = held (refOsc p) /\
  (length (sounding (calls p)) <= 1)%nat /\
  (sounding (calls (setRefTone checked p)) <> [] <-> checked = true) /\
  sounding (calls (stop p)) = sounding (calls p).
Proof.
  intros p.
  assert (in_tune p) as H by (apply play_in_tune; reflexivity).
  split; [exact H | ]. split; [ | split].
  - rewrite H. destruct (refOsc p); cbn; lia.
  - rewrite (setRefTone_in_tune checked p H).
    pose proof (setRefTone_refOsc checked p) as R.
    destruct (refOsc (setRefTone checked p)); subst checked; cbn [held];
      split; congruence.
  - rewrite (stop_in_tune p H), stop_refOsc. now symmetry.
Qed.

(** ** The light *)

Lemma start_asks_honest deviceId p :
  honest p -> honest (start_asks deviceId p).
Proof.
  unfold honest. fields p. destruct ctx; crunch; intros H; exact H.
Qed.

Lemma destroyStream_honest p : honest (destroyStream p).
Proof.
  unfold honest. graph_cases p; crunch; discriminate.
Qed.

Lemma handle_honest sampleRate p a :
  honest p -> honest (handle sampleRate p a).
Proof.
  destruct a; cbn [handle].
  - apply start_asks_honest.
  - intros _. unfold honest. graph_cases p; crunch; discriminate.
  - unfold honest. fields p.
    destruct ctx, checked, osc; crunch; intros H; exact H.
  - intros H. destruct (running p); [ | exact H].
    apply start_asks_honest, destroyStream_honest.
  - intros _. unfold honest. fields p. crunch.
    intros _. repeat split; discriminate.
  - intros _. unfold honest. fields p. crunch. discriminate.
  - unfold honest. fields p. destruct an; crunch; intros H Ha;
      destruct (H Ha) as (H1 & H2 & H3 & _); [ | contradiction].
    repeat split; (assumption || discriminate).
  - destruct (getDevices_writes list p) as (dv' & sel' & eb' & ->).
    unfold honest. fields p. crunch. intros H. exact H.
Qed.

(** X21. The light is honest: on a page that loads with the light
    off, whatever happens and in whatever order, the light
    [audioActive] is on only while the session runs, with its stream
    held, its analyser in place and a frame pending. *)
Theorem light_is_honest (sampleRate : float) (actions : list action)
  (micSelect : list option_element) (errorBox : error_box) :
  honest (play sampleRate actions (loaded micSelect errorBox false)).
Proof.
  unfold play.
  assert (honest (loaded micSelect errorBox false)) as H by discriminate.
  revert H. generalize (loaded micSelect errorBox false).
  induction actions as [ | a actions IH ]; intros p H; [exact H | ].
  cbn [fold_left]. now apply IH, handle_honest.
Qed.

(** ** The microphone and the speakers *)

Lemma wired_audible cr cs n :
  wired cr cs -> audible cs n ->
  exists w, In (Create w n) cs /\ tone w = true.
Proof.
  intros (_ & Huniq & Hedge & Hout). induction 1 as [ n H | a b H _ IH ].
  - exists "Gain". split; [now apply Hout | reflexivity].
  - destruct IH as (w & Hw & Ht).
    destruct (Hedge a b H) as (wb & Hb & Ha).
    rewrite (Huniq _ _ _ Hw Hb) in Ht. exact (Ha Ht).
Qed.

Lemma wired_more cr cr' cs : wired cr cs -> (cr <= cr')%nat -> wired cr' cs.
Proof.
  intros (Hfresh & H) Hle. split; [ | exact H].
  intros w n Hn. apply Hfresh in Hn. lia.
Qed.

Lemma in_snoc {A : Type} (x y : A) (l : list A) :
  In x (l ++ [y]) -> In x l \/ y = x.
Proof.
  intros H. apply in_app_or in H as [H | [H | [ ] ] ]; [now left | now right].
Qed.

(** What held of the calls so far holds with one more. *)
Lemma wired_edges_kept cs c :
  (forall a b, In (Connect a b) cs ->
     exists wb, In (Create wb b) cs /\
       (tone wb = true -> exists wa, In (Create wa a) cs /\ tone wa = true)) ->
  forall a b, In (Connect a b) cs ->
    exists wb, In (Create wb b) (cs ++ [c]) /\
      (tone wb = true ->
       exists wa, In (Create wa a) (cs ++ [c]) /\ tone wa = true).
Proof.
  intros Hedge a b H. destruct (Hedge a b H) as (wb & Hb & Ha).
  exists wb. split; [apply in_or_app; now left | ].
  intros Ht. destruct (Ha Ht) as (wa & Hwa & Hta).
  exists wa. split; [apply in_or_app; now left | exact Hta].
Qed.

Lemma wired_create cr cr' cs w :
  wired cr cs -> (cr < cr')%nat -> wired cr' (cs ++ [Create w cr]).
Proof.
  intros (Hfresh & Huniq & Hedge & Hout) Hlt. repeat split.
  - intros w' n Hn. apply in_snoc in Hn as [Hn | E].
    + apply Hfresh in Hn. lia.
    + injection E as _ <-. exact Hlt.
  - intros w1 w2 n H1 H2.
    apply in_snoc in H1 as [H1 | E1]; apply in_snoc in H2 as [H2 | E2].
    + eapply Huniq; eassumption.
    + injection E2 as _ <-. apply Hfresh in H1. lia.
    + injection E1 as _ <-. apply Hfresh in H2. lia.
    + congruence.
  - intros a b H. apply in_snoc in H as [H | E]; [ | discriminate E].
    now apply wired_edges_kept.
  - intros n H. apply in_snoc in H as [H | E]; [ | discriminate E].
    apply in_or_app. left. now apply Hout.
Qed.

Lemma wired_plain cr cs c :
  plain_call c = true -> wired cr cs -> wired cr (cs ++ [c]).
Proof.
  intros Hc (Hfresh & Huniq & Hedge & Hout). repeat split.
  - intros w n H. apply in_snoc in H as [H | E];
      [now apply Hfresh in H | subst c; discriminate Hc].
  - intros w1 w2 n H1 H2.
    apply in_snoc in H1 as [H1 | E]; [ | subst c; discriminate Hc].
    apply in_snoc in H2 as [H2 | E]; [ | subst c; discriminate Hc].
    eapply Huniq; eassumption.
  - intros a b H. apply in_snoc in H as [H | E];
      [ | subst c; discriminate Hc].
    now apply wired_edges_kept.
  - intros n H. apply in_snoc in H as [H | E];
      [ | subst c; discriminate Hc].
    apply in_or_app. left. now apply Hout.
Qed.

Lemma wired_connect cr cs a b wa wb :
  In (Create wa a) cs -> In (Create wb b) cs ->
  (tone wb = true -> tone wa = true) ->
  wired cr cs -> wired cr (cs ++ [Connect a b]).
Proof.
  intros Hwa Hwb Hab (Hfresh & Huniq & Hedge & Hout). repeat split.
  - intros w n H. apply in_snoc in H as [H | E]; [ | discriminate E].
    now apply Hfresh in H.
  - intros w1 w2 n H1 H2.
    apply in_snoc in H1 as [H1 | E]; [ | discriminate E].
    apply in_snoc in H2 as [H2 | E]; [ | discriminate E].
    eapply Huniq; eassumption.
  - intros a' b' H. apply in_snoc in H as [H | E].
    + now apply wired_edges_kept.
    + injection E as <- <-.
      exists wb. split; [apply in_or_app; now left | ].
      intros Ht. exists wa. split; [apply in_or_app; now left | auto].
  - intros n H. apply in_snoc in H as [H | E]; [ | discriminate E].
    apply in_or_app. left. now apply Hout.
Qed.

Lemma wired_out cr cs n :
  In (Create "Gain" n) cs -> wired cr cs ->
  wired cr (cs ++ [ConnectDestination n]).
Proof.
  intros Hn (Hfresh & Huniq & Hedge & Hout). repeat split.
  - intros w m H. apply in_snoc in H as [H | E]; [ | discriminate E].
    now apply Hfresh in H.
  - intros w1 w2 m H1 H2.
    apply in_snoc in H1 as [H1 | E]; [ | discriminate E].
    apply in_snoc in H2 as [H2 | E]; [ | discriminate E].
    eapply Huniq; eassumption.
  - intros a b H. apply in_snoc in H as [H | E]; [ | discriminate E].
    now apply wired_edges_kept.
  - intros m H. apply in_or_app. left.
    apply in_snoc in H as [H | E]; [now apply Hout | ].
    injection E as <-. exact Hn.
Qed.

Ltac find_in :=
  repeat first [ apply in_or_app; right; left; reflexivity
               | apply in_or_app; left ].

(** Takes the calls of a handler apart, from the last one back. *)
Ltac rewire H :=
  repeat first
    [ exact H
    | apply (wired_more _ _ _ H); lia
    | apply wired_plain; [reflexivity | ]
    | apply wired_create; [ | lia]
    | apply wired_out; [find_in | ]
    | eapply wired_connect;
      [ find_in | find_in
      | first [ intros _; reflexivity | intros E; discriminate E ] | ] ].

Lemma handle_wired sampleRate p a :
  wired (created p) (calls p) ->
  wired (created (handle sampleRate p a)) (calls (handle sampleRate p a)).
Proof.
  destruct a; cbn [handle].
  - fields p. destruct ctx; crunch; intros H; rewire H.
  - graph_cases p; crunch; intros H; rewire H.
  - fields p. destruct ctx, checked, osc; crunch; intros H; rewire H.
  - graph_cases p; destruct rn; try (intros H; exact H);
      destruct ctx; crunch; intros H; rewire H.
  - fields p. crunch. intros H. rewire H.
  - fields p. crunch. intros H. exact H.
  - fields p. destruct an; crunch; intros H; rewire H.
  - destruct (getDevices_writes list p) as (dv' & sel' & eb' & ->).
    fields p. crunch. intros H. exact H.
Qed.

Lemma play_wired sampleRate actions p :
  wired (created p) (calls p) ->
  wired (created (play sampleRate actions p))
    (calls (play sampleRate actions p)).
Proof.
  unfold play. revert p.
  induction actions as [ | a actions IH ]; intros q H; [exact H | ].
  cbn [fold_left]. apply IH. apply handle_wired. exact H.
Qed.

(** X22. The microphone is never played back: whatever happens to the
    page and in whatever order, a node that the calls so far connect
    to the speakers, straight or through other nodes, was made as an
    oscillator or as a gain, the two nodes of the reference tone; the
    source of the microphone stream, the filters, the compressor and
    the analyser are not among them. *)
Theorem microphone_is_not_played_back (sampleRate : float)
  (actions : list action) (micSelect : list option_element)
  (errorBox : error_box) (audioActive : bool) (what : string) (n : nat) :
  let p := play sampleRate actions (loaded micSelect errorBox audioActive) in
  In (Create what n) (calls p) -> audible (calls p) n ->
  what = "Oscillator" \/ what = "Gain".
Proof.
  intros p Hn Ha.
  assert (wired (created p) (calls p)) as W
    by (apply play_wired; repeat split; cbn; intros; contradiction).
  destruct (wired_audible _ _ _ W Ha) as (w & Hw & Ht).
  destruct W as (_ & Huniq & _).
  rewrite (Huniq _ _ _ Hn Hw). unfold tone in Ht.
  apply orb_prop in Ht as [Ht | Ht]; apply String.eqb_eq in Ht; auto.
Qed.

Lemma microphone_is_not_played_back_witness :
  In (Create "Gain" 1)
    (calls (play 44100 [RefToneToggled true]
              (loaded [] {| error_text := ""; error_hidden := true |} false)))
  /\
  audible
    (calls (play 44100 [RefToneToggled true]
              (loaded [] {| error_text := ""; error_hidden := true |} false)))
    1 /\
  ("Gain" = "Oscillator" \/ "Gain" = "Gain").
Proof.
  assert (In (Create "Gain" 1)
            (calls (play 44100 [RefToneToggled true]
                      (loaded [] {| error_text := ""; error_hidden := true |}
                         false)))) as H1
    by (cbn; tauto).
  assert (audible
            (calls (play 44100 [RefToneToggled true]
                      (loaded [] {| error_text := ""; error_hidden := true |}
                         false))) 1) as H2
    by (apply audible_at; cbn; tauto).
  split; [exact H1 | split; [exact H2 | ] ].
  exact (microphone_is_not_played_back 44100 [RefToneToggled true] []
           {| error_text := ""; error_hidden := true |} false "Gain" 1 H1 H2).
Defined.

(** ** A stream that was replaced *)

Lemma stopped_snoc stream cs c :
  stopped stream (cs ++ [c])
  = (stopped stream cs + if is_stop stream c then 1 else 0)%nat.
Proof.
  unfold stopped. rewrite filter_app, length_app. cbn [filter].
  now destruct (is_stop stream c).
Qed.

Lemma other_stream (m stream : nat) :
  Some m <> Some stream -> (m =? stream)%nat = false.
Proof. intros H. apply Nat.eqb_neq. congruence. Qed.

Ltac tally :=
  repeat (rewrite stopped_snoc; cbn [is_stop]);
  rewrite ?Nat.add_0_r.

Lemma handle_other_stream sampleRate p a stream :
  mediaStream p <> Some stream -> grants stream a = false ->
  mediaStream (handle sampleRate p a) <> Some stream /\
  stopped stream (calls (handle sampleRate p a)) = stopped stream (calls p).
Proof.
  destruct a; cbn [handle grants].
  - fields p. destruct ctx; crunch; tally; intros H _; now split.
  - graph_cases p; crunch; tally; intros H _;
      rewrite ?(other_stream _ _ H), ?Nat.add_0_r; now split.
  - fields p. destruct ctx, checked, osc; crunch; tally; intros H _;
      now split.
  - graph_cases p; destruct rn, ctx; crunch; tally; intros H _;
      rewrite ?(other_stream _ _ H), ?Nat.add_0_r; now split.
  - fields p. crunch. tally. intros _ H. apply Nat.eqb_neq in H.
    split; [congruence | reflexivity].
  - fields p. crunch. intros H _. now split.
  - fields p. destruct an; crunch; tally; intros H _; now split.
  - destruct (getDevices_writes list p) as (dv' & sel' & eb' & ->).
    fields p. crunch. intros H _. now split.
Qed.

(** X23. The tracks of a stream are stopped only while [mediaStream]
    holds it: once another value is there, as after a second start that
    was granted with no stop in between, nothing that happens to the
    page stops them any more, short of the same stream being granted
    again. *)
Theorem replaced_stream_is_never_stopped (sampleRate : float)
  (actions : list action) (p : page) (stream : nat) :
  mediaStream p <> Some stream ->
  forallb (fun a => negb (grants stream a)) actions = true ->
  stopped stream (calls (play sampleRate actions p))
  = stopped stream (calls p).
Proof.
  unfold play. revert p.
  induction actions as [ | a actions IH ]; intros p Hp Ha; [reflexivity | ].
  cbn [forallb] in Ha. apply andb_prop in Ha as [Ha Hrest].
  apply negb_true_iff in Ha.
  destruct (handle_other_stream sampleRate p a stream Hp Ha) as [H1 H2].
  cbn [fold_left]. rewrite (IH _ H1 Hrest). exact H2.
Qed.

Lemma replaced_stream_is_never_stopped_witness :
  mediaStream
    (play 44100 [Granted 7 []; Granted 8 []]
       (loaded [] {| error_text := ""; error_hidden := true |} false))
  <> Some 7%nat /\
  forallb (fun a => negb (grants 7 a)) [StopClicked; StopClicked] = true /\
  stopped 7
    (calls
       (play 44100 [StopClicked; StopClicked]
          (play 44100 [Granted 7 []; Granted 8 []]
             (loaded [] {| error_text := ""; error_hidden := true |}
                false))))
  = stopped 7
      (calls
         (play 44100 [Granted 7 []; Granted 8 []]
            (loaded [] {| error_text := ""; error_hidden := true |} false))).
Proof.
  assert (mediaStream
            (play 44100 [Granted 7 []; Granted 8 []]
               (loaded [] {| error_text := ""; error_hidden := true |} false))
          <> Some 7%nat) as H1 by (cbn; discriminate).
  assert (forallb (fun a => negb (grants 7 a)) [StopClicked; StopClicked]
          = true) as H2 by reflexivity.
  split; [exact H1 | split; [exact H2 | ] ].
  exact (replaced_stream_is_never_stopped 44100 [StopClicked; StopClicked]
           _ 7 H1 H2).
Defined.

(** ** Stop *)

(** X24. Stop lets go of all it holds, from any state of the page: it
    cancels the frame that is pending, stops the tracks of the stream,
    disconnects the source, the filters and the compressor, and leaves
    every one of these variables [null]; it keeps [smoothedFreq] and the
    history, which the next start goes on from; and a second Stop asks
    for nothing and changes nothing. *)
Theorem stop_lets_go (p : page) :
  calls (stop p)
  = (calls p
     ++ map CancelAnimationFrame (held (pending (animationId p)))
     ++ map TracksStop (held (mediaStream p))
     ++ map Disconnect
          (held (sourceNode p) ++ held (hpFilter p) ++ held (lpFilter p)
           ++ held (compressor p)))%list /\
  (running (stop p) = false /\ audioActive (stop p) = false /\
   animationId (stop p) = None /\ mediaStream (stop p) = None /\
   sourceNode (stop p) = None /\ hpFilter (stop p) = None /\
   lpFilter (stop p) = None /\ compressor (stop p) = None /\
   analyser (stop p) = None) /\
  (smoothedFreq (stop p) = smoothedFreq p /\ history (stop p) = history p) /\
  stop (stop p) = stop p.
Proof.
  graph_cases p; crunch; cbn [map app];
    rewrite <- ?app_assoc; cbn [app]; rewrite ?app_nil_r;
    repeat split; reflexivity.
Qed.

End ControlsFacts.
